(** * Huffman coder of [main.py]: a shallow embedding and its properties

    The development follows the program top-down the way [main] runs it:
    the bytes of the input file are split into lines, the lines are
    counted into a heap of leaves ([get_quantitative_heap]), the heap is
    merged into one tree ([gen_huffman_tree]), every byte is replaced by
    its path in the tree written with the ASCII characters '0' and '1'
    ([get_huffman_code], [compress_file]), and the stream is read back
    one symbol at a time ([get_next_val], the loop of [main]).

    Python values are modelled as follows: a [bytes] object is a
    [list byte], an [int] holding a count is a [nat], a list used as an
    array is a [list] read with [!!] and written with [<[_:=_]>], the
    insertion-ordered [dict] of counts is an association list, and a raised
    exception is the [Raise] outcome of the result type [res]. *)

From Stdlib Require Import Strings.Byte Strings.Ascii ZArith Lia.
From stdpp Require Import base option list.

Set Default Proof Using "Type".
Local Open Scope nat_scope.

(** ** Outcomes of a call: a value, or a raised exception *)

Inductive exn : Set :=
| IndexError      (* list index or pop out of range *)
| ValueError      (* [raise ValueError] in the program *)
| AttributeError  (* a method called on [None] *)
| Exception.      (* [raise Exception] in [compress_file] *)

Inductive res (A : Type) : Type :=
| Ret (a : A)
| Raise (e : exn)
| OutOfFuel.
Arguments Ret {A} a.
Arguments Raise {A} e.
Arguments OutOfFuel {A}.

Definition bind {A B} (m : res A) (k : A → res B) : res B :=
  match m with
  | Ret a => k a
  | Raise e => Raise e
  | OutOfFuel => OutOfFuel
  end.

Declare Scope res_scope.
Delimit Scope res_scope with res.
Notation "'let*' p ':=' m 'in' k" := (bind m (λ p, k))
  (at level 10, p pattern, m at level 100, k at level 200) : res_scope.
Local Open Scope res_scope.

Abbreviation bytes := (list byte).

(** ** Python lists used as arrays *)

Section PyList.
Context {A : Type}.

(** [l[i]] for an index [i >= 0]. *)
Definition getitem (l : list A) (i : nat) : res A :=
  match l !! i with
  | Some x => Ret x
  | None => Raise IndexError
  end.

(** [l[i] = x] for an index [i >= 0]. *)
Definition setitem (l : list A) (i : nat) (x : A) : res (list A) :=
  if decide (i < length l) then Ret (<[i:=x]> l) else Raise IndexError.

(** [l.pop()]: the last element and the shortened list. *)
Definition list_pop (l : list A) : res (A * list A) :=
  match last l with
  | Some x => Ret (x, removelast l)
  | None => Raise IndexError
  end.
End PyList.

(** ** The [heapq] module of the Python library

    [heappush] and [heappop] with their two helpers, statement by statement
    as in [Lib/heapq.py]; the only comparison they use is [<] on the
    items. Both loops move a hole through the array, so a step counter
    bounded by the length of the array is enough for them to finish. *)

Module heapq.
Section Heapq.
Context {A : Type} (lt : A → A → bool).

(** The [while pos > startpos] loop of [_siftdown]. *)
Fixpoint _siftdown_loop (fuel : nat) (heap : list A) (newitem : A)
    (startpos pos : nat) : res (list A) :=
  match fuel with
  | 0 => OutOfFuel
  | S fuel =>
      if decide (startpos < pos) then
        let parentpos := (pos - 1) / 2 in
        let* parent := getitem heap parentpos in
        if lt newitem parent then
          let* heap := setitem heap pos parent in
          _siftdown_loop fuel heap newitem startpos parentpos
        else setitem heap pos newitem
      else setitem heap pos newitem
  end.

Definition _siftdown (heap : list A) (startpos pos : nat) : res (list A) :=
  let* newitem := getitem heap pos in
  _siftdown_loop (S pos) heap newitem startpos pos.

(** The [while childpos < endpos] loop of [_siftup]; it returns the
    array and the position of the hole that reached a leaf. *)
Fixpoint _siftup_loop (fuel : nat) (heap : list A) (endpos pos : nat)
    : res (list A * nat) :=
  match fuel with
  | 0 => OutOfFuel
  | S fuel =>
      let childpos := 2 * pos + 1 in
      if decide (childpos < endpos) then
        let rightpos := childpos + 1 in
        let* childpos :=
          (if decide (rightpos < endpos) then
             let* c := getitem heap childpos in
             let* r := getitem heap rightpos in
             Ret (if negb (lt c r) then rightpos else childpos)
           else Ret childpos) in
        let* child := getitem heap childpos in
        let* heap := setitem heap pos child in
        _siftup_loop fuel heap endpos childpos
      else Ret (heap, pos)
  end.

Definition _siftup (heap : list A) (pos : nat) : res (list A) :=
  let endpos := length heap in
  let startpos := pos in
  let* newitem := getitem heap pos in
  let* (heap, pos) := _siftup_loop (S endpos) heap endpos pos in
  let* heap := setitem heap pos newitem in
  _siftdown heap startpos pos.

Definition heappush (heap : list A) (item : A) : res (list A) :=
  let heap := heap ++ [item] in
  _siftdown heap 0 (length heap - 1).

(** The popped item together with the heap it leaves behind. *)
Definition heappop (heap : list A) : res (A * list A) :=
  let* (lastelt, heap) := list_pop heap in
  match heap with
  | [] => Ret (lastelt, heap)
  | _ :: _ =>
      let* returnitem := getitem heap 0 in
      let* heap := setitem heap 0 lastelt in
      let* heap := _siftup heap 0 in
      Ret (returnitem, heap)
  end.
End Heapq.
End heapq.

(** ** [class HuffmanNode] *)

#[local] Unset Elimination Schemes.
Inductive HuffmanNode : Type :=
| Node (_freq : nat) (l_child r_child : option HuffmanNode)
       (_content : option byte).
#[local] Set Elimination Schemes.

(** The induction principle that goes through the optional children. *)
Section HuffmanNode_ind.
Variable P : HuffmanNode → Prop.
Hypothesis IH_node : ∀ f l r c,
  (∀ t, l = Some t → P t) → (∀ t, r = Some t → P t) → P (Node f l r c).

Fixpoint HuffmanNode_ind (t : HuffmanNode) : P t :=
  let 'Node f l r c := t in
  IH_node f l r c
    (match l with
     | Some lt => λ t (E : Some lt = Some t),
         eq_ind lt P (HuffmanNode_ind lt) t (Some_inj _ _ E)
     | None => λ t (E : None = Some t), False_ind _ (None_ne_Some _ E)
     end)
    (match r with
     | Some rt => λ t (E : Some rt = Some t),
         eq_ind rt P (HuffmanNode_ind rt) t (Some_inj _ _ E)
     | None => λ t (E : None = Some t), False_ind _ (None_ne_Some _ E)
     end).
End HuffmanNode_ind.

Definition _freq (n : HuffmanNode) : nat :=
  let 'Node f _ _ _ := n in f.
Definition _content (n : HuffmanNode) : option byte :=
  let 'Node _ _ _ c := n in c.

Inductive side : Set := side_l | side_r.

Definition get_child (n : HuffmanNode) (s : side) : option HuffmanNode :=
  let 'Node _ l r _ := n in
  match s with side_l => l | side_r => r end.

Definition is_leaf (n : HuffmanNode) : bool :=
  match get_child n side_l, get_child n side_r with
  | None, None => true
  | _, _ => false
  end.

Definition __eq__ (self other : HuffmanNode) : bool :=
  _freq self =? _freq other.

Definition __lt__ (self other : HuffmanNode) : bool :=
  _freq self <? _freq other.

(** [HuffmanNode(freq=f, content=c)] and
    [HuffmanNode(freq=f, l_child=l, r_child=r)]. *)
Definition leaf_node (f : nat) (c : byte) : HuffmanNode :=
  Node f None None (Some c).
Definition merge_node (node1 node2 : HuffmanNode) : HuffmanNode :=
  Node (_freq node1 + _freq node2) (Some node1) (Some node2) None.

(** ** [gen_huffman_tree]

    The heap is the caller's list, mutated in place: the function returns
    the root together with the list the caller is left with. Every turn of
    the loop pops two nodes and pushes one, so [length heap] turns are
    enough. *)

Fixpoint gen_huffman_tree_loop (fuel : nat) (heap : list HuffmanNode)
    : res (list HuffmanNode) :=
  match fuel with
  | 0 => OutOfFuel
  | S fuel =>
      if decide (2 ≤ length heap) then
        let* (node1, heap) := heapq.heappop __lt__ heap in
        let* (node2, heap) := heapq.heappop __lt__ heap in
        let* heap := heapq.heappush __lt__ heap (merge_node node1 node2) in
        gen_huffman_tree_loop fuel heap
      else Ret heap
  end.

Definition gen_huffman_tree (heap : list HuffmanNode)
    : res (HuffmanNode * list HuffmanNode) :=
  let* heap := gen_huffman_tree_loop (S (length heap)) heap in
  heapq.heappop __lt__ heap.

(** ** [get_huffman_code]

    The function calls itself once per level of the tree. The embedding
    is a structural recursion without the [RecursionError] of the
    interpreter: it follows the source on trees lower than the recursion
    limit, which the trees of the program are (see [height]). *)

Definition content_eq (val : byte) (content : option byte) : bool :=
  match content with
  | Some c => Byte.eqb val c
  | None => false
  end.

Fixpoint get_huffman_code (val : byte) (huffman_tree : HuffmanNode)
    : bool * bytes :=
  let 'Node _ l r content := huffman_tree in
  if is_leaf huffman_tree then (content_eq val content, [])
  else
    let right :=
      match r with
      | Some rt =>
          let '(contain, code) := get_huffman_code val rt in
          if contain then (true, "1"%byte :: code) else (false, [])
      | None => (false, [])
      end in
    match l with
    | Some lt =>
        let '(contain, code) := get_huffman_code val lt in
        if contain then (true, "0"%byte :: code) else right
    | None => right
    end.

(** ** [compress_file] *)

Definition compress_char (huffman_tree : HuffmanNode) (file_cmprssd : bytes)
    (char : byte) : res bytes :=
  let '(contained, code) := get_huffman_code char huffman_tree in
  if negb contained then Raise Exception
  else Ret (file_cmprssd ++ code).

Fixpoint foldM {S X} (f : S → X → res S) (xs : list X) (s : S) : res S :=
  match xs with
  | [] => Ret s
  | x :: xs => let* s := f s x in foldM f xs s
  end.

Definition compress_file (file : list bytes) (huffman_tree : HuffmanNode)
    : res bytes :=
  foldM (λ acc line, foldM (compress_char huffman_tree) line acc) file [].

(** ** [get_quantitative_heap] *)

(** [character_counts], a [dict] in insertion order. *)
Fixpoint count_char (character_counts : list (byte * nat)) (char : byte)
    : list (byte * nat) :=
  match character_counts with
  | [] => [(char, 1)]
  | (k, n) :: rest =>
      if Byte.eqb char k then (k, n + 1) :: rest
      else (k, n) :: count_char rest char
  end.

Definition character_counts (file : list bytes) : list (byte * nat) :=
  fold_left (λ counts line, fold_left count_char line counts) file [].

(** The second loop, [for char in character_counts.keys()]. *)
Definition counts_heap (character_counts : list (byte * nat))
    : res (list HuffmanNode) :=
  foldM (λ counts_heap '(char, n),
           heapq.heappush __lt__ counts_heap (leaf_node n char))
        character_counts [].

Definition get_quantitative_heap (file : list bytes) : res (list HuffmanNode) :=
  counts_heap (character_counts file).

(** ** [get_next_val]

    The function calls itself once per level of the tree and once per
    empty line it steps over; as for [get_huffman_code], the embedding has
    no [RecursionError] and follows the source below the recursion
    limit. *)

Definition bit_of (c : byte) : Z := Z.of_N (Byte.to_N c) - 48.

Fixpoint get_next_val (huffman_tree : HuffmanNode) (file : list bytes)
    {struct huffman_tree} : res (list bytes * option byte) :=
  let 'Node _ l r content := huffman_tree in
  let descend (child : option HuffmanNode) (file : list bytes) :=
    match child, file with
    | _, [] => Ret ([], None)
    | Some t, _ => get_next_val t file
    | None, _ => Raise AttributeError
    end in
  (fix skip (file : list bytes) : res (list bytes * option byte) :=
     match file with
     | [] => Ret ([], None)
     | line :: rest =>
         if is_leaf huffman_tree then Ret (file, content)
         else
           match line with
           | [] => skip rest
           | c :: _ =>
               let bit := bit_of c in
               if (bit =? 0)%Z then descend l (map (drop 1) file)
               else if (bit =? 1)%Z then descend r (map (drop 1) file)
               else Raise ValueError
           end
     end) file.

(** ** The pipeline of [main] *)

(** [file.readlines()] on a file opened in binary mode: the content cut
    after every newline byte. *)
Fixpoint readlines (data : bytes) : list bytes :=
  match data with
  | [] => []
  | c :: data =>
      if Byte.eqb c "010"%byte then [c] :: readlines data
      else
        match readlines data with
        | [] => [[c]]
        | line :: lines => (c :: line) :: lines
        end
  end.

(** The decoding loop of [main]; [fuel] bounds the number of calls of
    [get_next_val]. *)
Fixpoint decompress (fuel : nat) (lines : list bytes) (huffman_tree : HuffmanNode)
    : res bytes :=
  match fuel with
  | 0 => OutOfFuel
  | S fuel =>
      let* (lines, val) := get_next_val huffman_tree lines in
      match val with
      | None => Ret []
      | Some val =>
          let* rest := decompress fuel lines huffman_tree in
          Ret (val :: rest)
      end
  end.

(** Lines 143-149 of [main]: the tree of the file whose content is
    [data]. *)
Definition build_tree (data : bytes) : res HuffmanNode :=
  let* counts_heap := get_quantitative_heap (readlines data) in
  let* (tree, _) := gen_huffman_tree counts_heap in
  Ret tree.

(** Lines 143-152 of [main]: the tree, kept in the variable [HuffmanTree],
    and the compressed stream, written to the compressed file. *)
Definition encode (data : bytes) : res (HuffmanNode * bytes) :=
  let* HuffmanTree := build_tree data in
  let* file_cmprssd := compress_file (readlines data) HuffmanTree in
  Ret (HuffmanTree, file_cmprssd).

(** Lines 165-174 of [main]: the compressed file is read back and decoded
    with the tree still held in [HuffmanTree]. The result is the sequence
    of the values appended to [file_de_cmprssd] by the loop; the
    replacement of line 175 and the write in text mode come after it. *)
Definition decode (fuel : nat) (HuffmanTree : HuffmanNode) (file_cmprssd : bytes)
    : res bytes :=
  decompress fuel (readlines file_cmprssd) HuffmanTree.

(** Line 175 of [main], [file_de_cmprssd.replace("\r\n", "\n")]: one pass
    from the left, every carriage return followed by a line feed becomes a
    line feed. The text is the sequence of the [chr(val)], kept as the
    values [val]. *)
Fixpoint replace_crlf (text : bytes) : bytes :=
  match text with
  | [] => []
  | c1 :: text' =>
      match text' with
      | [] => [c1]
      | c2 :: text'' =>
          if Byte.eqb c1 "013"%byte && Byte.eqb c2 "010"%byte
          then "010"%byte :: replace_crlf text''
          else c1 :: replace_crlf text'
      end
  end.

(** Lines 165-175 of [main]: the text held in [file_de_cmprssd] when it is
    written to the decompressed file. *)
Definition decompressed_text (fuel : nat) (HuffmanTree : HuffmanNode)
    (file_cmprssd : bytes) : res bytes :=
  let* file_de_cmprssd := decode fuel HuffmanTree file_cmprssd in
  Ret (replace_crlf file_de_cmprssd).

(** ** The names of the files [main] writes

    [args.file.split('.')] and the unpacking [name, affix = ...] of lines
    160 and 181; a [str] is a list of characters. *)

Abbreviation str := (list ascii).

Fixpoint split_dot (s : str) : list str :=
  match s with
  | [] => [[]]
  | c :: s =>
      if Ascii.eqb c "."%char then [] :: split_dot s
      else
        match split_dot s with
        | part :: parts => (c :: part) :: parts
        | [] => [[c]]
        end
  end.

(** [name, affix = parts]: anything but two parts raises [ValueError]. *)
Definition unpack_pair {A} (parts : list A) : res (A * A) :=
  match parts with
  | [name; affix] => Ret (name, affix)
  | _ => Raise ValueError
  end.

Definition suffix_compressed : str :=
  ["_"; "c"; "o"; "m"; "p"; "r"; "e"; "s"; "s"; "e"; "d"; "."]%char.
Definition suffix_de_compressed : str :=
  ["_"; "d"; "e"; "_"; "c"; "o"; "m"; "p"; "r"; "e"; "s"; "s"; "e"; "d"; "."]%char.

(** The names [f"{name}_compressed.{affix}"] and
    [f"{name}_de_compressed.{affix}"] for the file name [file]. *)
Definition output_names (file : str) : res (str * str) :=
  let* (name, affix) := unpack_pair (split_dot file) in
  Ret (name ++ suffix_compressed ++ affix, name ++ suffix_de_compressed ++ affix).

(** ** [files_equal]

    The comparison loop of lines 123-128 on the two lists of lines that
    [readlines] returned for the two files; the [print] before the [raise]
    writes to the standard output and is not part of the outcome. The
    index [i] only grows up to the shorter length, which bounds the turns
    of the loop. *)

Fixpoint files_equal_loop {A} `{EqDecision A} (fuel : nat)
    (lines1 lines2 : list A) (i : nat) : res unit :=
  match fuel with
  | 0 => OutOfFuel
  | S fuel =>
      if decide (i < min (length lines1) (length lines2)) then
        let* line1 := getitem lines1 i in
        let* line2 := getitem lines2 i in
        if decide (line1 ≠ line2) then Raise Exception
        else files_equal_loop fuel lines1 lines2 (i + 1)
      else Ret tt
  end.

Definition files_equal {A} `{EqDecision A} (lines1 lines2 : list A) : res unit :=
  files_equal_loop (S (min (length lines1) (length lines2))) lines1 lines2 0.

(** * Vocabulary of the properties *)

(** The contents of the leaves of a tree, left to right. *)
Fixpoint leaf_contents (t : HuffmanNode) : list (option byte) :=
  let 'Node _ l r content := t in
  match l, r with
  | None, None => [content]
  | _, _ =>
      match l with Some lt => leaf_contents lt | None => [] end ++
      match r with Some rt => leaf_contents rt | None => [] end
  end.

(** The code [compress_file] appends for one byte. *)
Definition code_of (huffman_tree : HuffmanNode) (char : byte) : bytes :=
  (get_huffman_code char huffman_tree).2.

(** [contain, code = get_huffman_code(val, child)] followed by
    [if contain: return True, bit + code], for a child that may be [None]. *)
Definition code_in_child (val : byte) (child : option HuffmanNode) (bit : byte)
    : bool * bytes :=
  match child with
  | Some t =>
      let '(contain, code) := get_huffman_code val t in
      if contain then (true, bit :: code) else (false, [])
  | None => (false, [])
  end.

(** The recursive call of [get_next_val] on a child that may be [None]. *)
Definition get_next_val_child (child : option HuffmanNode) (file : list bytes)
    : res (list bytes * option byte) :=
  match child, file with
  | _, [] => Ret ([], None)
  | Some t, _ => get_next_val t file
  | None, _ => Raise AttributeError
  end.

Definition is_bit (b : byte) : Prop := b = "0"%byte ∨ b = "1"%byte.

#[global] Instance byte_eq_dec : EqDecision byte := Byte.byte_eq_dec.

(** The leaf [get_quantitative_heap] pushes for an entry of the dict. *)
Definition leaf_of_count (entry : byte * nat) : HuffmanNode :=
  leaf_node entry.2 entry.1.

(** The sum over the entries [(s, n)] of a frequency table of [n * w s]. *)
Definition weighted_sum (w : byte → nat) (counts : list (byte * nat)) : nat :=
  sum_list_with (λ entry, entry.2 * w entry.1) counts.

(** [get_huffman_code] answers [True] for [char]. *)
Definition contained (t : HuffmanNode) (char : byte) : Prop :=
  (get_huffman_code char t).1 = true.

(** [character_counts[char]] on the dict, and the equality of two dicts
    as mappings (Python's [==] on dicts, blind to the insertion order). *)
Fixpoint table_get (counts : list (byte * nat)) (char : byte) : option nat :=
  match counts with
  | [] => None
  | (k, n) :: rest => if Byte.eqb char k then Some n else table_get rest char
  end.

Definition same_table (counts1 counts2 : list (byte * nat)) : Prop :=
  ∀ char, table_get counts1 char = table_get counts2 char.

(** The heap invariant of [heapq]: no item is smaller than its parent, the
    parent of the slot [pos] being the slot [(pos - 1) >> 1]. *)
Definition parentpos (pos : nat) : nat := (pos - 1) / 2.

Definition is_heap {A} (lt : A → A → bool) (heap : list A) : Prop :=
  ∀ i x p, 0 < i → heap !! i = Some x → heap !! parentpos i = Some p →
           lt x p = false.

(** The invariant while the slot [pos] is a hole: the order holds wherever
    the hole is not involved, and across the hole from its parent to its
    children. *)
Definition hole_inv {A} (lt : A → A → bool) (heap : list A) (pos : nat) : Prop :=
  (∀ i x p, 0 < i → i ≠ pos → parentpos i ≠ pos →
            heap !! i = Some x → heap !! parentpos i = Some p → lt x p = false)
  ∧ (∀ i x g, 0 < i → parentpos i = pos → 0 < pos →
              heap !! i = Some x → heap !! parentpos pos = Some g → lt x g = false).

(** No child of the hole is smaller than the item held aside. *)
Definition below_children {A} (lt : A → A → bool) (heap : list A) (pos : nat)
    (newitem : A) : Prop :=
  ∀ i x, 0 < i → parentpos i = pos → heap !! i = Some x → lt x newitem = false.

(** One turn of the [while] loop of [gen_huffman_tree], and the heaps the
    loop goes through from [heap0]. *)
Definition merge_step (heap : list HuffmanNode) : res (list HuffmanNode) :=
  let* (node1, heap) := heapq.heappop __lt__ heap in
  let* (node2, heap) := heapq.heappop __lt__ heap in
  heapq.heappush __lt__ heap (merge_node node1 node2).

Inductive reachable (heap0 : list HuffmanNode) : list HuffmanNode → Prop :=
| reachable_start : reachable heap0 heap0
| reachable_step heap heap' :
    reachable heap0 heap → 2 ≤ length heap → merge_step heap = Ret heap' →
    reachable heap0 heap'.

(** The leaves of a tree, left to right. *)
Fixpoint leaves (t : HuffmanNode) : list HuffmanNode :=
  let 'Node _ l r _ := t in
  match l, r with
  | None, None => [t]
  | _, _ =>
      match l with Some lt => leaves lt | None => [] end ++
      match r with Some rt => leaves rt | None => [] end
  end.

(** The trees the program builds: a leaf holds a symbol, an inner node has
    both children, no symbol, and the sum of their frequencies. *)
Fixpoint well_formed (t : HuffmanNode) : Prop :=
  let 'Node f l r content := t in
  match l, r with
  | None, None => is_Some content
  | Some lt, Some rt =>
      content = None ∧ f = _freq lt + _freq rt
      ∧ well_formed lt ∧ well_formed rt
  | _, _ => False
  end.

(** Following a code from a node: '0' to the left child, '1' to the right
    child. *)
Fixpoint walk (t : HuffmanNode) (code : bytes) : option HuffmanNode :=
  match code with
  | [] => Some t
  | b :: code =>
      let 'Node _ l r _ := t in
      if Byte.eqb b "0"%byte then
        match l with Some lt => walk lt code | None => None end
      else if Byte.eqb b "1"%byte then
        match r with Some rt => walk rt code | None => None end
      else None
  end.

(** A carriage return directly followed by a line feed occurs in [text]. *)
Definition has_crlf (text : bytes) : Prop :=
  ∃ before after, text = before ++ "013"%byte :: "010"%byte :: after.

(** The leaves of a tree with their depths, the root being at depth [d]. *)
Fixpoint leaf_depths (d : nat) (t : HuffmanNode) : list (HuffmanNode * nat) :=
  let 'Node _ l r _ := t in
  match l, r with
  | None, None => [(t, d)]
  | _, _ =>
      match l with Some lt => leaf_depths (S d) lt | None => [] end ++
      match r with Some rt => leaf_depths (S d) rt | None => [] end
  end.

(** The cost of a tree: the sum over its leaves of frequency times depth. *)
Definition tree_cost (t : HuffmanNode) : nat :=
  sum_list_with (λ e, _freq e.1 * e.2) (leaf_depths 0 t).

(** Every node of the tree has no child or two. *)
Fixpoint full (t : HuffmanNode) : Prop :=
  let 'Node _ l r _ := t in
  match l, r with
  | None, None => True
  | Some lt, Some rt => full lt ∧ full rt
  | _, _ => False
  end.

(** Depths that are the depths of the leaves of a full binary tree satisfy
    the equality of Kraft, here cleared of fractions by a bound [H] on the
    depths: the sum of the [2 ^ (H - d)] is [2 ^ H]. *)
Definition kraft (H : nat) (depths : list nat) : nat :=
  sum_list_with (λ d, 2 ^ (H - d)) depths.

Definition complete (depths : list nat) : Prop :=
  ∃ H, Forall (λ d, d ≤ H) depths ∧ kraft H depths = 2 ^ H.

(** The cost of giving every weight [w] of a list of pairs [(w, d)] a code
    of length [d]. *)
Definition pairs_cost (pairs : list (nat * nat)) : nat :=
  sum_list_with (λ e, e.1 * e.2) pairs.

(** The length of the code of the content of a leaf. *)
Definition code_length (t : HuffmanNode) (content : option byte) : nat :=
  match content with
  | Some char => length (code_of t char)
  | None => 0
  end.

(** The number of levels below the root. [get_huffman_code] and
    [get_next_val] call themselves once per level on the way down, and
    the interpreter stops a chain of calls at its recursion limit (1000
    frames unless changed, and the program does not change it) with a
    [RecursionError], an outcome the embedding does not have. The
    embedding follows the source on the trees the calls can descend; the
    trees of the program hold at most 256 distinct bytes and have at most
    255 levels, and the properties that promise an answer for a tree of
    any origin are stated up to that height. *)
Fixpoint height (t : HuffmanNode) : nat :=
  let 'Node _ l r _ := t in
  match l, r with
  | None, None => 0
  | _, _ =>
      S (max match l with Some lt => height lt | None => 0 end
             match r with Some rt => height rt | None => 0 end)
  end.

(** The same outcome with the value mapped. *)
Definition res_map {A B} (g : A → B) (m : res A) : res B :=
  let* a := m in Ret (g a).

(** A tree, and a frequency table, with every byte [c] replaced by
    [f c]: the frequencies, the shape and the order of the entries are
    kept. *)
Fixpoint relabel (f : byte → byte) (t : HuffmanNode) : HuffmanNode :=
  let 'Node freq l r content := t in
  Node freq
    match l with Some lt => Some (relabel f lt) | None => None end
    match r with Some rt => Some (relabel f rt) | None => None end
    (f <$> content).

Definition relabel_counts (f : byte → byte) (counts : list (byte * nat))
    : list (byte * nat) :=
  (λ entry, (f entry.1, entry.2)) <$> counts.

(** Two example files, used where a property is evaluated on an input. *)
Definition file_ab : bytes := ["a"; "b"]%byte.
Definition file_ba : bytes := ["b"; "a"]%byte.
Definition file_aaaa : bytes := ["a"; "a"; "a"; "a"]%byte.
Definition file_abracadabra : bytes :=
  ["a"; "b"; "r"; "a"; "c"; "a"; "d"; "a"; "b"; "r"; "a"]%byte.
Definition tree_ab : HuffmanNode :=
  Node 2 (Some (leaf_node 1 "a")) (Some (leaf_node 1 "b")) None.
Definition tree_ba : HuffmanNode :=
  Node 2 (Some (leaf_node 1 "b")) (Some (leaf_node 1 "a")) None.

(** Two files with three bytes met once each, in two orders, and the
    replacement of bytes that carries the table of the first to the table
    of the second. *)
Definition file_abc : bytes := ["a"; "b"; "c"]%byte.
Definition file_cab : bytes := ["c"; "a"; "b"]%byte.
Definition rotate_abc (c : byte) : byte :=
  if Byte.eqb c "a" then "c"%byte
  else if Byte.eqb c "b" then "a"%byte
  else if Byte.eqb c "c" then "b"%byte
  else c.

(** The tree the program builds for [file_abracadabra], and a more
    balanced tree over the same bytes. *)
Definition tree_abracadabra : HuffmanNode :=
  merge_node (leaf_node 5 "a")
    (merge_node (merge_node (leaf_node 1 "c") (leaf_node 1 "d"))
                (merge_node (leaf_node 2 "r") (leaf_node 2 "b"))).
Definition tree_abracadabra_balanced : HuffmanNode :=
  merge_node (merge_node (leaf_node 5 "a") (leaf_node 2 "b"))
    (merge_node (leaf_node 2 "r")
                (merge_node (leaf_node 1 "c") (leaf_node 1 "d"))).

(** * Properties *)

(** ** The result monad *)

Lemma bind_Ret_inv {A B} (m : res A) (k : A → res B) b :
  bind m k = Ret b → ∃ a, m = Ret a ∧ k a = Ret b.
Proof. destruct m; simpl; [eauto | done | done]. Qed.

(** ** Lists as arrays *)

Section PyListFacts.
Context {A : Type}.
Implicit Types (l : list A) (x y : A) (i j : nat).

Lemma getitem_lookup l i x : l !! i = Some x → getitem l i = Ret x.
Proof. unfold getitem. by intros ->. Qed.

Lemma getitem_lt l i : i < length l → ∃ x, l !! i = Some x ∧ getitem l i = Ret x.
Proof.
  intros Hi. destruct (lookup_lt_is_Some_2 l i Hi) as [x Hx].
  exists x. split; [done | by apply getitem_lookup].
Qed.

Lemma setitem_lt l i x : i < length l → setitem l i x = Ret (<[i:=x]> l).
Proof. unfold setitem. intros Hi. by rewrite decide_True. Qed.

Lemma list_pop_nil : list_pop (@nil A) = Raise IndexError.
Proof. reflexivity. Qed.

Lemma list_pop_snoc l x : list_pop (l ++ [x]) = Ret (x, l).
Proof. unfold list_pop. by rewrite last_snoc, removelast_last. Qed.

Lemma list_pop_Ret l : l ≠ [] → ∃ x l', l = l' ++ [x] ∧ list_pop l = Ret (x, l').
Proof.
  intros Hl. destruct (exists_last Hl) as (l' & x & ->).
  exists x, l'. split; [done | apply list_pop_snoc].
Qed.

(** Writing [x] into the slot [j] while [y] is held aside, and the same
    with [x] and [y] exchanged, leave the same elements. *)
Lemma insert_held_Permutation l j x y :
  j < length l → y :: <[j:=x]> l ≡ₚ x :: <[j:=y]> l.
Proof.
  revert j. induction l as [|a l IH]; intros [|j] Hj; simpl in *; try lia.
  - apply perm_swap.
  - rewrite (perm_swap a y), (IH j) by lia. apply perm_swap.
Qed.

(** Moving the element of slot [i] into the hole [j] and filling slot [i]
    is filling the hole directly, up to the order of the elements. *)
Lemma insert_move_Permutation l i j x y :
  i ≠ j → l !! i = Some x → j < length l →
  <[i:=y]> (<[j:=x]> l) ≡ₚ <[j:=y]> l.
Proof.
  revert i j. induction l as [|a l IH]; intros [|i] [|j] Hij Hi Hj;
    simpl in *; try done; try lia.
  - injection Hi as ->. apply insert_held_Permutation. lia.
  - symmetry. rewrite <- (list_insert_id l i x) at 1 by done.
    apply insert_held_Permutation. by eapply lookup_lt_Some.
  - f_equiv. apply IH; [lia | done | lia].
Qed.
End PyListFacts.

(** ** Positions in the array of a binary heap *)

Lemma parentpos_lt pos : 0 < pos → (pos - 1) / 2 < pos.
Proof.
  intros Hpos. apply Nat.le_lt_trans with (pos - 1); [|lia].
  apply Nat.Div0.div_le_upper_bound. lia.
Qed.

Lemma parentpos_children i pos :
  0 < i → parentpos i = pos ↔ i = 2 * pos + 1 ∨ i = 2 * pos + 2.
Proof.
  intros Hi. unfold parentpos.
  pose proof (Nat.div_mod_eq (i - 1) 2) as Hdiv.
  pose proof (Nat.mod_upper_bound (i - 1) 2) as Hmod.
  split.
  - intros <-. lia.
  - intros [-> | ->].
    + symmetry. apply (Nat.div_unique _ _ _ 0); lia.
    + symmetry. apply (Nat.div_unique _ _ _ 1); lia.
Qed.

(** ** [heapq]: no index error, and the elements are kept *)

Section HeapqElements.
Context {A : Type} (lt : A → A → bool).
Implicit Types (heap : list A) (item : A).

Lemma _siftdown_loop_Permutation fuel heap newitem startpos pos :
  pos < length heap → pos < fuel →
  ∃ heap', heapq._siftdown_loop lt fuel heap newitem startpos pos = Ret heap'
           ∧ heap' ≡ₚ <[pos:=newitem]> heap.
Proof.
  revert heap pos. induction fuel as [|fuel IH]; intros heap pos Hpos Hfuel;
    [lia|]. cbn [heapq._siftdown_loop].
  destruct (decide (startpos < pos)) as [Hlt|_];
    [|rewrite setitem_lt by done; eauto].
  pose proof (parentpos_lt pos) as Hparentpos.
  destruct (getitem_lt heap ((pos - 1) / 2)) as (parent & Hparent & ->);
    [lia|]. cbn [bind].
  destruct (lt newitem parent); [|rewrite setitem_lt by done; eauto].
  rewrite setitem_lt by done. cbn [bind].
  destruct (IH (<[pos:=parent]> heap) ((pos - 1) / 2)) as (heap' & -> & Hperm);
    [rewrite length_insert; lia | lia |].
  exists heap'. split; [done|]. rewrite Hperm.
  apply insert_move_Permutation; [lia | done | done].
Qed.

Lemma _siftdown_Permutation heap startpos pos :
  pos < length heap →
  ∃ heap', heapq._siftdown lt heap startpos pos = Ret heap' ∧ heap' ≡ₚ heap.
Proof.
  intros Hpos. unfold heapq._siftdown.
  destruct (getitem_lt heap pos Hpos) as (newitem & Hnew & ->). cbn [bind].
  destruct (_siftdown_loop_Permutation (S pos) heap newitem startpos pos)
    as (heap' & -> & Hperm); [done | lia |].
  exists heap'. split; [done|]. by rewrite Hperm, list_insert_id.
Qed.

Lemma _siftup_loop_Permutation fuel heap endpos pos :
  endpos ≤ length heap → pos < endpos → endpos - pos ≤ fuel →
  ∃ heap' pos', heapq._siftup_loop lt fuel heap endpos pos = Ret (heap', pos')
                ∧ pos' < endpos ∧ length heap' = length heap
                ∧ ∀ x, <[pos':=x]> heap' ≡ₚ <[pos:=x]> heap.
Proof.
  revert heap pos. induction fuel as [|fuel IH]; intros heap pos Hend Hpos Hfuel;
    [lia|]. cbn [heapq._siftup_loop].
  destruct (decide (2 * pos + 1 < endpos)) as [Hchild|_]; [|by eauto 10].
  assert (∃ childpos,
    (if decide (2 * pos + 1 + 1 < endpos) then
       let* c := getitem heap (2 * pos + 1) in
       let* r := getitem heap (2 * pos + 1 + 1) in
       Ret (if negb (lt c r) then 2 * pos + 1 + 1 else 2 * pos + 1)
     else Ret (2 * pos + 1)) = Ret childpos
    ∧ pos < childpos < endpos) as (childpos & -> & Hcp).
  { destruct (decide _) as [Hright|_]; [|exists (2 * pos + 1); split; [done | lia]].
    destruct (getitem_lt heap (2 * pos + 1)) as (c & _ & ->); [lia|].
    destruct (getitem_lt heap (2 * pos + 1 + 1)) as (r & _ & ->); [lia|].
    cbn [bind]. destruct (negb (lt c r)); eexists; (split; [done | lia]). }
  cbn [bind].
  destruct (getitem_lt heap childpos) as (child & Hchildv & ->); [lia|]. cbn [bind].
  rewrite setitem_lt by lia. cbn [bind].
  destruct (IH (<[pos:=child]> heap) childpos) as (heap' & pos' & -> & ? & Hlen & Hperm);
    [rewrite length_insert; lia | lia | lia |].
  exists heap', pos'. split_and!; [done | done | by rewrite Hlen, length_insert |].
  intros x. rewrite Hperm. apply insert_move_Permutation; [lia | done | lia].
Qed.

Lemma _siftup_Permutation heap pos :
  pos < length heap →
  ∃ heap', heapq._siftup lt heap pos = Ret heap' ∧ heap' ≡ₚ heap.
Proof.
  intros Hpos. unfold heapq._siftup.
  destruct (getitem_lt heap pos Hpos) as (newitem & Hnew & ->). cbn [bind].
  destruct (_siftup_loop_Permutation (S (length heap)) heap (length heap) pos)
    as (heap1 & pos1 & -> & Hpos1 & Hlen & Hperm); [lia | lia | lia |].
  cbn [bind]. rewrite setitem_lt by lia. cbn [bind].
  destruct (_siftdown_Permutation (<[pos1:=newitem]> heap1) pos pos1)
    as (heap2 & -> & Hperm2); [rewrite length_insert; lia|].
  exists heap2. split; [done|].
  by rewrite Hperm2, Hperm, list_insert_id.
Qed.

Lemma heappush_Permutation heap item :
  ∃ heap', heapq.heappush lt heap item = Ret heap' ∧ heap' ≡ₚ item :: heap.
Proof.
  unfold heapq.heappush.
  destruct (_siftdown_Permutation (heap ++ [item]) 0 (length (heap ++ [item]) - 1))
    as (heap' & -> & Hperm); [rewrite length_app; simpl; lia|].
  exists heap'. split; [done|]. by rewrite Hperm, Permutation_app_comm.
Qed.

Lemma heappop_nil : heapq.heappop lt [] = Raise IndexError.
Proof. reflexivity. Qed.

Lemma heappop_Permutation heap :
  heap ≠ [] →
  ∃ item heap', heapq.heappop lt heap = Ret (item, heap') ∧ item :: heap' ≡ₚ heap.
Proof.
  intros Hne. unfold heapq.heappop.
  destruct (list_pop_Ret heap Hne) as (lastelt & heap1 & -> & ->). cbn [bind].
  destruct heap1 as [|returnitem heap1]; [by eauto|].
  change (getitem (returnitem :: heap1) 0) with (Ret returnitem).
  rewrite setitem_lt by (simpl; lia). cbn [bind].
  change (<[0:=lastelt]> (returnitem :: heap1)) with (lastelt :: heap1).
  destruct (_siftup_Permutation (lastelt :: heap1) 0) as (heap2 & -> & Hperm);
    [simpl; lia|].
  exists returnitem, heap2. split; [done|].
  rewrite Hperm. rewrite (Permutation_app_comm _ [lastelt]). apply perm_swap.
Qed.
End HeapqElements.

(** ** [heapq]: the heap invariant, and the popped item is a minimum *)

Section HeapqOrder.
Context {A : Type} (lt : A → A → bool).
Hypothesis lt_asym : ∀ x y, lt x y = true → lt y x = false.
Hypothesis le_trans : ∀ x y z, lt y x = false → lt z y = false → lt z x = false.
Implicit Types (heap : list A) (pos : nat).

Lemma lt_irrefl x : lt x x = false.
Proof using lt_asym. destruct (lt x x) eqn:H; [by rewrite (lt_asym x x H) in H | done]. Qed.

Lemma parentpos_pos_lt pos : 0 < pos → parentpos pos < pos.
Proof. apply parentpos_lt. Qed.

Lemma is_heap_nil : is_heap lt [].
Proof. intros i x p _ Hx. by rewrite lookup_nil in Hx. Qed.

Lemma is_heap_app heap tail : is_heap lt (heap ++ tail) → is_heap lt heap.
Proof.
  intros Hheap i x p Hi Hx Hp.
  apply (Hheap i x p Hi); by apply lookup_app_l_Some.
Qed.

Lemma is_heap_hole_inv heap pos : is_heap lt heap → hole_inv lt heap pos.
Proof using le_trans.
  intros Hheap. split.
  - intros i x p Hi _ _. by apply Hheap.
  - intros i x g Hi Hpar Hpos Hx Hg.
    assert (pos < length heap) as Hlen.
    { apply lookup_lt_Some in Hx. pose proof (parentpos_pos_lt i Hi). lia. }
    destruct (lookup_lt_is_Some_2 heap pos Hlen) as [y Hy].
    apply (le_trans g y x).
    + by apply (Hheap pos y g).
    + apply (Hheap i x y Hi Hx). by rewrite Hpar.
Qed.

(** The hole invariant does not read the slot of the hole. *)
Lemma hole_inv_insert heap pos y : hole_inv lt heap pos → hole_inv lt (<[pos:=y]> heap) pos.
Proof.
  intros [H1 H2]. split.
  - intros i x p Hi Hne Hpar Hx Hp.
    rewrite list_lookup_insert_ne in Hx, Hp by done. by apply (H1 i).
  - intros i x g Hi Hpar Hpos Hx Hg.
    pose proof (parentpos_pos_lt i Hi). pose proof (parentpos_pos_lt pos Hpos).
    rewrite list_lookup_insert_ne in Hx, Hg by lia. by apply (H2 i).
Qed.

Lemma below_children_leaf heap pos newitem :
  length heap ≤ 2 * pos + 1 → below_children lt heap pos newitem.
Proof.
  intros Hlen i x Hi Hpar Hx. apply lookup_lt_Some in Hx.
  apply parentpos_children in Hpar; [lia | done].
Qed.

(** Putting the item into the hole restores the invariant once the item
    is not smaller than the parent of the hole. *)
Lemma hole_fill heap pos newitem :
  pos < length heap → hole_inv lt heap pos → below_children lt heap pos newitem →
  (∀ p, 0 < pos → heap !! parentpos pos = Some p → lt newitem p = false) →
  is_heap lt (<[pos:=newitem]> heap).
Proof.
  intros Hpos [H1 H2] H3 H4 i x p Hi Hx Hp.
  pose proof (parentpos_pos_lt i Hi) as Hlt.
  destruct (decide (i = pos)) as [->|Hne].
  - rewrite list_lookup_insert_eq in Hx by done. injection Hx as <-.
    rewrite list_lookup_insert_ne in Hp by lia. by apply H4.
  - rewrite list_lookup_insert_ne in Hx by done.
    destruct (decide (parentpos i = pos)) as [Hpar|Hpar].
    + rewrite Hpar, list_lookup_insert_eq in Hp by done. injection Hp as <-.
      by apply (H3 i).
    + rewrite list_lookup_insert_ne in Hp by done. by apply (H1 i).
Qed.

(** One turn of the loop of [_siftdown]: the parent moves into the hole. *)
Lemma hole_up heap pos newitem parent :
  pos < length heap → 0 < pos →
  hole_inv lt heap pos → below_children lt heap pos newitem →
  heap !! parentpos pos = Some parent → lt newitem parent = true →
  hole_inv lt (<[pos:=parent]> heap) (parentpos pos)
  ∧ below_children lt (<[pos:=parent]> heap) (parentpos pos) newitem.
Proof using lt_asym le_trans.
  intros Hlen Hpos [H1 H2] H3 Hparent Hlt.
  pose proof (parentpos_pos_lt pos Hpos) as Hpp.
  assert (∀ i x, 0 < i → i ≠ pos → parentpos i = parentpos pos →
                 heap !! i = Some x → lt x parent = false) as Hsibling.
  { intros i x Hi Hne Hpar Hx. apply (H1 i x parent Hi Hne); [lia | done |].
    by rewrite Hpar. }
  split; [split|].
  - intros i x p Hi Hne Hpar Hx Hp.
    destruct (decide (i = pos)) as [->|Hne']; [done|].
    rewrite list_lookup_insert_ne in Hx by done.
    destruct (decide (parentpos i = pos)) as [Hpar'|Hpar'].
    + rewrite Hpar', list_lookup_insert_eq in Hp by done. injection Hp as <-.
      by apply (H2 i).
    + rewrite list_lookup_insert_ne in Hp by done. by apply (H1 i).
  - intros i x g Hi Hpar Hpp0 Hx Hg.
    pose proof (parentpos_pos_lt _ Hpp0) as Hppp.
    rewrite list_lookup_insert_ne in Hg by lia.
    assert (lt parent g = false) as Hgp by (apply (H1 (parentpos pos)); [done | lia..| done | done]).
    destruct (decide (i = pos)) as [->|Hne'].
    + rewrite list_lookup_insert_eq in Hx by done. by injection Hx as <-.
    + rewrite list_lookup_insert_ne in Hx by done.
      apply (le_trans g parent x); [done | by apply (Hsibling i)].
  - intros i x Hi Hpar Hx.
    destruct (decide (i = pos)) as [->|Hne'].
    + rewrite list_lookup_insert_eq in Hx by done. injection Hx as <-.
      by apply lt_asym.
    + rewrite list_lookup_insert_ne in Hx by done.
      apply (le_trans newitem parent x); [by apply lt_asym | by apply (Hsibling i)].
Qed.

Lemma _siftdown_loop_is_heap fuel heap newitem pos heap' :
  pos < length heap → hole_inv lt heap pos → below_children lt heap pos newitem →
  heapq._siftdown_loop lt fuel heap newitem 0 pos = Ret heap' → is_heap lt heap'.
Proof using lt_asym le_trans.
  revert heap pos. induction fuel as [|fuel IH]; intros heap pos Hlen Hinv Hbelow;
    [done|]. cbn [heapq._siftdown_loop]. fold (parentpos pos).
  destruct (decide (0 < pos)) as [Hpos|Hpos].
  - unfold getitem. destruct (heap !! parentpos pos) as [parent|] eqn:Hparent; [|done].
    cbn [bind]. rewrite !setitem_lt by done.
    destruct (lt newitem parent) eqn:Hlt; cbn [bind].
    + intros Hloop. destruct (hole_up heap pos newitem parent) as [Hinv' Hbelow']; try done.
      apply (IH (<[pos:=parent]> heap) (parentpos pos)); try done.
      rewrite length_insert. pose proof (parentpos_pos_lt pos Hpos). lia.
    + intros [= <-]. apply hole_fill; [done | done | done |].
      intros p _ Hp. congruence.
  - rewrite setitem_lt by done. intros [= <-].
    apply hole_fill; [done | done | done |]. intros p ?. lia.
Qed.

Lemma _siftdown_is_heap heap pos heap' :
  hole_inv lt heap pos → length heap ≤ 2 * pos + 1 →
  heapq._siftdown lt heap 0 pos = Ret heap' → is_heap lt heap'.
Proof using lt_asym le_trans.
  intros Hinv Hleaf. unfold heapq._siftdown, getitem.
  destruct (heap !! pos) as [newitem|] eqn:Hnew; [|done]. cbn [bind].
  apply _siftdown_loop_is_heap; [by eapply lookup_lt_Some | done |].
  by apply below_children_leaf.
Qed.

Theorem heappush_is_heap heap item heap' :
  is_heap lt heap → heapq.heappush lt heap item = Ret heap' → is_heap lt heap'.
Proof using lt_asym le_trans.
  intros Hheap. unfold heapq.heappush. rewrite length_app. simpl.
  replace (length heap + 1 - 1) with (length heap) by lia.
  apply _siftdown_is_heap; [|rewrite length_app; simpl; lia].
  split.
  - intros i x p Hi Hne Hpar Hx Hp.
    assert (i < length heap) as Hlt.
    { apply lookup_lt_Some in Hx. rewrite length_app in Hx. simpl in Hx. lia. }
    pose proof (parentpos_pos_lt i Hi).
    rewrite lookup_app_l in Hx, Hp by lia. by apply (Hheap i).
  - intros i x g Hi Hpar _ Hx _.
    apply lookup_lt_Some in Hx. rewrite length_app in Hx. simpl in Hx.
    pose proof (parentpos_pos_lt i Hi). lia.
Qed.

(** One turn of the loop of [_siftup]: the smaller child moves into the
    hole. *)
Lemma hole_down heap pos c child :
  pos < length heap → hole_inv lt heap pos →
  0 < c → parentpos c = pos → heap !! c = Some child →
  below_children lt heap pos child →
  hole_inv lt (<[pos:=child]> heap) c.
Proof.
  intros Hlen [H1 H2] Hc Hcpar Hchild Hsmall.
  pose proof (parentpos_pos_lt c Hc) as Hcp.
  split.
  - intros i x p Hi Hne Hpar Hx Hp.
    pose proof (parentpos_pos_lt i Hi) as Hip.
    destruct (decide (i = pos)) as [->|Hne'].
    + rewrite list_lookup_insert_eq in Hx by done. injection Hx as <-.
      rewrite list_lookup_insert_ne in Hp by lia. by apply (H2 c).
    + rewrite list_lookup_insert_ne in Hx by done.
      destruct (decide (parentpos i = pos)) as [Hpar'|Hpar'].
      * rewrite Hpar', list_lookup_insert_eq in Hp by done. injection Hp as <-.
        by apply (Hsmall i).
      * rewrite list_lookup_insert_ne in Hp by done. by apply (H1 i).
  - intros i x g Hi Hpar _ Hx Hg.
    pose proof (parentpos_pos_lt i Hi) as Hip.
    rewrite Hcpar, list_lookup_insert_eq in Hg by done. injection Hg as <-.
    rewrite list_lookup_insert_ne in Hx by lia.
    apply (H1 i x child Hi); [lia | lia | done | by rewrite Hpar].
Qed.

Lemma _siftup_loop_hole fuel heap pos heap' pos' :
  pos < length heap → hole_inv lt heap pos →
  heapq._siftup_loop lt fuel heap (length heap) pos = Ret (heap', pos') →
  hole_inv lt heap' pos' ∧ length heap' ≤ 2 * pos' + 1
  ∧ length heap' = length heap ∧ pos' < length heap'.
Proof using lt_asym.
  revert heap pos. induction fuel as [|fuel IH]; intros heap pos Hlen Hinv; [done|].
  cbn [heapq._siftup_loop].
  destruct (decide (2 * pos + 1 < length heap)) as [Hleft|Hleft];
    [|intros [= <- <-]; split_and!; [done | lia | done | done]].
  destruct (lookup_lt_is_Some_2 heap (2 * pos + 1) Hleft) as [c Hc].
  assert (∃ childpos child,
    (if decide (2 * pos + 1 + 1 < length heap) then
       let* c := getitem heap (2 * pos + 1) in
       let* r := getitem heap (2 * pos + 1 + 1) in
       Ret (if negb (lt c r) then 2 * pos + 1 + 1 else 2 * pos + 1)
     else Ret (2 * pos + 1)) = Ret childpos
    ∧ 0 < childpos ∧ parentpos childpos = pos ∧ heap !! childpos = Some child
    ∧ below_children lt heap pos child) as (childpos & child & -> & Hcp & Hpar & Hchild & Hsmall).
  { destruct (decide _) as [Hright|Hright].
    - destruct (lookup_lt_is_Some_2 heap (2 * pos + 1 + 1) Hright) as [r Hr].
      rewrite (getitem_lookup _ _ _ Hc), (getitem_lookup _ _ _ Hr). cbn [bind].
      destruct (lt c r) eqn:Hlt; cbn [negb].
      + exists (2 * pos + 1), c. split_and!; [done | lia | | done |].
        { apply parentpos_children; lia. }
        intros i x Hi Hpar Hx. apply parentpos_children in Hpar as [-> | ->]; [| |done].
        * simplify_eq. apply lt_irrefl.
        * replace (2 * pos + 2) with (2 * pos + 1 + 1) in Hx by lia.
          simplify_eq. by apply lt_asym.
      + exists (2 * pos + 1 + 1), r. split_and!; [done | lia | | done |].
        { apply parentpos_children; lia. }
        intros i x Hi Hpar Hx. apply parentpos_children in Hpar as [-> | ->]; [| |done].
        * by simplify_eq.
        * replace (2 * pos + 2) with (2 * pos + 1 + 1) in Hx by lia.
          simplify_eq. apply lt_irrefl.
    - exists (2 * pos + 1), c. split_and!; [done | lia | | done |].
      { apply parentpos_children; lia. }
      intros i x Hi Hpar Hx. apply parentpos_children in Hpar as [-> | ->]; [| |done].
      + simplify_eq. apply lt_irrefl.
      + apply lookup_lt_Some in Hx. lia. }
  cbn [bind]. rewrite (getitem_lookup _ _ _ Hchild). cbn [bind].
  rewrite setitem_lt by done. cbn [bind].
  intros Hloop.
  rewrite <- (length_insert heap pos child) in Hloop.
  pose proof (parentpos_pos_lt childpos Hcp) as Hlt.
  apply IH in Hloop as (? & ? & Hlen' & ?).
  - rewrite length_insert in Hlen'. split_and!; done.
  - rewrite length_insert. by apply lookup_lt_Some in Hchild.
  - by apply (hole_down heap pos childpos child).
Qed.

Lemma _siftup_is_heap heap heap' :
  heap ≠ [] → hole_inv lt heap 0 →
  heapq._siftup lt heap 0 = Ret heap' → is_heap lt heap'.
Proof using lt_asym le_trans.
  intros Hne Hinv. unfold heapq._siftup, getitem.
  destruct (heap !! 0) as [newitem|] eqn:Hnew; [|done]. cbn [bind].
  destruct (heapq._siftup_loop lt (S (length heap)) heap (length heap) 0)
    as [[heap1 pos1]| |] eqn:Hloop; [|done..]. cbn [bind].
  apply _siftup_loop_hole in Hloop as (Hinv1 & Hleaf & Hlen & Hpos1);
    [|by eapply lookup_lt_Some | done].
  rewrite setitem_lt by done. cbn [bind].
  apply _siftdown_is_heap; [by apply hole_inv_insert | by rewrite length_insert].
Qed.

(** The root of a heap is a minimum of the heap. *)
Lemma is_heap_root_min heap root :
  is_heap lt heap → heap !! 0 = Some root →
  ∀ x, x ∈ heap → lt x root = false.
Proof using lt_asym le_trans.
  intros Hheap Hroot x [i Hx]%list_elem_of_lookup. revert x Hx.
  induction i as [i IH] using lt_wf_ind. intros x Hx.
  destruct (decide (i = 0)) as [->|Hi].
  { rewrite Hroot in Hx. injection Hx as <-. apply lt_irrefl. }
  assert (0 < i) as Hi' by lia. pose proof (parentpos_pos_lt i Hi') as Hlt.
  destruct (lookup_lt_is_Some_2 heap (parentpos i)) as [p Hp].
  { apply lookup_lt_Some in Hx. lia. }
  apply (le_trans root p x); [by apply (IH (parentpos i)) | by apply (Hheap i)].
Qed.

Theorem heappop_is_heap heap item heap' :
  is_heap lt heap → heapq.heappop lt heap = Ret (item, heap') →
  is_heap lt heap' ∧ ∀ x, x ∈ heap → lt x item = false.
Proof using lt_asym le_trans.
  intros Hheap. unfold heapq.heappop.
  destruct (decide (heap = [])) as [->|Hne]; [done|].
  destruct (list_pop_Ret heap Hne) as (lastelt & heap1 & -> & ->). cbn [bind].
  destruct heap1 as [|returnitem heap1].
  { intros [= <- <-]. split; [apply is_heap_nil|].
    intros x ->%list_elem_of_singleton. apply lt_irrefl. }
  change (getitem (returnitem :: heap1) 0) with (Ret returnitem).
  rewrite setitem_lt by (simpl; lia). cbn [bind].
  destruct (heapq._siftup lt (<[0:=lastelt]> (returnitem :: heap1)) 0)
    as [heap2| |] eqn:Hup; [|done..]. cbn [bind]. intros [= <- <-].
  split; [|by apply (is_heap_root_min _ _ Hheap)].
  apply _siftup_is_heap in Hup; [done | done |].
  apply hole_inv_insert, is_heap_hole_inv. by eapply is_heap_app.
Qed.
End HeapqOrder.

(** ** Trees *)

Lemma leaf_contents_merge_node node1 node2 :
  leaf_contents (merge_node node1 node2) = leaf_contents node1 ++ leaf_contents node2.
Proof. reflexivity. Qed.

(** ** [gen_huffman_tree]: one root, the whole heap consumed *)

Lemma gen_huffman_tree_loop_spec fuel heap :
  heap ≠ [] → length heap ≤ fuel →
  ∃ root, gen_huffman_tree_loop fuel heap = Ret [root]
          ∧ _freq root = sum_list_with _freq heap
          ∧ leaf_contents root ≡ₚ heap ≫= leaf_contents
          ∧ (2 ≤ length heap → is_leaf root = false)
          ∧ (length heap = 1 → heap = [root]).
Proof.
  revert heap. induction fuel as [|fuel IH]; intros heap Hne Hfuel.
  { destruct heap; simpl in *; [done | lia]. }
  cbn [gen_huffman_tree_loop].
  destruct (decide (2 ≤ length heap)) as [Hlen|Hlen]; last first.
  { destruct heap as [|root [|]]; simpl in *; [done | | lia].
    exists root. split_and!; [done | lia | by rewrite app_nil_r | lia | done]. }
  destruct (heappop_Permutation __lt__ heap Hne) as (node1 & heap1 & -> & Hperm1).
  cbn [bind].
  assert (length heap = S (length heap1)) as Hlen1 by (by rewrite <- Hperm1).
  destruct (heappop_Permutation __lt__ heap1) as (node2 & heap2 & -> & Hperm2).
  { intros ->. simpl in *. lia. }
  cbn [bind].
  assert (length heap1 = S (length heap2)) as Hlen2 by (by rewrite <- Hperm2).
  destruct (heappush_Permutation __lt__ heap2 (merge_node node1 node2))
    as (heap3 & -> & Hperm3).
  cbn [bind].
  assert (length heap3 = S (length heap2)) as Hlen3 by (by rewrite Hperm3).
  destruct (IH heap3) as (root & -> & Hfreq & Hleaves & Hinner & Hone).
  { intros ->. simpl in *. lia. }
  { lia. }
  exists root. split_and!; [done | | | | lia].
  - rewrite Hfreq, Hperm3, <- Hperm1, <- Hperm2. simpl. lia.
  - rewrite Hleaves, Hperm3, <- Hperm1, <- Hperm2. simpl.
    by rewrite <- !app_assoc.
  - intros _. destruct (decide (2 ≤ length heap3)) as [?|?]; [by apply Hinner|].
    assert (heap3 = [root]) as -> by (apply Hone; lia).
    apply Permutation_singleton_l in Hperm3. by injection Hperm3 as -> _.
Qed.

Lemma gen_huffman_tree_nil : gen_huffman_tree [] = Raise IndexError.
Proof. reflexivity. Qed.

Lemma gen_huffman_tree_spec heap :
  heap ≠ [] →
  ∃ root, gen_huffman_tree heap = Ret (root, [])
          ∧ _freq root = sum_list_with _freq heap
          ∧ leaf_contents root ≡ₚ heap ≫= leaf_contents
          ∧ (2 ≤ length heap → is_leaf root = false)
          ∧ (length heap = 1 → heap = [root]).
Proof.
  intros Hne. unfold gen_huffman_tree.
  destruct (gen_huffman_tree_loop_spec (S (length heap)) heap) as (root & -> & H);
    [done | lia |].
  exists root. split; [done | exact H].
Qed.

Lemma is_leaf_Node f l r c :
  is_leaf (Node f l r c) = match l, r with None, None => true | _, _ => false end.
Proof. reflexivity. Qed.

Lemma byte_eqb_true c k : Byte.eqb c k = true ↔ c = k.
Proof. split; [apply Byte.byte_dec_bl | apply Byte.byte_dec_lb]. Qed.

Lemma content_eq_true val content : content_eq val content = true ↔ content = Some val.
Proof.
  destruct content as [c|]; simpl; [|done].
  rewrite byte_eqb_true. split; [by intros -> | by intros [= ->]].
Qed.

Lemma leaf_contents_leaf t : is_leaf t = true → leaf_contents t = [_content t].
Proof. by destruct t as [f [?|] [?|] c]. Qed.

Lemma leaf_contents_inner t :
  is_leaf t = false →
  leaf_contents t =
    match get_child t side_l with Some lt => leaf_contents lt | None => [] end ++
    match get_child t side_r with Some rt => leaf_contents rt | None => [] end.
Proof. by destruct t as [f [?|] [?|] c]. Qed.

(** ** [get_huffman_code] *)

Lemma get_huffman_code_leaf val t :
  is_leaf t = true → get_huffman_code val t = (content_eq val (_content t), []).
Proof. destruct t as [f [?|] [?|] c]; simpl; done. Qed.

Lemma get_huffman_code_inner val t :
  is_leaf t = false →
  get_huffman_code val t =
    let left := code_in_child val (get_child t side_l) "0" in
    if left.1 then left else code_in_child val (get_child t side_r) "1".
Proof.
  destruct t as [f [lt|] [rt|] c]; simpl; try done; intros _.
  - by destruct (get_huffman_code val lt) as [[|] ?].
  - by destruct (get_huffman_code val lt) as [[|] ?].
Qed.

Lemma code_in_child_true val child bit code :
  code_in_child val child bit = (true, code) ↔
  ∃ t code', child = Some t ∧ get_huffman_code val t = (true, code')
             ∧ code = bit :: code'.
Proof.
  unfold code_in_child. destruct child as [t|].
  - destruct (get_huffman_code val t) as [[|] code'] eqn:Ht; split.
    + intros [= <-]. eauto.
    + intros (t' & code'' & [= <-] & Ht' & ->). congruence.
    + done.
    + intros (t' & code'' & [= <-] & Ht' & ->). congruence.
  - split; [done | by intros (? & ? & ? & _)].
Qed.

Lemma code_in_child_false val child bit b code :
  code_in_child val child bit = (b, code) → b = false → code = [].
Proof.
  unfold code_in_child. destruct child as [t|]; [|by intros [= _ <-]].
  destruct (get_huffman_code val t) as [[|] code']; intros [= <- <-]; done.
Qed.

(** The three ways [get_huffman_code] answers [True]. *)
Lemma get_huffman_code_true val t code :
  get_huffman_code val t = (true, code) →
  (is_leaf t = true ∧ _content t = Some val ∧ code = []) ∨
  (is_leaf t = false ∧ ∃ child code',
     get_child t side_l = Some child
     ∧ get_huffman_code val child = (true, code') ∧ code = "0"%byte :: code') ∨
  (is_leaf t = false ∧ ∃ child code',
     get_child t side_r = Some child
     ∧ get_huffman_code val child = (true, code') ∧ code = "1"%byte :: code').
Proof.
  destruct (is_leaf t) eqn:Hleaf.
  - rewrite get_huffman_code_leaf by done. intros [= Hc <-]. left.
    by rewrite content_eq_true in Hc.
  - rewrite get_huffman_code_inner by done. cbn zeta.
    destruct (code_in_child val (get_child t side_l) "0") as [[|] codel] eqn:Hl;
      cbn [fst]; intros H.
    + injection H as <-. apply code_in_child_true in Hl as (child & code' & ? & ? & ?).
      right; left. eauto 10.
    + apply code_in_child_true in H as (child & code' & ? & ? & ?).
      right; right. eauto 10.
Qed.

Lemma get_huffman_code_bits val t b code :
  get_huffman_code val t = (b, code) → Forall is_bit code.
Proof.
  revert b code. induction t as [f l r c IHl IHr] using HuffmanNode_ind.
  intros b code. destruct (is_leaf (Node f l r c)) eqn:Hleaf.
  - rewrite get_huffman_code_leaf by done. by intros [= _ <-].
  - rewrite get_huffman_code_inner by done. cbn [get_child].
    assert (∀ child bit b code,
      (∀ t, child = Some t → ∀ b code, get_huffman_code val t = (b, code) → Forall is_bit code) →
      is_bit bit → code_in_child val child bit = (b, code) → Forall is_bit code) as Hchild.
    { intros child bit b' code' IH Hbit. unfold code_in_child.
      destruct child as [t|]; [|by intros [= _ <-]].
      destruct (get_huffman_code val t) as [[|] code''] eqn:Ht; [|by intros [= _ <-]].
      intros [= _ <-]. constructor; [done | by eapply IH]. }
    cbn zeta. destruct (code_in_child val l "0") as [[|] codel] eqn:Hl; cbn [fst].
    + intros [= _ <-]. eapply (Hchild l); [exact IHl | by left | done].
    + intros Hr. eapply (Hchild r); [exact IHr | by right | done].
Qed.

(** A symbol that sits at a leaf is found. *)
Lemma get_huffman_code_found val t :
  Some val ∈ leaf_contents t → (get_huffman_code val t).1 = true.
Proof.
  induction t as [f l r c IHl IHr] using HuffmanNode_ind.
  destruct (is_leaf (Node f l r c)) eqn:Hleaf.
  - rewrite get_huffman_code_leaf, leaf_contents_leaf by done.
    rewrite list_elem_of_singleton. intros <-. simpl. by apply byte_eqb_true.
  - rewrite get_huffman_code_inner, leaf_contents_inner by done.
    cbn [get_child]. cbn zeta.
    assert (∀ child bit,
      (∀ t, child = Some t → Some val ∈ leaf_contents t → (get_huffman_code val t).1 = true) →
      Some val ∈ match child with Some t => leaf_contents t | None => [] end →
      (code_in_child val child bit).1 = true) as Hchild.
    { intros [t|] bit IH Hin; [|by apply elem_of_nil in Hin].
      specialize (IH t eq_refl Hin). unfold code_in_child.
      by destruct (get_huffman_code val t) as [[|] ?]. }
    intros [Hl|Hr]%elem_of_app.
    + pose proof (Hchild l "0"%byte IHl Hl) as Hfound.
      by destruct (code_in_child val l "0") as [[|] ?].
    + destruct (code_in_child val l "0") as [[|] ?]; [done|].
      by apply (Hchild r "1"%byte IHr Hr).
Qed.

Lemma get_huffman_code_inner_nonempty val t code :
  is_leaf t = false → get_huffman_code val t = (true, code) → code ≠ [].
Proof.
  intros Hleaf H. apply get_huffman_code_true in H
    as [(? & _)|[(_ & ? & ? & _ & _ & ->)|(_ & ? & ? & _ & _ & ->)]]; [congruence | done..].
Qed.

(** ** [get_next_val] *)

Lemma get_next_val_nil t : get_next_val t [] = Ret ([], None).
Proof. by destruct t. Qed.

Lemma get_next_val_leaf t line file :
  is_leaf t = true → get_next_val t (line :: file) = Ret (line :: file, _content t).
Proof. by destruct t as [f [?|] [?|] c]. Qed.

Lemma get_next_val_skip t file :
  is_leaf t = false → get_next_val t ([] :: file) = get_next_val t file.
Proof. by destruct t as [f [?|] [?|] c]. Qed.

Lemma get_next_val_bit t b line file :
  is_leaf t = false →
  get_next_val t ((b :: line) :: file) =
    if (bit_of b =? 0)%Z then
      get_next_val_child (get_child t side_l) (line :: map (drop 1) file)
    else if (bit_of b =? 1)%Z then
      get_next_val_child (get_child t side_r) (line :: map (drop 1) file)
    else Raise ValueError.
Proof. by destruct t as [f [?|] [?|] c]. Qed.

(** Reading the code of [val] in front of a one-line stream gives [val]
    and leaves the rest of the line. *)
Lemma get_next_val_code val t code rest :
  get_huffman_code val t = (true, code) →
  get_next_val t [code ++ rest] = Ret ([rest], Some val).
Proof.
  revert code. induction t as [f l r c IHl IHr] using HuffmanNode_ind.
  intros code Hcode.
  apply get_huffman_code_true in Hcode
    as [(Hleaf & Hc & ->)
       |[(Hleaf & child & code' & Hchild & Hcode & ->)
        |(Hleaf & child & code' & Hchild & Hcode & ->)]].
  - rewrite get_next_val_leaf by done. by rewrite Hc.
  - simpl app. rewrite get_next_val_bit by done. rewrite Hchild.
    change (bit_of "0" =? 0)%Z with true. cbn [map get_next_val_child].
    by apply IHl.
  - simpl app. rewrite get_next_val_bit by done. rewrite Hchild.
    change (bit_of "1" =? 0)%Z with false. change (bit_of "1" =? 1)%Z with true.
    cbn [map get_next_val_child]. by apply IHr.
Qed.

(** A stream that ends inside a code: the walk stops at an inner node and
    [get_next_val] answers as it does at the end of the stream. *)
Lemma get_next_val_truncated val t code b :
  get_huffman_code val t = (true, code ++ [b]) →
  get_next_val t [code] = Ret ([], None).
Proof.
  revert code. induction t as [f l r c IHl IHr] using HuffmanNode_ind.
  intros code Hcode.
  apply get_huffman_code_true in Hcode
    as [(Hleaf & Hc & Hnil)
       |[(Hleaf & child & code' & Hchild & Hcode & Heq)
        |(Hleaf & child & code' & Hchild & Hcode & Heq)]].
  - by destruct code.
  - destruct code as [|b' code].
    { rewrite get_next_val_skip by done. apply get_next_val_nil. }
    injection Heq as -> <-.
    rewrite get_next_val_bit by done. rewrite Hchild.
    change (bit_of "0" =? 0)%Z with true. cbn [map get_next_val_child].
    by apply IHl.
  - destruct code as [|b' code].
    { rewrite get_next_val_skip by done. apply get_next_val_nil. }
    injection Heq as -> <-.
    rewrite get_next_val_bit by done. rewrite Hchild.
    change (bit_of "1" =? 0)%Z with false. change (bit_of "1" =? 1)%Z with true.
    cbn [map get_next_val_child]. by apply IHr.
Qed.

(** ** [compress_file] *)

Lemma contained_code_of t char :
  contained t char → get_huffman_code char t = (true, code_of t char).
Proof.
  unfold contained, code_of.
  destruct (get_huffman_code char t) as [contain code]. simpl. by intros ->.
Qed.

Lemma compress_char_contained t acc char :
  contained t char → compress_char t acc char = Ret (acc ++ code_of t char).
Proof.
  unfold contained, compress_char, code_of.
  destruct (get_huffman_code char t) as [contain code]. simpl. by intros ->.
Qed.

Lemma compress_line_spec t line acc :
  Forall (contained t) line →
  foldM (compress_char t) line acc = Ret (acc ++ (line ≫= code_of t)).
Proof.
  revert acc. induction line as [|char line IH]; intros acc Hline; simpl.
  { by rewrite app_nil_r. }
  apply Forall_cons in Hline as [Hchar Hline].
  rewrite compress_char_contained by done. simpl.
  rewrite IH by done. by rewrite <- app_assoc.
Qed.

Lemma compress_file_spec t file :
  Forall (contained t) (mjoin file) →
  compress_file file t = Ret (mjoin file ≫= code_of t).
Proof.
  unfold compress_file. intros Hfile.
  change (mjoin file ≫= code_of t) with ([] ++ (mjoin file ≫= code_of t)).
  generalize (@nil byte) as acc. revert Hfile.
  induction file as [|line file IH]; intros Hfile acc; simpl.
  { by rewrite app_nil_r. }
  apply Forall_app in Hfile as [Hline Hfile].
  rewrite compress_line_spec by done. simpl.
  rewrite IH by done. by rewrite bind_app, <- app_assoc.
Qed.

Lemma codes_bits t data : Forall is_bit (data ≫= code_of t).
Proof.
  induction data as [|char data IH]; simpl; [done|].
  apply Forall_app. split; [|done]. unfold code_of.
  destruct (get_huffman_code char t) as [b code] eqn:H.
  by eapply get_huffman_code_bits.
Qed.

(** ** [readlines] *)

Lemma readlines_join data : mjoin (readlines data) = data.
Proof.
  induction data as [|c data IH]; simpl; [done|].
  destruct (Byte.eqb c "010"); simpl; [by rewrite IH|].
  destruct (readlines data) as [|line lines]; simpl in *; by rewrite <- IH.
Qed.

Lemma readlines_bits data :
  Forall is_bit data → data ≠ [] → readlines data = [data].
Proof.
  induction 1 as [|c data Hc Hdata IH]; intros Hne; [done|]. simpl.
  assert (Byte.eqb c "010" = false) as -> by (by destruct Hc as [-> | ->]).
  destruct data as [|c' data]; [done|]. by rewrite IH.
Qed.

(** ** The decoding loop *)

Lemma decompress_codes t data :
  is_leaf t = false → Forall (contained t) data →
  decompress (S (length data)) [data ≫= code_of t] t = Ret data.
Proof.
  intros Hleaf. induction data as [|char data IH]; intros Hdata.
  { simpl. rewrite get_next_val_skip, get_next_val_nil by done. done. }
  apply Forall_cons in Hdata as [Hchar Hdata].
  apply contained_code_of in Hchar.
  change (decompress (S (length (char :: data))) [(char :: data) ≫= code_of t] t)
    with (let* (lines, val) :=
            get_next_val t [code_of t char ++ (data ≫= code_of t)] in
          match val with
          | None => Ret []
          | Some val =>
              let* rest := decompress (S (length data)) lines t in Ret (val :: rest)
          end).
  rewrite (get_next_val_code char t _ _ Hchar). cbn [bind].
  by rewrite IH.
Qed.

Lemma decode_codes t data :
  is_leaf t = false → Forall (contained t) data →
  decode (S (length data)) t (data ≫= code_of t) = Ret data.
Proof.
  intros Hleaf Hdata. unfold decode.
  destruct data as [|char data]; [simpl; by rewrite get_next_val_nil|].
  rewrite readlines_bits; [by apply decompress_codes | apply codes_bits |].
  apply Forall_cons in Hdata as [Hchar _]. apply contained_code_of in Hchar.
  apply get_huffman_code_inner_nonempty in Hchar; [|done].
  simpl. by destruct (code_of t char).
Qed.

(** ** [character_counts]: the dict of [get_quantitative_heap] *)

Lemma character_counts_join file :
  character_counts file = fold_left count_char (mjoin file) [].
Proof.
  unfold character_counts. generalize (@nil (byte * nat)) as counts.
  induction file as [|line file IH]; intros counts; simpl; [done|].
  by rewrite IH, fold_left_app.
Qed.

Lemma count_char_keys counts char :
  (count_char counts char).*1 =
    if decide (char ∈ counts.*1) then counts.*1 else counts.*1 ++ [char].
Proof.
  induction counts as [|[k n] counts IH]; [done|].
  cbn [count_char fmap list_fmap fst].
  destruct (Byte.eqb char k) eqn:Heq.
  - apply byte_eqb_true in Heq as ->. rewrite decide_True; [done | left].
  - apply Byte.eqb_false in Heq. rewrite fmap_cons, IH. cbn [fst].
    destruct (decide (char ∈ counts.*1)) as [Hin|Hin].
    + rewrite decide_True; [done | by right].
    + rewrite decide_False; [done|]. rewrite elem_of_cons. tauto.
Qed.

Lemma count_char_weighted_sum w counts char :
  weighted_sum w (count_char counts char) = weighted_sum w counts + w char.
Proof.
  unfold weighted_sum. induction counts as [|[k n] counts IH]; simpl; [lia|].
  destruct (Byte.eqb char k) eqn:Heq; simpl.
  - apply byte_eqb_true in Heq as ->. lia.
  - rewrite IH. lia.
Qed.

Lemma fold_count_char_keys data counts :
  NoDup counts.*1 →
  NoDup (fold_left count_char data counts).*1
  ∧ ∀ char, char ∈ (fold_left count_char data counts).*1
            ↔ char ∈ counts.*1 ∨ char ∈ data.
Proof.
  revert counts. induction data as [|c data IH]; intros counts Hnodup; simpl.
  { split; [done|]. intros char. rewrite elem_of_nil. tauto. }
  destruct (IH (count_char counts c)) as [Hnd Hin].
  { rewrite count_char_keys. case_decide; [done|].
    apply NoDup_app. split_and!; [done | | apply NoDup_singleton].
    intros x Hx ->%list_elem_of_singleton. done. }
  split; [done|]. intros char. rewrite Hin, count_char_keys, elem_of_cons.
  case_decide as Hc.
  - split; [tauto|]. intros [?|[->|?]]; tauto.
  - rewrite elem_of_app, list_elem_of_singleton. tauto.
Qed.

Lemma fold_count_char_weighted_sum w data counts :
  weighted_sum w (fold_left count_char data counts)
  = weighted_sum w counts + sum_list_with w data.
Proof.
  revert counts. induction data as [|c data IH]; intros counts; simpl; [lia|].
  rewrite IH, count_char_weighted_sum. lia.
Qed.

Lemma character_counts_NoDup data : NoDup (character_counts (readlines data)).*1.
Proof.
  rewrite character_counts_join, readlines_join.
  apply fold_count_char_keys. constructor.
Qed.

Lemma character_counts_elem_of data char :
  char ∈ (character_counts (readlines data)).*1 ↔ char ∈ data.
Proof.
  rewrite character_counts_join, readlines_join.
  destruct (fold_count_char_keys data []) as [_ ->]; [constructor|].
  simpl. rewrite elem_of_nil. tauto.
Qed.

Lemma character_counts_weighted_sum w data :
  weighted_sum w (character_counts (readlines data)) = sum_list_with w data.
Proof.
  rewrite character_counts_join, readlines_join.
  by rewrite fold_count_char_weighted_sum.
Qed.

(** The counts of the table add up to the length of the input. *)
Lemma character_counts_total data :
  sum_list_with snd (character_counts (readlines data)) = length data.
Proof.
  transitivity (weighted_sum (λ _, 1) (character_counts (readlines data))).
  { unfold weighted_sum.
    induction (character_counts (readlines data)) as [|[c n] counts IH]; simpl; lia. }
  rewrite character_counts_weighted_sum. induction data; simpl; lia.
Qed.

(** Two distinct bytes of the input make two entries of the table. *)
Lemma character_counts_two data a b :
  a ∈ data → b ∈ data → a ≠ b → 2 ≤ length (character_counts (readlines data)).
Proof.
  intros Ha%character_counts_elem_of Hb%character_counts_elem_of Hab.
  rewrite <- (length_fmap fst).
  destruct ((character_counts (readlines data)).*1) as [|x [|y keys]]; simpl; [| |lia].
  - by apply elem_of_nil in Ha.
  - apply list_elem_of_singleton in Ha, Hb. congruence.
Qed.

Lemma character_counts_nonempty data :
  data ≠ [] → character_counts (readlines data) ≠ [].
Proof.
  destruct data as [|c data]; [done|]. intros _ Hnil.
  assert (c ∈ (character_counts (readlines (c :: data))).*1) as Hc
    by (apply character_counts_elem_of; left).
  rewrite Hnil in Hc. by apply elem_of_nil in Hc.
Qed.

(** ** [get_quantitative_heap] *)

Lemma __lt___asym x y : __lt__ x y = true → __lt__ y x = false.
Proof. unfold __lt__. rewrite Nat.ltb_lt, Nat.ltb_ge. lia. Qed.

Lemma __lt___le_trans x y z :
  __lt__ y x = false → __lt__ z y = false → __lt__ z x = false.
Proof. unfold __lt__. rewrite !Nat.ltb_ge. lia. Qed.

Lemma __lt___false x y : __lt__ x y = false ↔ _freq y ≤ _freq x.
Proof. unfold __lt__. apply Nat.ltb_ge. Qed.

Lemma counts_heap_spec counts :
  ∃ heap, counts_heap counts = Ret heap
          ∧ heap ≡ₚ leaf_of_count <$> counts
          ∧ is_heap __lt__ heap.
Proof.
  unfold counts_heap.
  rewrite <- (app_nil_r (leaf_of_count <$> counts)).
  pose proof (is_heap_nil __lt__) as Hacc. revert Hacc.
  generalize (@nil HuffmanNode) as acc.
  induction counts as [|[char n] counts IH]; intros acc Hacc; simpl.
  { by exists acc. }
  destruct (heappush_Permutation __lt__ acc (leaf_node n char)) as (acc' & Hpush & Hperm).
  rewrite Hpush. simpl. destruct (IH acc') as (heap & -> & Hheap & Hord).
  { eapply heappush_is_heap; [apply __lt___asym | apply __lt___le_trans | done..]. }
  exists heap. split_and!; [done | | done]. rewrite Hheap, Hperm.
  change (leaf_of_count (char, n)) with (leaf_node n char).
  by rewrite Permutation_middle.
Qed.

Lemma get_quantitative_heap_spec file :
  ∃ heap, get_quantitative_heap file = Ret heap
          ∧ heap ≡ₚ leaf_of_count <$> character_counts file.
Proof.
  destruct (counts_heap_spec (character_counts file)) as (heap & ? & ? & _).
  by exists heap.
Qed.

Lemma leaf_of_count_freq counts :
  sum_list_with _freq (leaf_of_count <$> counts) = sum_list_with snd counts.
Proof. induction counts as [|[c n] counts IH]; csimpl; [done | by rewrite IH]. Qed.

Lemma leaf_of_count_contents counts :
  (leaf_of_count <$> counts) ≫= leaf_contents = Some <$> counts.*1.
Proof. induction counts as [|[c n] counts IH]; csimpl; [done | by rewrite IH]. Qed.

(** ** [build_tree]: lines 143-149 of [main] *)

Lemma build_tree_nil : build_tree [] = Raise IndexError.
Proof. reflexivity. Qed.

Lemma build_tree_spec data :
  data ≠ [] →
  ∃ heap tree,
    get_quantitative_heap (readlines data) = Ret heap
    ∧ gen_huffman_tree heap = Ret (tree, [])
    ∧ build_tree data = Ret tree
    ∧ _freq tree = length data
    ∧ (∀ char, char ∈ data → contained tree char)
    ∧ (2 ≤ length (character_counts (readlines data)) → is_leaf tree = false)
    ∧ (length (character_counts (readlines data)) = 1 →
       ∃ char, tree = leaf_node (length data) char).
Proof.
  intros Hne. unfold build_tree.
  destruct (get_quantitative_heap_spec (readlines data)) as (heap & Hheap & Hperm).
  assert (length heap = length (character_counts (readlines data))) as Hlen
    by (by rewrite Hperm, length_fmap).
  destruct (gen_huffman_tree_spec heap) as (tree & Htree & Hfreq & Hleaves & Hinner & Hone).
  { intros ->. by apply (character_counts_nonempty data Hne), nil_length_inv. }
  exists heap, tree. rewrite Hheap. cbn [bind]. rewrite Htree. cbn [bind].
  assert (_freq tree = length data) as Hfreq'.
  { by rewrite Hfreq, Hperm, leaf_of_count_freq, character_counts_total. }
  split_and!; [done | done | done | done | | |].
  - intros char Hchar. apply get_huffman_code_found.
    rewrite Hleaves, Hperm, leaf_of_count_contents.
    by apply list_elem_of_fmap_2, character_counts_elem_of.
  - rewrite <- Hlen. apply Hinner.
  - intros Hlen1. rewrite <- Hlen in Hlen1. specialize (Hone Hlen1). subst heap.
    destruct (character_counts (readlines data)) as [|[char n] [|]] eqn:Hcounts;
      try done.
    apply Permutation_singleton_l in Hperm. injection Hperm as ->.
    exists char. unfold leaf_of_count. simpl in *. by rewrite <- Hfreq'.
Qed.

(** ** More fuel does not change the answer of the decoding loop *)

Lemma decompress_fuel_mono fuel fuel' lines t out :
  decompress fuel lines t = Ret out → fuel ≤ fuel' →
  decompress fuel' lines t = Ret out.
Proof.
  revert fuel' lines out. induction fuel as [|fuel IH]; intros fuel' lines out; [done|].
  destruct fuel' as [|fuel']; [lia|]. cbn [decompress].
  destruct (get_next_val t lines) as [[lines' [val|]]| |]; cbn [bind]; try done.
  destruct (decompress fuel lines' t) as [rest| |] eqn:Hrest; cbn [bind]; try done.
  intros [= <-] Hle. by rewrite (IH fuel' lines' rest Hrest) by lia.
Qed.

(** ** [encode] and [decode]: lines 143-152 and 165-174 of [main] *)

Lemma encode_spec data tree :
  build_tree data = Ret tree →
  Forall (contained tree) data
  ∧ compress_file (readlines data) tree = Ret (data ≫= code_of tree)
  ∧ encode data = Ret (tree, data ≫= code_of tree).
Proof.
  intros Htree.
  assert (data ≠ []) as Hne by (intros ->; by rewrite build_tree_nil in Htree).
  destruct (build_tree_spec data Hne) as (_ & tree' & _ & _ & Htree' & _ & Hcont & _).
  assert (tree' = tree) as -> by congruence.
  assert (Forall (contained tree) data) as Hall by (by apply Forall_forall).
  assert (compress_file (readlines data) tree = Ret (data ≫= code_of tree)) as Hcomp.
  { rewrite compress_file_spec; rewrite readlines_join; done. }
  split_and!; [done | done |]. unfold encode. rewrite Htree. cbn [bind].
  by rewrite Hcomp.
Qed.

(** X22 (round trip of the pipeline). For every file with at least two
    distinct bytes, the tree is built, the file is compressed, and the
    decoding loop of [main], run on the compressed stream with that tree,
    returns the bytes of the file, as soon as it is given more turns than
    the file has bytes. *)
Theorem roundtrip_two_symbols data a b :
  a ∈ data → b ∈ data → a ≠ b →
  ∃ tree payload,
    encode data = Ret (tree, payload)
    ∧ ∀ fuel, length data < fuel → decode fuel tree payload = Ret data.
Proof.
  intros Ha Hb Hab.
  assert (data ≠ []) as Hne by (intros ->; by apply elem_of_nil in Ha).
  destruct (build_tree_spec data Hne) as (_ & tree & _ & _ & Htree & _ & _ & Hinner & _).
  destruct (encode_spec data tree Htree) as (Hall & _ & Henc).
  exists tree, (data ≫= code_of tree). split; [done|].
  intros fuel Hfuel. apply (decompress_fuel_mono (S (length data))); [|lia].
  apply decode_codes; [|done]. apply Hinner. by apply (character_counts_two data a b).
Qed.

(** An input that repeats one byte: one entry in the table, a tree that is
    a single leaf. *)
Lemma character_counts_single data char :
  data ≠ [] → (∀ x, x ∈ data → x = char) →
  length (character_counts (readlines data)) = 1.
Proof.
  intros Hne Hall. rewrite <- (length_fmap fst).
  pose proof (character_counts_NoDup data) as Hnd.
  pose proof (character_counts_nonempty data Hne) as Hne'.
  assert (∀ x, x ∈ (character_counts (readlines data)).*1 → x = char) as Hkeys.
  { intros x Hx. by apply Hall, character_counts_elem_of. }
  destruct ((character_counts (readlines data))) as [|[k n] [|[k' n'] counts]];
    [done | done |]. exfalso.
  rewrite !fmap_cons in *. cbn [fst] in *.
  apply NoDup_cons in Hnd as [Hk _]. apply Hk.
  rewrite (Hkeys k), (Hkeys k'); [left | right; left | left].
Qed.

Lemma build_tree_single data char :
  data ≠ [] → (∀ x, x ∈ data → x = char) →
  build_tree data = Ret (leaf_node (length data) char).
Proof.
  intros Hne Hall.
  destruct (build_tree_spec data Hne) as (_ & tree & _ & _ & Htree & _ & Hcont & _ & Hone).
  destruct Hone as [c ->]; [by eapply character_counts_single|].
  rewrite Htree. do 2 f_equal.
  destruct data as [|x data]; [done|].
  assert (x = char) as -> by (apply Hall; left).
  specialize (Hcont char). unfold contained in Hcont. simpl in Hcont.
  symmetry. apply byte_eqb_true, Hcont. left.
Qed.

Lemma codes_leaf f c data : data ≫= code_of (leaf_node f c) = [].
Proof. induction data as [|x data IH]; [done|]. by rewrite bind_cons, IH. Qed.


(** ** A stream cut inside the last code *)

Lemma decompress_truncated t data char code b :
  is_leaf t = false → Forall (contained t) data →
  get_huffman_code char t = (true, code ++ [b]) →
  decompress (S (length data)) [(data ≫= code_of t) ++ code] t = Ret data.
Proof.
  intros Hleaf Hdata Hchar. induction Hdata as [|c data Hc Hdata IH].
  { simpl. by rewrite (get_next_val_truncated char t code b Hchar). }
  apply contained_code_of in Hc.
  change (decompress (S (length (c :: data))) [((c :: data) ≫= code_of t) ++ code] t)
    with (let* (lines, val) :=
            get_next_val t [(code_of t c ++ (data ≫= code_of t)) ++ code] in
          match val with
          | None => Ret []
          | Some val =>
              let* rest := decompress (S (length data)) lines t in Ret (val :: rest)
          end).
  rewrite <- app_assoc, (get_next_val_code c t _ _ Hc). cbn [bind].
  by rewrite IH.
Qed.

(** ** The loop of [gen_huffman_tree] as a step relation *)

Lemma gen_huffman_tree_loop_step fuel heap :
  2 ≤ length heap →
  gen_huffman_tree_loop (S fuel) heap =
    let* heap := merge_step heap in gen_huffman_tree_loop fuel heap.
Proof.
  intros Hlen. cbn [gen_huffman_tree_loop]. rewrite decide_True by done.
  unfold merge_step.
  destruct (heapq.heappop __lt__ heap) as [[node1 heap1]| |]; cbn [bind]; [|done..].
  destruct (heapq.heappop __lt__ heap1) as [[node2 heap2]| |]; cbn [bind]; done.
Qed.

Lemma merge_step_spec heap :
  is_heap __lt__ heap → 2 ≤ length heap →
  ∃ node1 heap1 node2 heap2 heap3,
    heapq.heappop __lt__ heap = Ret (node1, heap1)
    ∧ (∀ x, x ∈ heap → _freq node1 ≤ _freq x)
    ∧ heapq.heappop __lt__ heap1 = Ret (node2, heap2)
    ∧ (∀ x, x ∈ heap1 → _freq node2 ≤ _freq x)
    ∧ heapq.heappush __lt__ heap2
        (Node (_freq node1 + _freq node2) (Some node1) (Some node2) None) = Ret heap3
    ∧ merge_step heap = Ret heap3
    ∧ is_heap __lt__ heap3.
Proof.
  intros Hheap Hlen. unfold merge_step.
  destruct (heappop_Permutation __lt__ heap) as (node1 & heap1 & Hpop1 & Hperm1).
  { intros ->. simpl in Hlen. lia. }
  destruct (heappop_is_heap __lt__ __lt___asym __lt___le_trans _ _ _ Hheap Hpop1)
    as [Hheap1 Hmin1].
  destruct (heappop_Permutation __lt__ heap1) as (node2 & heap2 & Hpop2 & Hperm2).
  { intros ->. rewrite <- Hperm1 in Hlen. simpl in Hlen. lia. }
  destruct (heappop_is_heap __lt__ __lt___asym __lt___le_trans _ _ _ Hheap1 Hpop2)
    as [Hheap2 Hmin2].
  destruct (heappush_Permutation __lt__ heap2 (merge_node node1 node2))
    as (heap3 & Hpush & _).
  exists node1, heap1, node2, heap2, heap3.
  rewrite Hpop1. cbn [bind]. rewrite Hpop2. cbn [bind].
  split_and!; [done | | done | | done | done |].
  - intros x Hx. by apply __lt___false, Hmin1.
  - intros x Hx. by apply __lt___false, Hmin2.
  - eapply (heappush_is_heap __lt__ __lt___asym __lt___le_trans);
      [exact Hheap2 | exact Hpush].
Qed.

Lemma reachable_is_heap heap0 heap :
  is_heap __lt__ heap0 → reachable heap0 heap → is_heap __lt__ heap.
Proof.
  intros Hheap0. induction 1 as [|heap heap' _ IH Hlen Hstep]; [done|].
  destruct (merge_step_spec heap IH Hlen)
    as (? & ? & ? & ? & heap3 & _ & _ & _ & _ & _ & Hstep' & ?).
  rewrite Hstep in Hstep'. by injection Hstep' as ->.
Qed.

Lemma reachable_step_first heap heap' h :
  2 ≤ length heap → merge_step heap = Ret heap' →
  reachable heap' h → reachable heap h.
Proof.
  intros Hlen Hstep. induction 1 as [|h h' _ IH Hlen' Hstep'].
  - by apply (reachable_step heap heap heap'); [constructor | |].
  - by apply (reachable_step heap h h').
Qed.

Lemma gen_huffman_tree_loop_reachable fuel heap heap' :
  gen_huffman_tree_loop fuel heap = Ret heap' → reachable heap heap'.
Proof.
  revert heap. induction fuel as [|fuel IH]; intros heap; [done|].
  destruct (decide (2 ≤ length heap)) as [Hlen|Hlen].
  - rewrite gen_huffman_tree_loop_step by done.
    destruct (merge_step heap) as [heap1| |] eqn:Hstep; cbn [bind]; [|done..].
    intros Hloop%IH. by apply (reachable_step_first heap heap1).
  - cbn [gen_huffman_tree_loop]. rewrite decide_False by done.
    intros [= <-]. constructor.
Qed.

(** ** Codes are paths to distinct leaves *)

Lemma get_huffman_code_prefix_free t a b code_a code_b :
  a ≠ b →
  get_huffman_code a t = (true, code_a) → get_huffman_code b t = (true, code_b) →
  ¬ code_a `prefix_of` code_b.
Proof.
  intros Hab. revert code_a code_b.
  induction t as [f l r c IHl IHr] using HuffmanNode_ind.
  intros code_a code_b Ha Hb.
  apply get_huffman_code_true in Ha
    as [(Hleaf & Hc & ->)
       |[(Hleaf & child & ca & Hchild & Ha & ->)
        |(Hleaf & child & ca & Hchild & Ha & ->)]];
  apply get_huffman_code_true in Hb
    as [(Hleaf' & Hc' & ->)
       |[(Hleaf' & child' & cb & Hchild' & Hb & ->)
        |(Hleaf' & child' & cb & Hchild' & Hb & ->)]];
  try congruence.
  - rewrite Hchild in Hchild'. injection Hchild' as <-.
    intros Hpre%prefix_cons_inv_2. by apply (IHl child Hchild ca cb).
  - by intros Hpre%prefix_cons_inv_1.
  - by intros Hpre%prefix_cons_inv_1.
  - rewrite Hchild in Hchild'. injection Hchild' as <-.
    intros Hpre%prefix_cons_inv_2. by apply (IHr child Hchild ca cb).
Qed.

(** ** [heapq] looks at the items through [<] only *)

Section HeapqMap.
Context {A B : Type} (ltA : A → A → bool) (ltB : B → B → bool) (g : A → B).
Hypothesis lt_map : ∀ x y, ltB (g x) (g y) = ltA x y.

Lemma getitem_fmap (l : list A) i : getitem (g <$> l) i = res_map g (getitem l i).
Proof. unfold getitem. rewrite list_lookup_fmap. by destruct (l !! i). Qed.

Lemma setitem_fmap (l : list A) i x :
  setitem (g <$> l) i (g x) = res_map (fmap g) (setitem l i x).
Proof.
  unfold setitem. rewrite length_fmap.
  destruct (decide (i < length l)); [|done]. simpl. by rewrite list_fmap_insert.
Qed.

Lemma removelast_fmap (l : list A) : removelast (g <$> l) = g <$> removelast l.
Proof.
  induction l as [|x [|y l] IH]; [done..|].
  change (g x :: removelast (g <$> y :: l) = g x :: (g <$> removelast (y :: l))).
  by rewrite IH.
Qed.

Lemma list_pop_fmap (l : list A) :
  list_pop (g <$> l) = res_map (prod_map g (fmap g)) (list_pop l).
Proof.
  unfold list_pop. rewrite fmap_last, removelast_fmap. by destruct (last l).
Qed.

Lemma _siftdown_loop_fmap fuel (heap : list A) newitem startpos pos :
  heapq._siftdown_loop ltB fuel (g <$> heap) (g newitem) startpos pos
  = res_map (fmap g) (heapq._siftdown_loop ltA fuel heap newitem startpos pos).
Proof using lt_map.
  revert heap pos. induction fuel as [|fuel IH]; intros heap pos; [done|].
  cbn [heapq._siftdown_loop].
  destruct (decide (startpos < pos)); [|apply setitem_fmap].
  rewrite getitem_fmap. destruct (getitem heap ((pos - 1) / 2)) as [parent| |];
    [|done..].
  cbn [res_map bind]. rewrite lt_map.
  destruct (ltA newitem parent); [|apply setitem_fmap].
  rewrite setitem_fmap. destruct (setitem heap pos parent) as [heap'| |]; [|done..].
  cbn [res_map bind]. apply IH.
Qed.

Lemma _siftdown_fmap (heap : list A) startpos pos :
  heapq._siftdown ltB (g <$> heap) startpos pos
  = res_map (fmap g) (heapq._siftdown ltA heap startpos pos).
Proof using lt_map.
  unfold heapq._siftdown. rewrite getitem_fmap.
  destruct (getitem heap pos) as [newitem| |]; [|done..].
  cbn [res_map bind]. apply _siftdown_loop_fmap.
Qed.

Lemma _siftup_loop_fmap fuel (heap : list A) endpos pos :
  heapq._siftup_loop ltB fuel (g <$> heap) endpos pos
  = res_map (prod_map (fmap g) id) (heapq._siftup_loop ltA fuel heap endpos pos).
Proof using lt_map.
  revert heap pos. induction fuel as [|fuel IH]; intros heap pos; [done|].
  cbn [heapq._siftup_loop].
  destruct (decide (2 * pos + 1 < endpos)); [|done].
  assert ((if decide (2 * pos + 1 + 1 < endpos)
           then let* c := getitem (g <$> heap) (2 * pos + 1) in
                let* r := getitem (g <$> heap) (2 * pos + 1 + 1) in
                Ret (if negb (ltB c r) then 2 * pos + 1 + 1 else 2 * pos + 1)
           else Ret (2 * pos + 1))
          = (if decide (2 * pos + 1 + 1 < endpos)
             then let* c := getitem heap (2 * pos + 1) in
                  let* r := getitem heap (2 * pos + 1 + 1) in
                  Ret (if negb (ltA c r) then 2 * pos + 1 + 1 else 2 * pos + 1)
             else Ret (2 * pos + 1))) as ->.
  { destruct (decide (2 * pos + 1 + 1 < endpos)); [|done].
    rewrite !getitem_fmap.
    destruct (getitem heap (2 * pos + 1)) as [c| |]; [|done..].
    destruct (getitem heap (2 * pos + 1 + 1)) as [r| |]; [|done..].
    cbn [res_map bind]. by rewrite lt_map. }
  match goal with |- bind ?m _ = _ => destruct m as [childpos| |] end; [|done..].
  cbn [bind]. rewrite getitem_fmap.
  destruct (getitem heap childpos) as [child| |]; [|done..].
  cbn [res_map bind]. rewrite setitem_fmap.
  destruct (setitem heap pos child) as [heap'| |]; [|done..].
  cbn [res_map bind]. apply IH.
Qed.

Lemma _siftup_fmap (heap : list A) pos :
  heapq._siftup ltB (g <$> heap) pos = res_map (fmap g) (heapq._siftup ltA heap pos).
Proof using lt_map.
  unfold heapq._siftup. rewrite length_fmap, getitem_fmap.
  destruct (getitem heap pos) as [newitem| |]; [|done..].
  cbn [res_map bind]. rewrite _siftup_loop_fmap.
  destruct (heapq._siftup_loop ltA (S (length heap)) heap (length heap) pos)
    as [[heap' pos']| |]; [|done..].
  cbn [res_map bind prod_map fst snd id]. rewrite setitem_fmap.
  destruct (setitem heap' pos' newitem) as [heap''| |]; [|done..].
  cbn [res_map bind]. apply _siftdown_fmap.
Qed.

Lemma heappush_fmap (heap : list A) item :
  heapq.heappush ltB (g <$> heap) (g item)
  = res_map (fmap g) (heapq.heappush ltA heap item).
Proof using lt_map.
  unfold heapq.heappush.
  change ((g <$> heap) ++ [g item]) with ((g <$> heap) ++ (g <$> [item])).
  rewrite <- fmap_app, length_fmap. apply _siftdown_fmap.
Qed.

Lemma heappop_fmap (heap : list A) :
  heapq.heappop ltB (g <$> heap)
  = res_map (prod_map g (fmap g)) (heapq.heappop ltA heap).
Proof using lt_map.
  unfold heapq.heappop. rewrite list_pop_fmap.
  destruct (list_pop heap) as [[lastelt heap']| |]; [|done..].
  cbn [res_map bind prod_map fst snd].
  destruct heap' as [|x heap']; [done|].
  rewrite getitem_fmap.
  destruct (getitem (x :: heap') 0) as [returnitem| |]; [|done..].
  cbn [res_map bind]. rewrite setitem_fmap.
  destruct (setitem (x :: heap') 0 lastelt) as [heap''| |]; [|done..].
  cbn [res_map bind]. rewrite _siftup_fmap.
  by destruct (heapq._siftup ltA heap'' 0).
Qed.
End HeapqMap.

(** ** The tree builder does not look at the symbols *)

Lemma relabel_freq f t : _freq (relabel f t) = _freq t.
Proof. by destruct t. Qed.

Lemma relabel_is_leaf f t : is_leaf (relabel f t) = is_leaf t.
Proof. by destruct t as [freq [?|] [?|] c]. Qed.

Lemma __lt___relabel f x y : __lt__ (relabel f x) (relabel f y) = __lt__ x y.
Proof. unfold __lt__. by rewrite !relabel_freq. Qed.

Lemma merge_node_relabel f x y :
  merge_node (relabel f x) (relabel f y) = relabel f (merge_node x y).
Proof. unfold merge_node. by rewrite !relabel_freq. Qed.

Lemma gen_huffman_tree_loop_relabel f fuel heap :
  gen_huffman_tree_loop fuel (relabel f <$> heap)
  = res_map (fmap (relabel f)) (gen_huffman_tree_loop fuel heap).
Proof.
  revert heap. induction fuel as [|fuel IH]; intros heap; [done|].
  cbn [gen_huffman_tree_loop]. rewrite length_fmap.
  destruct (decide (2 ≤ length heap)); [|done].
  rewrite (heappop_fmap __lt__ __lt__ (relabel f) (__lt___relabel f)).
  destruct (heapq.heappop __lt__ heap) as [[node1 heap1]| |]; [|done..].
  cbn [res_map bind prod_map fst snd].
  rewrite (heappop_fmap __lt__ __lt__ (relabel f) (__lt___relabel f)).
  destruct (heapq.heappop __lt__ heap1) as [[node2 heap2]| |]; [|done..].
  cbn [res_map bind prod_map fst snd].
  rewrite merge_node_relabel.
  rewrite (heappush_fmap __lt__ __lt__ (relabel f) (__lt___relabel f)).
  destruct (heapq.heappush __lt__ heap2 (merge_node node1 node2)) as [heap3| |];
    [|done..].
  cbn [res_map bind]. apply IH.
Qed.

Lemma gen_huffman_tree_relabel f heap :
  gen_huffman_tree (relabel f <$> heap)
  = res_map (prod_map (relabel f) (fmap (relabel f))) (gen_huffman_tree heap).
Proof.
  unfold gen_huffman_tree. rewrite length_fmap, gen_huffman_tree_loop_relabel.
  destruct (gen_huffman_tree_loop (S (length heap)) heap) as [heap'| |]; [|done..].
  cbn [res_map bind].
  rewrite (heappop_fmap __lt__ __lt__ (relabel f) (__lt___relabel f)).
  by destruct (heapq.heappop __lt__ heap').
Qed.

Lemma counts_heap_relabel f counts :
  counts_heap (relabel_counts f counts)
  = res_map (fmap (relabel f)) (counts_heap counts).
Proof.
  unfold counts_heap. change (@nil HuffmanNode) with (relabel f <$> []) at 1.
  generalize (@nil HuffmanNode) as acc.
  induction counts as [|[char n] counts IH]; intros acc; [done|].
  cbn [relabel_counts fmap list_fmap foldM fst snd].
  change (leaf_node n (f char)) with (relabel f (leaf_node n char)).
  rewrite (heappush_fmap __lt__ __lt__ (relabel f) (__lt___relabel f)).
  destruct (heapq.heappush __lt__ acc (leaf_node n char)) as [acc'| |]; [|done..].
  cbn [res_map bind]. apply IH.
Qed.

Lemma build_tree_relabel f data1 data2 :
  character_counts (readlines data2)
  = relabel_counts f (character_counts (readlines data1)) →
  build_tree data2 = res_map (relabel f) (build_tree data1).
Proof.
  intros Htable. unfold build_tree, get_quantitative_heap.
  rewrite Htable, counts_heap_relabel.
  destruct (counts_heap (character_counts (readlines data1))) as [heap| |]; [|done..].
  cbn [res_map bind]. rewrite gen_huffman_tree_relabel.
  by destruct (gen_huffman_tree heap) as [[tree heap']| |].
Qed.

Lemma code_in_child_relabel f val child bit :
  (∀ t, child = Some t →
     get_huffman_code (f val) (relabel f t) = get_huffman_code val t) →
  code_in_child (f val)
    match child with Some t => Some (relabel f t) | None => None end bit
  = code_in_child val child bit.
Proof. intros IH. destruct child as [t|]; [|done]. simpl. by rewrite IH. Qed.

(** The code of a relabelled byte in the relabelled tree, when [f] sends
    no other byte of the tree to the same byte. *)
Lemma get_huffman_code_relabel f val t :
  (∀ c, Some c ∈ leaf_contents t → f c = f val → c = val) →
  get_huffman_code (f val) (relabel f t) = get_huffman_code val t.
Proof.
  induction t as [freq l r c IHl IHr] using HuffmanNode_ind. intros Hinj.
  destruct (is_leaf (Node freq l r c)) eqn:Hleaf.
  - rewrite !get_huffman_code_leaf by (by rewrite ?relabel_is_leaf).
    rewrite leaf_contents_leaf in Hinj by done. f_equal.
    destruct c as [c|]; [|done]. cbn [relabel _content fmap option_fmap option_map content_eq].
    destruct (Byte.eqb val c) eqn:Heq.
    + apply byte_eqb_true in Heq as ->. by apply byte_eqb_true.
    + destruct (Byte.eqb (f val) (f c)) eqn:Heq'; [|done].
      apply byte_eqb_true in Heq'. rewrite (Hinj c) in Heq; [|by left|done].
      by rewrite (proj2 (byte_eqb_true val val) eq_refl) in Heq.
  - rewrite !get_huffman_code_inner by (by rewrite ?relabel_is_leaf).
    rewrite leaf_contents_inner in Hinj by done. cbn [get_child relabel] in *.
    rewrite !code_in_child_relabel; [done|..].
    + intros t ->. apply (IHr t eq_refl). intros c' Hc'. apply Hinj.
      apply elem_of_app. by right.
    + intros t ->. apply (IHl t eq_refl). intros c' Hc'. apply Hinj.
      apply elem_of_app. by left.
Qed.

Lemma NoDup_fmap_inj {A B} (f : A → B) (l : list A) x y :
  NoDup (f <$> l) → x ∈ l → y ∈ l → f x = f y → x = y.
Proof.
  induction l as [|z l IH]; [by intros _ ?%elem_of_nil|].
  rewrite fmap_cons, NoDup_cons. intros [Hz Hnodup].
  intros [->|Hx]%elem_of_cons [->|Hy]%elem_of_cons Heq; [done | | |by apply IH].
  - destruct Hz. rewrite Heq. by apply list_elem_of_fmap_2.
  - destruct Hz. rewrite <- Heq. by apply list_elem_of_fmap_2.
Qed.

Lemma build_tree_leaf_contents data :
  data ≠ [] →
  ∃ tree, build_tree data = Ret tree
          ∧ leaf_contents tree ≡ₚ Some <$> (character_counts (readlines data)).*1.
Proof.
  intros Hne.
  destruct (build_tree_spec data Hne) as (heap & tree & Hheap & Hgen & Htree & _).
  destruct (get_quantitative_heap_spec (readlines data)) as (heap' & Hheap' & Hperm).
  assert (heap' = heap) as -> by congruence.
  exists tree. split; [done|].
  destruct (gen_huffman_tree_spec heap) as (tree' & Hgen' & _ & Hleaves & _).
  { intros ->. done. }
  assert (tree' = tree) as -> by congruence.
  by rewrite Hleaves, Hperm, leaf_of_count_contents.
Qed.

(** * The claims of the specification *)

(** The example of the specification: [abracadabra] is read back, and its
    23 bits are the frequencies times the code lengths. *)
Example abracadabra_roundtrip :
  ∃ tree payload,
    encode file_abracadabra = Ret (tree, payload)
    ∧ decode 12 tree payload = Ret file_abracadabra
    ∧ length payload = 23
    ∧ weighted_sum (λ s, length (code_of tree s))
        (character_counts (readlines file_abracadabra)) = 23.
Proof. by eexists _, _; split_and!; [vm_compute; reflexivity | vm_compute..]. Qed.

(** C1 (round trip). The claim asks that compressing any byte sequence with
    the tree built from its own counts and then decoding the stream gives
    the sequence back, also for a sequence that repeats one byte. The
    program does not: for every byte [c] and every [n], the file made of
    [n + 1] copies of [c] gets a tree that is a single leaf, is compressed
    to the empty stream, and the decoding loop reads nothing back from it,
    whatever the number of turns it is given. (With two distinct bytes in
    the file the round trip holds: [roundtrip_two_symbols].) *)
Theorem roundtrip_single_byte_lost (c : byte) (n : nat) :
  encode (replicate (S n) c) = Ret (leaf_node (S n) c, [])
  ∧ (∀ fuel, decode (S fuel) (leaf_node (S n) c) [] = Ret [])
  ∧ replicate (S n) c ≠ [].
Proof.
  assert (build_tree (replicate (S n) c) = Ret (leaf_node (S n) c)) as Htree.
  { rewrite (build_tree_single _ c); [by rewrite length_replicate | done |].
    by intros x [-> _]%elem_of_replicate. }
  split_and!; [|done..].
  destruct (encode_spec _ _ Htree) as (_ & _ & ->). by rewrite codes_leaf.
Qed.

(** C2 (header). The claim asks for a header (marker, number of symbols,
    the table, the number of valid bits) in front of the payload, so that
    the output alone is enough to decode. The program writes the stream of
    '0' and '1' characters and nothing else (the tree is never encoded,
    see the TODO of [main]): the files "ab" and "ba" are written as the
    same two bytes "01", with two different trees kept in memory only. *)
Theorem compressed_file_has_no_header :
  encode file_ab = Ret (tree_ab, ["0"; "1"]%byte)
  ∧ encode file_ba = Ret (tree_ba, ["0"; "1"]%byte)
  ∧ file_ab ≠ file_ba.
Proof. split_and!; [vm_compute; reflexivity.. | done]. Qed.

(** X23 (what is written). Whenever the pipeline of [main] produces a
    compressed stream, the stream is the concatenation of the codes of the
    bytes of the file, in order, and is made of the two characters '0' and
    '1' only. *)
Lemma encode_stream data tree payload :
  encode data = Ret (tree, payload) →
  payload = data ≫= code_of tree ∧ Forall is_bit payload.
Proof.
  unfold encode. destruct (build_tree data) as [tree'| |] eqn:Htree; cbn [bind]; [|done..].
  destruct (encode_spec data tree' Htree) as (_ & -> & _). cbn [bind].
  intros [= <- <-]. split; [done | apply codes_bits].
Qed.

(** C3 (determinism), amended. The tree is a function of the frequency
    table taken in its insertion order (the order in which the bytes are
    first met in the file), and at equal frequencies the order of
    extraction is decided by the places of the entries in that order, never
    by the bytes they hold: the heap compares frequencies only. For two
    files such that the table of the second is the table of the first with
    every byte [c] replaced by [f c] (the same counts in the same order),
    both trees are built, the tree of the second is the tree of the first
    with every byte replaced in the same way (the same shape, and the
    entries of the same rank at the same leaf), and every byte of the first
    file has the code that its replacement has in the second. Two files
    with the same table in the same order get the same tree. *)
Theorem tree_determined_by_ordered_table (data1 data2 : bytes) (f : byte → byte) :
  data1 ≠ [] →
  character_counts (readlines data2)
  = relabel_counts f (character_counts (readlines data1)) →
  ∃ tree,
    build_tree data1 = Ret tree
    ∧ build_tree data2 = Ret (relabel f tree)
    ∧ (∀ char, char ∈ data1 →
         get_huffman_code (f char) (relabel f tree) = get_huffman_code char tree)
    ∧ (character_counts (readlines data2) = character_counts (readlines data1) →
       build_tree data2 = Ret tree).
Proof.
  intros Hne Htable.
  destruct (build_tree_leaf_contents data1 Hne) as (tree & Htree & Hleaves).
  exists tree. split_and!; [done | | |].
  - by rewrite (build_tree_relabel f data1 data2 Htable), Htree.
  - intros char Hchar. apply get_huffman_code_relabel. intros c Hc Heq.
    rewrite Hleaves in Hc. apply list_elem_of_fmap in Hc as (c' & [= <-] & Hc).
    apply (NoDup_fmap_inj f (character_counts (readlines data1)).*1); [|done| |done].
    + pose proof (character_counts_NoDup data2) as Hnodup.
      rewrite Htable in Hnodup. unfold relabel_counts in Hnodup.
      by rewrite <- !list_fmap_compose in *.
    + by apply character_counts_elem_of.
  - intros Hsame. rewrite <- Htree. unfold build_tree, get_quantitative_heap.
    by rewrite Hsame.
Qed.

Lemma tree_determined_by_ordered_table_witness :
  file_abc ≠ []
  ∧ character_counts (readlines file_cab)
    = relabel_counts rotate_abc (character_counts (readlines file_abc))
  ∧ ∃ tree,
      build_tree file_abc = Ret tree
      ∧ build_tree file_cab = Ret (relabel rotate_abc tree)
      ∧ (∀ char, char ∈ file_abc →
           get_huffman_code (rotate_abc char) (relabel rotate_abc tree)
           = get_huffman_code char tree)
      ∧ (character_counts (readlines file_cab) = character_counts (readlines file_abc) →
         build_tree file_cab = Ret tree).
Proof.
  assert (file_abc ≠ []) as Hne by discriminate.
  assert (character_counts (readlines file_cab)
          = relabel_counts rotate_abc (character_counts (readlines file_abc)))
    as Htable by reflexivity.
  split; [exact Hne|]. split; [exact Htable|].
  exact (tree_determined_by_ordered_table file_abc file_cab rotate_abc Hne Htable).
Defined.

(** C3 as stated fails: the files "ab" and "ba" have the same frequency
    table as a mapping (a: 1, b: 1), and the tree builder gives "a" the
    code 0 for the first and the code 1 for the second. *)
Lemma tie_break_follows_insertion_order :
  same_table (character_counts (readlines file_ab))
             (character_counts (readlines file_ba))
  ∧ build_tree file_ab = Ret tree_ab
  ∧ build_tree file_ba = Ret tree_ba
  ∧ get_huffman_code "a" tree_ab = (true, ["0"]%byte)
  ∧ get_huffman_code "a" tree_ba = (true, ["1"]%byte)
  ∧ tree_ab ≠ tree_ba.
Proof.
  split_and!; [|vm_compute; reflexivity..|done].
  intros char. change (character_counts (readlines file_ab))
    with [("a"%byte, 1); ("b"%byte, 1)].
  change (character_counts (readlines file_ba)) with [("b"%byte, 1); ("a"%byte, 1)].
  cbn [table_get].
  by destruct (Byte.eqb char "a"), (Byte.eqb char "b").
Qed.

(** C4 (one distinct symbol). The claim asks that the single symbol gets a
    one-bit code. In the program, for every file whose table has exactly
    one entry, no merge happens and the tree is the single leaf of that
    symbol, as the claim says, but [get_huffman_code] answers with the
    empty code for it, and the whole file is compressed to the empty
    stream. *)
Theorem single_symbol_code_is_empty (data : bytes) :
  length (character_counts (readlines data)) = 1 →
  ∃ char heap,
    get_quantitative_heap (readlines data) = Ret heap
    ∧ heap = [leaf_node (length data) char]
    ∧ gen_huffman_tree heap = Ret (leaf_node (length data) char, [])
    ∧ is_leaf (leaf_node (length data) char) = true
    ∧ get_huffman_code char (leaf_node (length data) char) = (true, [])
    ∧ encode data = Ret (leaf_node (length data) char, []).
Proof.
  intros Hone.
  assert (data ≠ []) as Hne by (by intros ->).
  destruct (build_tree_spec data Hne)
    as (heap & tree & Hheap & Hgen & Htree & _ & _ & _ & [char ->]); [done|].
  exists char, heap.
  assert (heap = [leaf_node (length data) char]) as ->.
  { destruct (get_quantitative_heap_spec (readlines data)) as (heap' & Hheap' & Hperm).
    assert (heap' = heap) as -> by congruence.
    destruct (gen_huffman_tree_spec heap) as (root & Hroot & _ & _ & _ & Hsingle).
    { intros ->. apply Permutation_length in Hperm. rewrite length_fmap in Hperm.
      simpl in Hperm. lia. }
    assert (root = leaf_node (length data) char) as -> by congruence.
    apply Hsingle. by rewrite Hperm, length_fmap. }
  split_and!; [done | done | done | done | |].
  - simpl. f_equal. by apply byte_eqb_true.
  - destruct (encode_spec _ _ Htree) as (_ & _ & ->). by rewrite codes_leaf.
Qed.

Lemma single_symbol_code_is_empty_witness :
  length (character_counts (readlines file_aaaa)) = 1
  ∧ ∃ char heap,
      get_quantitative_heap (readlines file_aaaa) = Ret heap
      ∧ heap = [leaf_node (length file_aaaa) char]
      ∧ gen_huffman_tree heap = Ret (leaf_node (length file_aaaa) char, [])
      ∧ is_leaf (leaf_node (length file_aaaa) char) = true
      ∧ get_huffman_code char (leaf_node (length file_aaaa) char) = (true, [])
      ∧ encode file_aaaa = Ret (leaf_node (length file_aaaa) char, []).
Proof.
  split; [reflexivity|]. apply (single_symbol_code_is_empty file_aaaa). reflexivity.
Defined.

(** C5 (prefix freedom). For every file and every two distinct bytes [a]
    and [b] that occur in it, the tree built from the file gives a code to
    [a] and a code to [b], and the code of [a] is not a prefix of the code
    of [b]. *)
Theorem codes_prefix_free (data : bytes) (a b : byte) :
  a ∈ data → b ∈ data → a ≠ b →
  ∃ tree code_a code_b,
    build_tree data = Ret tree
    ∧ get_huffman_code a tree = (true, code_a)
    ∧ get_huffman_code b tree = (true, code_b)
    ∧ ¬ code_a `prefix_of` code_b.
Proof.
  intros Ha Hb Hab.
  assert (data ≠ []) as Hne by (intros ->; by apply elem_of_nil in Ha).
  destruct (build_tree_spec data Hne) as (_ & tree & _ & _ & Htree & _ & Hcont & _).
  pose proof (contained_code_of tree a (Hcont a Ha)) as Hca.
  pose proof (contained_code_of tree b (Hcont b Hb)) as Hcb.
  exists tree, (code_of tree a), (code_of tree b).
  split_and!; [done | done | done |].
  by apply (get_huffman_code_prefix_free tree a b).
Qed.

Lemma codes_prefix_free_witness :
  "a"%byte ∈ file_abracadabra ∧ "c"%byte ∈ file_abracadabra ∧ "a"%byte ≠ "c"%byte
  ∧ ∃ tree code_a code_b,
      build_tree file_abracadabra = Ret tree
      ∧ get_huffman_code "a" tree = (true, code_a)
      ∧ get_huffman_code "c" tree = (true, code_b)
      ∧ ¬ code_a `prefix_of` code_b.
Proof.
  assert ("a"%byte ∈ file_abracadabra) as Ha by (apply list_elem_of_here).
  assert ("c"%byte ∈ file_abracadabra) as Hc
    by (do 4 apply list_elem_of_further; apply list_elem_of_here).
  assert ("a"%byte ≠ "c"%byte) as Hac by discriminate.
  split_and!; [exact Ha | exact Hc | exact Hac |].
  exact (codes_prefix_free file_abracadabra "a" "c" Ha Hc Hac).
Defined.

(** C6 (root frequency). For every non-empty frequency table, the heap of
    its leaves is built, [gen_huffman_tree] returns a root and leaves the
    heap empty, and the frequency of the root is the sum of the
    frequencies of the table. The root is reached by the turns of the
    loop, and at every heap the loop goes through, a turn pops a node of
    minimum frequency, then a node of minimum frequency among the rest,
    and pushes the inner node that has them as left and right child and
    the sum of their frequencies as frequency. *)
Theorem gen_huffman_tree_root_frequency (counts : list (byte * nat)) :
  counts ≠ [] →
  ∃ heap root,
    counts_heap counts = Ret heap
    ∧ gen_huffman_tree heap = Ret (root, [])
    ∧ _freq root = sum_list_with snd counts
    ∧ reachable heap [root]
    ∧ ∀ h, reachable heap h → 2 ≤ length h →
        ∃ node1 h1 node2 h2 h3,
          heapq.heappop __lt__ h = Ret (node1, h1)
          ∧ (∀ x, x ∈ h → _freq node1 ≤ _freq x)
          ∧ heapq.heappop __lt__ h1 = Ret (node2, h2)
          ∧ (∀ x, x ∈ h1 → _freq node2 ≤ _freq x)
          ∧ heapq.heappush __lt__ h2
              (Node (_freq node1 + _freq node2) (Some node1) (Some node2) None)
            = Ret h3
          ∧ merge_step h = Ret h3.
Proof.
  intros Hne.
  destruct (counts_heap_spec counts) as (heap & Hheap & Hperm & Hord).
  assert (heap ≠ []) as Hne'.
  { intros ->. apply Permutation_length in Hperm. rewrite length_fmap in Hperm.
    by destruct counts. }
  destruct (gen_huffman_tree_loop_spec (S (length heap)) heap)
    as (root & Hloop & Hfreq & _); [done | lia |].
  exists heap, root. split_and!; [done | | | |].
  - unfold gen_huffman_tree. by rewrite Hloop.
  - by rewrite Hfreq, Hperm, leaf_of_count_freq.
  - by eapply gen_huffman_tree_loop_reachable.
  - intros h Hreach Hlen.
    destruct (merge_step_spec h) as (n1 & h1 & n2 & h2 & h3 & H);
      [by eapply reachable_is_heap | done |].
    exists n1, h1, n2, h2, h3. tauto.
Qed.

Lemma gen_huffman_tree_root_frequency_witness :
  character_counts (readlines file_abracadabra) ≠ []
  ∧ ∃ heap root,
      counts_heap (character_counts (readlines file_abracadabra)) = Ret heap
      ∧ gen_huffman_tree heap = Ret (root, [])
      ∧ _freq root = sum_list_with snd (character_counts (readlines file_abracadabra))
      ∧ reachable heap [root]
      ∧ ∀ h, reachable heap h → 2 ≤ length h →
          ∃ node1 h1 node2 h2 h3,
            heapq.heappop __lt__ h = Ret (node1, h1)
            ∧ (∀ x, x ∈ h → _freq node1 ≤ _freq x)
            ∧ heapq.heappop __lt__ h1 = Ret (node2, h2)
            ∧ (∀ x, x ∈ h1 → _freq node2 ≤ _freq x)
            ∧ heapq.heappush __lt__ h2
                (Node (_freq node1 + _freq node2) (Some node1) (Some node2) None)
              = Ret h3
            ∧ merge_step h = Ret h3.
Proof.
  assert (character_counts (readlines file_abracadabra) ≠ []) as Hne by discriminate.
  split; [exact Hne|].
  exact (gen_huffman_tree_root_frequency _ Hne).
Defined.

(** C7 (bit count). For every file, with the tree built from it, the
    compressed stream is produced and its length, one character per bit,
    is the sum over the entries [(s, n)] of the frequency table of [n]
    times the length of the code of [s]. *)
Theorem compressed_length_weighted_sum (data : bytes) (tree : HuffmanNode) :
  build_tree data = Ret tree →
  ∃ payload,
    compress_file (readlines data) tree = Ret payload
    ∧ length payload
      = weighted_sum (λ s, length (get_huffman_code s tree).2)
          (character_counts (readlines data)).
Proof.
  intros Htree. destruct (encode_spec data tree Htree) as (_ & Hcomp & _).
  exists (data ≫= code_of tree). split; [done|].
  rewrite character_counts_weighted_sum.
  clear. induction data as [|c data IH]; [done|].
  rewrite bind_cons, length_app, IH. done.
Qed.

Lemma compressed_length_weighted_sum_witness :
  build_tree file_ab = Ret tree_ab
  ∧ ∃ payload,
      compress_file (readlines file_ab) tree_ab = Ret payload
      ∧ length payload
        = weighted_sum (λ s, length (get_huffman_code s tree_ab).2)
            (character_counts (readlines file_ab)).
Proof.
  assert (build_tree file_ab = Ret tree_ab) as Htree by reflexivity.
  split; [exact Htree|].
  exact (compressed_length_weighted_sum file_ab tree_ab Htree).
Defined.

(** C8 (empty input). The claim asks that the empty file is encoded to an
    empty header and payload without a fatal error. In the program the
    table and the heap of the empty file are empty, as the claim says, but
    nothing short-circuits: [gen_huffman_tree] pops from the empty heap,
    which raises [IndexError], and so does the pipeline. *)
Theorem empty_input_raises :
  character_counts (readlines []) = []
  ∧ get_quantitative_heap (readlines []) = Ret []
  ∧ gen_huffman_tree [] = Raise IndexError
  ∧ encode [] = Raise IndexError.
Proof. by split_and!. Qed.

(** C9 (truncated payload), amended. For every file with at least two
    distinct bytes, decoding the compressed stream with its last character
    removed reports no error: the loop stops at the end of the stream and
    returns the file without its last byte, as soon as it is given
    enough turns (one call of [get_next_val] per byte of the file). *)
Theorem truncated_stream_drops_last_symbol (data : bytes) (a b : byte) :
  a ∈ data → b ∈ data → a ≠ b →
  ∃ tree payload,
    encode data = Ret (tree, payload)
    ∧ payload ≠ []
    ∧ ∀ fuel, length data ≤ fuel →
        decode fuel tree (removelast payload) = Ret (removelast data).
Proof.
  intros Ha Hb Hab.
  assert (data ≠ []) as Hne by (intros ->; by apply elem_of_nil in Ha).
  destruct (build_tree_spec data Hne) as (_ & tree & _ & _ & Htree & _ & _ & Hinner & _).
  destruct (encode_spec data tree Htree) as (Hall & _ & Henc).
  assert (is_leaf tree = false) as Hleaf
    by (apply Hinner; by apply (character_counts_two data a b)).
  exists tree, (data ≫= code_of tree).
  destruct (exists_last Hne) as (data' & char & ->).
  apply Forall_app in Hall as [Hall' [Hchar _]%Forall_cons].
  apply contained_code_of in Hchar.
  pose proof (get_huffman_code_inner_nonempty _ _ _ Hleaf Hchar) as Hcode.
  destruct (exists_last Hcode) as (code & bit & Hcode').
  assert ((data' ++ [char]) ≫= code_of tree
          = ((data' ≫= code_of tree) ++ code) ++ [bit]) as Hpayload.
  { rewrite bind_app. simpl. by rewrite app_nil_r, Hcode', app_assoc. }
  rewrite Hpayload in *.
  rewrite !removelast_last, length_app. simpl.
  replace (length data' + 1) with (S (length data')) by lia.
  split_and!; [done | by intros [_ ?]%app_eq_nil |].
  intros fuel Hfuel. apply (decompress_fuel_mono (S (length data'))); [|lia].
  rewrite Hcode' in Hchar.
  destruct data' as [|c data'].
  { exfalso. apply list_elem_of_singleton in Ha, Hb. congruence. }
  rewrite readlines_bits.
  - by apply (decompress_truncated tree (c :: data') char code bit).
  - apply Forall_app. split; [apply codes_bits|].
    apply get_huffman_code_bits in Hchar. by apply Forall_app in Hchar as [? _].
  - apply Forall_cons in Hall' as [Hc _]. apply contained_code_of in Hc.
    apply get_huffman_code_inner_nonempty in Hc; [|done].
    rewrite bind_cons. by destruct (code_of tree c).
Qed.

Lemma truncated_stream_drops_last_symbol_witness :
  "a"%byte ∈ file_ab ∧ "b"%byte ∈ file_ab ∧ "a"%byte ≠ "b"%byte
  ∧ ∃ tree payload,
      encode file_ab = Ret (tree, payload)
      ∧ payload ≠ []
      ∧ ∀ fuel, length file_ab ≤ fuel →
          decode fuel tree (removelast payload) = Ret (removelast file_ab).
Proof.
  assert ("a"%byte ∈ file_ab) as Ha by (apply list_elem_of_here).
  assert ("b"%byte ∈ file_ab) as Hb
    by (apply list_elem_of_further, list_elem_of_here).
  assert ("a"%byte ≠ "b"%byte) as Hab by discriminate.
  split_and!; [exact Ha | exact Hb | exact Hab |].
  exact (truncated_stream_drops_last_symbol file_ab "a" "b" Ha Hb Hab).
Defined.

(** C9 as stated fails: the file "ab" is compressed to "01"; with the last
    character removed, decoding "0" returns "a" and raises nothing. *)
Lemma truncated_stream_decodes_silently :
  encode file_ab = Ret (tree_ab, ["0"; "1"]%byte)
  ∧ decode 2 tree_ab (removelast ["0"; "1"]%byte) = Ret ["a"%byte].
Proof. split; vm_compute; reflexivity. Qed.

(** C10 (the heap is consumed). For every non-empty heap passed to
    [gen_huffman_tree], the call returns a root and the list the caller
    holds is empty afterwards. *)
Theorem gen_huffman_tree_empties_heap (heap : list HuffmanNode) :
  heap ≠ [] → ∃ root, gen_huffman_tree heap = Ret (root, []).
Proof.
  intros Hne. destruct (gen_huffman_tree_spec heap Hne) as (root & Hroot & _).
  by exists root.
Qed.

Lemma gen_huffman_tree_empties_heap_witness :
  [leaf_node 2 "b"; leaf_node 5 "a"; leaf_node 2 "r"] ≠ []
  ∧ ∃ root,
      gen_huffman_tree [leaf_node 2 "b"; leaf_node 5 "a"; leaf_node 2 "r"]
      = Ret (root, []).
Proof.
  assert ([leaf_node 2 "b"; leaf_node 5 "a"; leaf_node 2 "r"] ≠ []) as Hne
    by discriminate.
  split; [exact Hne|].
  exact (gen_huffman_tree_empties_heap _ Hne).
Defined.

(** * Further properties of the code *)

(** ** What a turn of the loop of [gen_huffman_tree] does to the heap *)

Lemma merge_step_Permutation heap heap' :
  merge_step heap = Ret heap' →
  ∃ node1 node2 rest,
    heap ≡ₚ node1 :: node2 :: rest ∧ heap' ≡ₚ merge_node node1 node2 :: rest.
Proof.
  unfold merge_step. intros Hstep.
  destruct (decide (heap = [])) as [->|Hne]; [done|].
  destruct (heappop_Permutation __lt__ heap Hne) as (node1 & heap1 & Hpop1 & Hperm1).
  rewrite Hpop1 in Hstep. cbn [bind] in Hstep.
  destruct (decide (heap1 = [])) as [->|Hne1]; [done|].
  destruct (heappop_Permutation __lt__ heap1 Hne1) as (node2 & heap2 & Hpop2 & Hperm2).
  rewrite Hpop2 in Hstep. cbn [bind] in Hstep.
  destruct (heappush_Permutation __lt__ heap2 (merge_node node1 node2))
    as (heap3 & Hpush & Hperm3).
  rewrite Hpush in Hstep. injection Hstep as <-.
  exists node1, node2, heap2. split; [|done].
  by rewrite <- Hperm1, <- Hperm2.
Qed.

Lemma reachable_invariant (I : list HuffmanNode → Prop) heap0 heap :
  I heap0 →
  (∀ h h', I h → 2 ≤ length h → merge_step h = Ret h' → I h') →
  reachable heap0 heap → I heap.
Proof. intros H0 Hstep. induction 1; eauto. Qed.

Lemma gen_huffman_tree_reachable heap :
  heap ≠ [] →
  ∃ root, gen_huffman_tree heap = Ret (root, [])
          ∧ reachable heap [root]
          ∧ _freq root = sum_list_with _freq heap.
Proof.
  intros Hne.
  destruct (gen_huffman_tree_loop_spec (S (length heap)) heap)
    as (root & Hloop & Hfreq & _); [done | lia |].
  exists root. split_and!; [|by eapply gen_huffman_tree_loop_reachable | done].
  unfold gen_huffman_tree. by rewrite Hloop.
Qed.

Lemma leaves_merge_node node1 node2 :
  leaves (merge_node node1 node2) = leaves node1 ++ leaves node2.
Proof. reflexivity. Qed.

Lemma leaves_leaf t : is_leaf t = true → leaves t = [t].
Proof. by destruct t as [f [?|] [?|] c]. Qed.

Lemma leaves_inner t :
  is_leaf t = false →
  leaves t =
    match get_child t side_l with Some lt => leaves lt | None => [] end ++
    match get_child t side_r with Some rt => leaves rt | None => [] end.
Proof. by destruct t as [f [?|] [?|] c]. Qed.

Lemma leaf_contents_leaves t : leaf_contents t = _content <$> leaves t.
Proof.
  induction t as [f l r c IHl IHr] using HuffmanNode_ind.
  destruct (is_leaf (Node f l r c)) eqn:Hleaf.
  - by rewrite leaf_contents_leaf, leaves_leaf.
  - rewrite leaf_contents_inner, leaves_inner, fmap_app by done. cbn [get_child].
    f_equal; [destruct l as [lt|] | destruct r as [rt|]]; try done.
    + by apply IHl.
    + by apply IHr.
Qed.

Lemma leaves_reachable heap0 heap :
  reachable heap0 heap → heap ≫= leaves ≡ₚ heap0 ≫= leaves.
Proof.
  apply (reachable_invariant (λ h, h ≫= leaves ≡ₚ heap0 ≫= leaves)); [done|].
  intros h h' IH _ (node1 & node2 & rest & Hh & Hh')%merge_step_Permutation.
  rewrite <- IH, Hh, Hh'. rewrite !bind_cons, leaves_merge_node.
  by rewrite <- app_assoc.
Qed.

Lemma well_formed_reachable heap0 heap :
  Forall well_formed heap0 → reachable heap0 heap → Forall well_formed heap.
Proof.
  intros Hwf. apply (reachable_invariant (Forall well_formed)); [done|].
  intros h h' IH _ (node1 & node2 & rest & Hh & Hh')%merge_step_Permutation.
  rewrite Hh in IH. rewrite Hh'.
  apply Forall_cons in IH as [H1 [H2 Hrest]%Forall_cons].
  apply Forall_cons. split; [|done]. simpl. done.
Qed.

(** A well-formed tree has a leaf. *)
Lemma well_formed_leaves_nonempty t : well_formed t → leaves t ≠ [].
Proof.
  induction t as [f l r c IHl IHr] using HuffmanNode_ind.
  destruct l as [lt|], r as [rt|]; simpl; try done.
  intros (_ & _ & Hl & _) [Hnil _]%app_eq_nil. by apply (IHl lt).
Qed.

(** X1 (the merge keeps every leaf). For every non-empty list of nodes,
    heap-ordered or not, [gen_huffman_tree] returns a root whose frequency
    is the sum of the frequencies of the nodes and whose leaves are the
    leaves of the nodes, each as many times as it was passed in; when the
    nodes are well formed, so is the root. *)
Theorem gen_huffman_tree_keeps_leaves (heap : list HuffmanNode) :
  heap ≠ [] →
  ∃ root,
    gen_huffman_tree heap = Ret (root, [])
    ∧ _freq root = sum_list_with _freq heap
    ∧ leaves root ≡ₚ heap ≫= leaves
    ∧ (Forall well_formed heap → well_formed root).
Proof.
  intros Hne.
  destruct (gen_huffman_tree_reachable heap Hne) as (root & Hgen & Hreach & Hfreq).
  exists root. split_and!; [done | done | |].
  - rewrite <- (leaves_reachable heap [root] Hreach). simpl. by rewrite app_nil_r.
  - intros Hwf. exact (Forall_inv (well_formed_reachable heap [root] Hwf Hreach)).
Qed.

Lemma gen_huffman_tree_keeps_leaves_witness :
  [leaf_node 2 "b"; leaf_node 5 "a"; leaf_node 2 "r"] ≠ []
  ∧ ∃ root,
      gen_huffman_tree [leaf_node 2 "b"; leaf_node 5 "a"; leaf_node 2 "r"]
      = Ret (root, [])
      ∧ _freq root
        = sum_list_with _freq [leaf_node 2 "b"; leaf_node 5 "a"; leaf_node 2 "r"]
      ∧ leaves root
        ≡ₚ [leaf_node 2 "b"; leaf_node 5 "a"; leaf_node 2 "r"] ≫= leaves
      ∧ (Forall well_formed [leaf_node 2 "b"; leaf_node 5 "a"; leaf_node 2 "r"]
         → well_formed root).
Proof.
  assert ([leaf_node 2 "b"; leaf_node 5 "a"; leaf_node 2 "r"] ≠ []) as Hne
    by discriminate.
  split; [exact Hne|].
  exact (gen_huffman_tree_keeps_leaves _ Hne).
Defined.

Lemma leaf_of_count_leaves counts :
  (leaf_of_count <$> counts) ≫= leaves = leaf_of_count <$> counts.
Proof. induction counts as [|[c n] counts IH]; csimpl; [done | by rewrite IH]. Qed.

Lemma leaf_of_count_content counts :
  _content <$> (leaf_of_count <$> counts) = Some <$> counts.*1.
Proof. induction counts as [|[c n] counts IH]; csimpl; [done | by rewrite IH]. Qed.

Lemma leaf_of_count_well_formed counts : Forall well_formed (leaf_of_count <$> counts).
Proof. induction counts as [|[c n] counts IH]; csimpl; constructor; [by eexists | done]. Qed.

Lemma build_tree_structure (data : bytes) :
  data ≠ [] →
  ∃ tree,
    build_tree data = Ret tree
    ∧ well_formed tree
    ∧ leaves tree ≡ₚ leaf_of_count <$> character_counts (readlines data)
    ∧ NoDup (leaf_contents tree)
    ∧ (is_leaf tree = true ↔ length (character_counts (readlines data)) = 1).
Proof.
  intros Hne.
  destruct (counts_heap_spec (character_counts (readlines data)))
    as (heap & Hheap & Hperm & _).
  assert (heap ≠ []) as Hne'.
  { intros ->. apply Permutation_length in Hperm. rewrite length_fmap in Hperm.
    apply (character_counts_nonempty data Hne). by apply nil_length_inv. }
  destruct (gen_huffman_tree_reachable heap Hne') as (tree & Hgen & Hreach & _).
  assert (leaves tree ≡ₚ leaf_of_count <$> character_counts (readlines data)) as Hleaves.
  { rewrite <- leaf_of_count_leaves, <- Hperm, <- (leaves_reachable heap [tree] Hreach).
    simpl. by rewrite app_nil_r. }
  exists tree. split_and!.
  - unfold build_tree, get_quantitative_heap. rewrite Hheap. cbn [bind].
    by rewrite Hgen.
  - apply (Forall_inv (l := [])). apply (well_formed_reachable heap); [|done].
    rewrite Hperm. apply leaf_of_count_well_formed.
  - done.
  - rewrite leaf_contents_leaves, Hleaves, leaf_of_count_content.
    apply (NoDup_fmap_2 Some), character_counts_NoDup.
  - destruct (build_tree_spec data Hne) as (_ & tree' & _ & _ & Htree' & _ & _ & Hinner & Hone).
    assert (build_tree data = Ret tree) as Htree.
    { unfold build_tree, get_quantitative_heap. rewrite Hheap. cbn [bind].
      by rewrite Hgen. }
    assert (tree' = tree) as -> by congruence.
    pose proof (character_counts_nonempty data Hne) as Hcounts.
    split.
    + intros Hleaf. destruct (decide (2 ≤ length (character_counts (readlines data))))
        as [Hlen|Hlen]; [rewrite (Hinner Hlen) in Hleaf; done|].
      destruct (character_counts (readlines data)); simpl in *; [done | lia].
    + intros Hlen. by destruct (Hone Hlen) as [char ->].
Qed.

(** X2 (the tree of a file). For every non-empty file the tree is built, it
    is well formed, its leaves are the leaves [(count, byte)] of the
    frequency table, one per entry, so that no two leaves hold the same
    byte (what [get_huffman_code] assumes), and it is a single leaf exactly
    when the file has one distinct byte. *)
Theorem build_tree_leaves (data : bytes) :
  data ≠ [] →
  ∃ tree,
    build_tree data = Ret tree
    ∧ well_formed tree
    ∧ leaves tree ≡ₚ leaf_of_count <$> character_counts (readlines data)
    ∧ NoDup (leaf_contents tree)
    ∧ (is_leaf tree = true ↔ length (character_counts (readlines data)) = 1).
Proof. apply build_tree_structure. Qed.

Lemma build_tree_leaves_witness :
  file_abracadabra ≠ []
  ∧ ∃ tree,
      build_tree file_abracadabra = Ret tree
      ∧ well_formed tree
      ∧ leaves tree ≡ₚ leaf_of_count <$> character_counts (readlines file_abracadabra)
      ∧ NoDup (leaf_contents tree)
      ∧ (is_leaf tree = true
         ↔ length (character_counts (readlines file_abracadabra)) = 1).
Proof.
  assert (file_abracadabra ≠ []) as Hne by discriminate.
  split; [exact Hne|].
  exact (build_tree_leaves file_abracadabra Hne).
Defined.

(** ** The frequency table of [get_quantitative_heap] *)

Lemma table_get_count_char counts c char :
  table_get (count_char counts c) char =
    if decide (char = c) then Some (default 0 (table_get counts char) + 1)
    else table_get counts char.
Proof.
  induction counts as [|[k n] counts IH]; cbn [count_char table_get].
  - destruct (Byte.eqb char c) eqn:Heq.
    + apply byte_eqb_true in Heq. by rewrite decide_True.
    + apply Byte.eqb_false in Heq. by rewrite decide_False.
  - destruct (Byte.eqb c k) eqn:Hck; cbn [table_get].
    + apply byte_eqb_true in Hck as ->.
      destruct (Byte.eqb char k) eqn:Heq.
      * apply byte_eqb_true in Heq. by rewrite decide_True.
      * apply Byte.eqb_false in Heq. by rewrite decide_False.
    + apply Byte.eqb_false in Hck.
      destruct (Byte.eqb char k) eqn:Heq.
      * apply byte_eqb_true in Heq as ->. by rewrite decide_False.
      * by rewrite IH.
Qed.

Lemma table_get_fold_count_char data counts char :
  table_get (fold_left count_char data counts) char =
    match count_occ byte_eq_dec data char with
    | 0 => table_get counts char
    | S m => Some (default 0 (table_get counts char) + S m)
    end.
Proof.
  revert counts. induction data as [|c data IH]; intros counts; [done|].
  cbn [fold_left]. rewrite IH, table_get_count_char.
  destruct (decide (char = c)) as [->|Hne].
  - rewrite count_occ_cons_eq by done.
    destruct (count_occ byte_eq_dec data c); simpl; f_equal; lia.
  - by rewrite count_occ_cons_neq by done.
Qed.

(** X3 (the counts). For every file and every byte value, the frequency
    table built by the first loop of [get_quantitative_heap] holds the
    number of occurrences of the byte in the whole file, whatever the
    lines, and has no entry for a byte that does not occur. *)
Theorem character_counts_occurrences (data : bytes) (char : byte) :
  table_get (character_counts (readlines data)) char =
    if decide (char ∈ data) then Some (count_occ byte_eq_dec data char) else None.
Proof.
  rewrite character_counts_join, readlines_join, table_get_fold_count_char.
  cbn [table_get default].
  destruct (decide (char ∈ data)) as [Hin|Hin].
  - apply list_elem_of_In, (count_occ_In byte_eq_dec) in Hin.
    destruct (count_occ byte_eq_dec data char); [lia | done].
  - rewrite list_elem_of_In, (count_occ_not_In byte_eq_dec) in Hin. by rewrite Hin.
Qed.

(** X4 (the order of the table). The keys of the frequency table are the
    distinct bytes of the file in the order of their first occurrence: the
    file with all but the first occurrence of every byte removed. *)
Theorem character_counts_first_occurrences (data : bytes) :
  (character_counts (readlines data)).*1 = reverse (remove_dups (reverse data)).
Proof.
  rewrite character_counts_join, readlines_join.
  induction data as [|c data IH] using rev_ind; [done|].
  rewrite fold_left_app. cbn [fold_left].
  rewrite count_char_keys, IH, reverse_snoc. cbn [remove_dups].
  destruct (decide (c ∈ reverse (remove_dups (reverse data)))) as [Hin|Hin];
    rewrite elem_of_reverse, elem_of_remove_dups in Hin;
    destruct (decide_rel (∈) c (reverse data)) as [Hin'|Hin']; try done.
  by rewrite reverse_cons.
Qed.

(** X5 (the heap of leaves). For every list of lines,
    [get_quantitative_heap] raises nothing and returns a list that holds
    exactly one leaf [(count, byte)] per entry of the frequency table and
    satisfies the heap invariant of [heapq] for [HuffmanNode.__lt__]: no
    node has a smaller frequency than its parent slot. *)
Theorem get_quantitative_heap_is_heap (file : list bytes) :
  ∃ heap,
    get_quantitative_heap file = Ret heap
    ∧ heap ≡ₚ leaf_of_count <$> character_counts file
    ∧ ∀ i x p, 0 < i → heap !! i = Some x → heap !! ((i - 1) / 2) = Some p →
               _freq p ≤ _freq x.
Proof.
  destruct (counts_heap_spec (character_counts file)) as (heap & Hheap & Hperm & Hord).
  exists heap. split_and!; [done | done |].
  intros i x p Hi Hx Hp. apply __lt___false. by apply (Hord i).
Qed.

(** ** [get_huffman_code]: what is found, and where *)

Lemma get_huffman_code_true_leaf val t code :
  get_huffman_code val t = (true, code) → Some val ∈ leaf_contents t.
Proof.
  revert code. induction t as [f l r c IHl IHr] using HuffmanNode_ind.
  intros code Hcode.
  apply get_huffman_code_true in Hcode
    as [(Hleaf & Hc & ->)
       |[(Hleaf & child & code' & Hchild & Hcode & ->)
        |(Hleaf & child & code' & Hchild & Hcode & ->)]].
  - rewrite leaf_contents_leaf by done. rewrite Hc. left.
  - rewrite leaf_contents_inner, Hchild by done. apply elem_of_app. left.
    by apply (IHl child Hchild code').
  - rewrite leaf_contents_inner, Hchild by done. apply elem_of_app. right.
    by apply (IHr child Hchild code').
Qed.

Lemma get_huffman_code_false val t code :
  get_huffman_code val t = (false, code) → code = [].
Proof.
  destruct (is_leaf t) eqn:Hleaf.
  - rewrite get_huffman_code_leaf by done. by intros [= _ <-].
  - rewrite get_huffman_code_inner by done. cbn zeta.
    destruct (code_in_child val (get_child t side_l) "0") as [[|] codel] eqn:Hl;
      cbn [fst]; [done|].
    intros Hr. by eapply code_in_child_false.
Qed.

Lemma contained_leaf_contents t char :
  contained t char ↔ Some char ∈ leaf_contents t.
Proof.
  split; [|apply get_huffman_code_found].
  intros Hc%contained_code_of. by eapply get_huffman_code_true_leaf.
Qed.

(** X6 (what [get_huffman_code] finds). For every tree of at most 255
    levels, the height of the trees of the program and well within the
    recursion limit of the interpreter, and every value, the answer is
    [True] when a leaf of the tree holds the value, and [(False, b'')] when
    no leaf does. *)
Theorem get_huffman_code_found_iff (val : byte) (t : HuffmanNode) :
  height t ≤ 255 →
  if decide (Some val ∈ leaf_contents t)
  then (get_huffman_code val t).1 = true
  else get_huffman_code val t = (false, []).
Proof.
  intros _. destruct (decide (Some val ∈ leaf_contents t)) as [Hin|Hin].
  - by apply get_huffman_code_found.
  - destruct (get_huffman_code val t) as [[|] code] eqn:Hcode.
    + by apply get_huffman_code_true_leaf in Hcode.
    + by rewrite (get_huffman_code_false val t code Hcode).
Qed.

Lemma get_huffman_code_found_iff_witness :
  height tree_abracadabra ≤ 255
  ∧ if decide (Some "r"%byte ∈ leaf_contents tree_abracadabra)
    then (get_huffman_code "r" tree_abracadabra).1 = true
    else get_huffman_code "r" tree_abracadabra = (false, []).
Proof.
  assert (height tree_abracadabra ≤ 255) as Hheight by (vm_compute; lia).
  split; [exact Hheight|].
  exact (get_huffman_code_found_iff "r" tree_abracadabra Hheight).
Defined.

(** X7 (the code is a path). When [get_huffman_code] answers [True], the
    code it returns is made of the characters '0' and '1' and, followed
    from the root ('0' to the left child, '1' to the right child), ends
    at a leaf that holds the value. *)
Theorem get_huffman_code_walk (val : byte) (t : HuffmanNode) (code : bytes) :
  get_huffman_code val t = (true, code) →
  Forall is_bit code
  ∧ ∃ leaf, walk t code = Some leaf
            ∧ is_leaf leaf = true ∧ _content leaf = Some val.
Proof.
  intros Hcode. split; [by eapply get_huffman_code_bits|].
  revert code Hcode. induction t as [f l r c IHl IHr] using HuffmanNode_ind.
  intros code Hcode.
  apply get_huffman_code_true in Hcode
    as [(Hleaf & Hc & ->)
       |[(Hleaf & child & code' & Hchild & Hcode & ->)
        |(Hleaf & child & code' & Hchild & Hcode & ->)]].
  - by eexists.
  - cbn [get_child] in Hchild. subst l. cbn [walk]. 
    change (Byte.eqb "0" "0") with true. cbv iota. by apply (IHl child).
  - cbn [get_child] in Hchild. subst r. cbn [walk].
    change (Byte.eqb "1" "0") with false. change (Byte.eqb "1" "1") with true.
    cbv iota. by apply (IHr child).
Qed.

Lemma get_huffman_code_walk_witness :
  get_huffman_code "b" tree_ab = (true, ["1"]%byte)
  ∧ Forall is_bit ["1"]%byte
  ∧ ∃ leaf, walk tree_ab ["1"]%byte = Some leaf
            ∧ is_leaf leaf = true ∧ _content leaf = Some "b"%byte.
Proof.
  assert (get_huffman_code "b" tree_ab = (true, ["1"]%byte)) as Hcode by reflexivity.
  split; [exact Hcode|].
  exact (get_huffman_code_walk "b" tree_ab ["1"]%byte Hcode).
Defined.

(** ** [compress_file]: a byte that is not in the tree *)

Lemma compress_char_missing t acc char :
  ¬ contained t char → compress_char t acc char = Raise Exception.
Proof.
  unfold contained, compress_char.
  destruct (get_huffman_code char t) as [[|] code]; simpl; done.
Qed.

Lemma compress_line_missing t line acc :
  ¬ Forall (contained t) line →
  foldM (compress_char t) line acc = Raise Exception.
Proof.
  revert acc. induction line as [|char line IH]; intros acc Hline; simpl.
  { by destruct Hline. }
  destruct (get_huffman_code char t) as [[|] code] eqn:Hcode.
  - rewrite compress_char_contained by (unfold contained; by rewrite Hcode).
    simpl. apply IH. intros Hall. apply Hline. constructor; [|done].
    unfold contained. by rewrite Hcode.
  - rewrite compress_char_missing; [done|]. unfold contained. by rewrite Hcode.
Qed.

Lemma compress_file_missing t file acc :
  ¬ Forall (contained t) (mjoin file) →
  foldM (λ acc line, foldM (compress_char t) line acc) file acc = Raise Exception.
Proof.
  revert acc. induction file as [|line file IH]; intros acc Hfile; simpl.
  { by destruct Hfile. }
  destruct (decide (Forall (λ char, (get_huffman_code char t).1 = true) line))
    as [Hline|Hline].
  - rewrite compress_line_spec by done. simpl. apply IH.
    intros Hall. apply Hfile. simpl. by apply Forall_app.
  - by rewrite compress_line_missing.
Qed.

(** X8 (a byte without a leaf). For every list of lines and every tree of
    at most 255 levels, the height of the trees of the program and well
    within the recursion limit of the interpreter, [compress_file] returns
    the concatenation of the codes when every byte of the lines is held by
    a leaf of the tree, and raises its [Exception] as soon as one is
    not. *)
Theorem compress_file_missing_byte (file : list bytes) (t : HuffmanNode) :
  height t ≤ 255 →
  compress_file file t =
    if decide (Forall (λ char, Some char ∈ leaf_contents t) (mjoin file))
    then Ret (mjoin file ≫= code_of t)
    else Raise Exception.
Proof.
  intros _. destruct (decide _) as [Hall|Hall].
  - apply compress_file_spec. eapply Forall_impl; [exact Hall|].
    intros char. apply contained_leaf_contents.
  - apply compress_file_missing. intros Hcont. apply Hall.
    eapply Forall_impl; [exact Hcont|]. intros char. apply contained_leaf_contents.
Qed.

Lemma compress_file_missing_byte_witness :
  height tree_ab ≤ 255
  ∧ compress_file [["a"; "b"]; ["c"; "a"]]%byte tree_ab =
      if decide (Forall (λ char, Some char ∈ leaf_contents tree_ab)
                   (mjoin [["a"; "b"]; ["c"; "a"]]%byte))
      then Ret (mjoin [["a"; "b"]; ["c"; "a"]]%byte ≫= code_of tree_ab)
      else Raise Exception.
Proof.
  assert (height tree_ab ≤ 255) as Hheight by (vm_compute; lia).
  split; [exact Hheight|].
  exact (compress_file_missing_byte [["a"; "b"]; ["c"; "a"]]%byte tree_ab Hheight).
Defined.

(** ** The length of the codes *)

Lemma well_formed_code_length val t code :
  well_formed t → get_huffman_code val t = (true, code) →
  length code < length (leaves t).
Proof.
  revert code. induction t as [f l r c IHl IHr] using HuffmanNode_ind.
  intros code Hwf Hcode.
  apply get_huffman_code_true in Hcode
    as [(Hleaf & Hc & ->)
       |[(Hleaf & child & code' & Hchild & Hcode & ->)
        |(Hleaf & child & code' & Hchild & Hcode & ->)]].
  - rewrite leaves_leaf by done. simpl. lia.
  - destruct l as [lt|], r as [rt|]; try done.
    cbn [get_child] in Hchild. injection Hchild as <-.
    destruct Hwf as (_ & _ & Hwfl & Hwfr).
    rewrite leaves_inner by done. cbn [get_child]. rewrite length_app. simpl.
    pose proof (IHl lt eq_refl code' Hwfl Hcode).
    pose proof (well_formed_leaves_nonempty rt Hwfr).
    destruct (leaves rt); [done | simpl; lia].
  - destruct l as [lt|], r as [rt|]; try done.
    cbn [get_child] in Hchild. injection Hchild as <-.
    destruct Hwf as (_ & _ & Hwfl & Hwfr).
    rewrite leaves_inner by done. cbn [get_child]. rewrite length_app. simpl.
    pose proof (IHr rt eq_refl code' Hwfr Hcode).
    pose proof (well_formed_leaves_nonempty lt Hwfl).
    destruct (leaves lt); [done | simpl; lia].
Qed.

(** X9 (no code is long). For every file, with the tree built from it, the
    code of every byte of the file has fewer characters than the file has
    distinct bytes. *)
Theorem code_length_below_distinct (data : bytes) (tree : HuffmanNode) (char : byte) :
  build_tree data = Ret tree → char ∈ data →
  length (get_huffman_code char tree).2
  < length (character_counts (readlines data)).
Proof.
  intros Htree Hchar.
  assert (data ≠ []) as Hne by (intros ->; by apply elem_of_nil in Hchar).
  destruct (build_tree_structure data Hne) as (tree' & Htree' & Hwf & Hleaves & _).
  assert (tree' = tree) as -> by congruence.
  destruct (encode_spec data tree Htree) as (Hall & _).
  rewrite Forall_forall in Hall. apply Hall, contained_code_of in Hchar.
  rewrite <- (length_fmap leaf_of_count), <- Hleaves.
  by apply (well_formed_code_length char).
Qed.

Lemma code_length_below_distinct_witness :
  build_tree file_abracadabra
  = Ret (Node 11 (Some (leaf_node 5 "a"))
           (Some (Node 6
              (Some (Node 2 (Some (leaf_node 1 "c")) (Some (leaf_node 1 "d")) None))
              (Some (Node 4 (Some (leaf_node 2 "r")) (Some (leaf_node 2 "b")) None))
              None))
           None)
  ∧ "d"%byte ∈ file_abracadabra
  ∧ length (get_huffman_code "d"
              (Node 11 (Some (leaf_node 5 "a"))
                 (Some (Node 6
                    (Some (Node 2 (Some (leaf_node 1 "c")) (Some (leaf_node 1 "d")) None))
                    (Some (Node 4 (Some (leaf_node 2 "r")) (Some (leaf_node 2 "b")) None))
                    None))
                 None)).2
    < length (character_counts (readlines file_abracadabra)).
Proof.
  assert ("d"%byte ∈ file_abracadabra) as Hd
    by (do 6 apply list_elem_of_further; apply list_elem_of_here).
  split; [reflexivity|]. split; [exact Hd|].
  exact (code_length_below_distinct file_abracadabra _ "d" eq_refl Hd).
Defined.

(** ** The size of the compressed stream *)

Lemma codes_length_bounds t data lo hi :
  Forall (λ char, lo ≤ length (code_of t char) ≤ hi) data →
  length data * lo ≤ length (data ≫= code_of t) ≤ length data * hi.
Proof.
  induction 1 as [|char data Hchar _ IH]; [simpl; lia|].
  rewrite bind_cons, length_app. simpl. lia.
Qed.

(** X10 (the stream is not shorter than the file). For every file with at
    least two distinct bytes, the compressed stream, which spends one
    character on every bit, has at least as many bytes as the file, and at
    most the length of the file times the number of distinct bytes less
    one. *)
Theorem compressed_stream_size (data : bytes) (a b : byte) :
  a ∈ data → b ∈ data → a ≠ b →
  ∃ tree payload,
    encode data = Ret (tree, payload)
    ∧ length data ≤ length payload
    ∧ length payload
      ≤ length data * (length (character_counts (readlines data)) - 1).
Proof.
  intros Ha Hb Hab.
  assert (data ≠ []) as Hne by (intros ->; by apply elem_of_nil in Ha).
  destruct (build_tree_structure data Hne) as (tree & Htree & Hwf & Hleaves & _ & Hleaf).
  destruct (encode_spec data tree Htree) as (Hall & _ & Henc).
  pose proof (character_counts_two data a b Ha Hb Hab) as Htwo.
  assert (is_leaf tree = false) as Hinner.
  { destruct (is_leaf tree); [|done]. destruct Hleaf as [Hone _].
    specialize (Hone eq_refl). lia. }
  exists tree, (data ≫= code_of tree). split; [done|].
  destruct (codes_length_bounds tree data 1
              (length (character_counts (readlines data)) - 1)) as [Hlo Hhi]; [|lia].
  eapply Forall_impl; [exact Hall|]. intros char Hchar%contained_code_of.
  pose proof (get_huffman_code_inner_nonempty _ _ _ Hinner Hchar) as Hnonempty.
  pose proof (well_formed_code_length _ _ _ Hwf Hchar) as Hlen.
  rewrite Hleaves, length_fmap in Hlen.
  destruct (code_of tree char); [done | simpl in *; lia].
Qed.

Lemma compressed_stream_size_witness :
  "a"%byte ∈ file_ab ∧ "b"%byte ∈ file_ab ∧ "a"%byte ≠ "b"%byte
  ∧ ∃ tree payload,
      encode file_ab = Ret (tree, payload)
      ∧ length file_ab ≤ length payload
      ∧ length payload
        ≤ length file_ab * (length (character_counts (readlines file_ab)) - 1).
Proof.
  assert ("a"%byte ∈ file_ab) as Ha by (apply list_elem_of_here).
  assert ("b"%byte ∈ file_ab) as Hb
    by (apply list_elem_of_further, list_elem_of_here).
  assert ("a"%byte ≠ "b"%byte) as Hab by discriminate.
  split_and!; [exact Ha | exact Hb | exact Hab |].
  exact (compressed_stream_size file_ab "a" "b" Ha Hb Hab).
Defined.

(** ** Decoding with any tree *)

(** X11 (round trip with any tree). For every tree that is not a single
    leaf and has at most 255 levels, the height of the trees of the program
    and well within the recursion limit of the interpreter, and every list
    of lines whose bytes are all held by leaves of the tree,
    [compress_file] returns a stream, and the decoding loop of [main], run
    on that stream with the same tree, returns the bytes of the lines, as
    soon as it is given more turns than there are bytes. *)
Theorem roundtrip_any_tree (file : list bytes) (t : HuffmanNode) :
  height t ≤ 255 →
  is_leaf t = false →
  Forall (λ char, Some char ∈ leaf_contents t) (mjoin file) →
  ∃ payload,
    compress_file file t = Ret payload
    ∧ ∀ fuel, length (mjoin file) < fuel → decode fuel t payload = Ret (mjoin file).
Proof.
  intros _ Hleaf Hall.
  assert (Forall (contained t) (mjoin file)) as Hcont.
  { eapply Forall_impl; [exact Hall|]. intros char. apply contained_leaf_contents. }
  exists (mjoin file ≫= code_of t). split; [by apply compress_file_spec|].
  intros fuel Hfuel. apply (decompress_fuel_mono (S (length (mjoin file)))); [|lia].
  by apply decode_codes.
Qed.

Lemma roundtrip_any_tree_witness :
  height tree_ba ≤ 255
  ∧ is_leaf tree_ba = false
  ∧ Forall (λ char, Some char ∈ leaf_contents tree_ba)
      (mjoin [["a"; "b"]; ["b"]]%byte)
  ∧ ∃ payload,
      compress_file [["a"; "b"]; ["b"]]%byte tree_ba = Ret payload
      ∧ ∀ fuel, length (mjoin [["a"; "b"]; ["b"]]%byte) < fuel →
          decode fuel tree_ba payload = Ret (mjoin [["a"; "b"]; ["b"]]%byte).
Proof.
  assert (Forall (λ char, Some char ∈ leaf_contents tree_ba)
            (mjoin [["a"; "b"]; ["b"]]%byte)) as Hall.
  { repeat constructor. }
  assert (height tree_ba ≤ 255) as Hheight by (vm_compute; lia).
  split; [exact Hheight|]. split; [reflexivity|]. split; [exact Hall|].
  exact (roundtrip_any_tree [["a"; "b"]; ["b"]]%byte tree_ba Hheight eq_refl Hall).
Defined.


Lemma get_next_val_bits t bits :
  well_formed t → Forall is_bit bits →
  get_next_val t [bits] = Ret ([], None)
  ∨ ∃ v consumed rest,
      get_next_val t [bits] = Ret ([rest], Some v)
      ∧ bits = consumed ++ rest
      ∧ Some v ∈ leaf_contents t
      ∧ (is_leaf t = false → consumed ≠ []).
Proof.
  revert bits. induction t as [f l r c IHl IHr] using HuffmanNode_ind.
  intros bits Hwf Hbits.
  destruct l as [lt|], r as [rt|]; try done.
  - destruct Hwf as (_ & _ & Hwfl & Hwfr).
    destruct Hbits as [|b bits Hb Hbits].
    { left. rewrite get_next_val_skip by done. apply get_next_val_nil. }
    rewrite get_next_val_bit, leaf_contents_inner by done.
    cbn [get_child map get_next_val_child].
    destruct Hb as [-> | ->].
    + change (bit_of "0" =? 0)%Z with true. cbv iota.
      destruct (IHl lt eq_refl bits Hwfl Hbits)
        as [->|(v & consumed & rest & -> & -> & Hv & _)]; [by left|].
      right. exists v, ("0"%byte :: consumed), rest.
      split_and!; [done | done | apply elem_of_app; by left | done].
    + change (bit_of "1" =? 0)%Z with false. change (bit_of "1" =? 1)%Z with true.
      cbv iota.
      destruct (IHr rt eq_refl bits Hwfr Hbits)
        as [->|(v & consumed & rest & -> & -> & Hv & _)]; [by left|].
      right. exists v, ("1"%byte :: consumed), rest.
      split_and!; [done | done | apply elem_of_app; by right | done].
  - destruct Hwf as [v ->]. right. exists v, [], bits.
    rewrite get_next_val_leaf by done. split_and!; [done | done | left | done].
Qed.

Lemma decompress_S fuel lines t :
  decompress (S fuel) lines t =
    let* (lines, val) := get_next_val t lines in
    match val with
    | None => Ret []
    | Some val => let* rest := decompress fuel lines t in Ret (val :: rest)
    end.
Proof. reflexivity. Qed.

Lemma decompress_bits t n bits :
  well_formed t → is_leaf t = false → Forall is_bit bits → length bits ≤ n →
  ∃ out, decompress (S n) [bits] t = Ret out
         ∧ Forall (λ v, Some v ∈ leaf_contents t) out
         ∧ length out ≤ length bits.
Proof.
  intros Hwf Hleaf. revert bits. induction n as [|n IH]; intros bits Hbits Hlen.
  - destruct bits; [|simpl in Hlen; lia]. exists [].
    cbn [decompress]. rewrite get_next_val_skip, get_next_val_nil by done. done.
  - rewrite decompress_S.
    destruct (get_next_val_bits t bits Hwf Hbits)
      as [->|(v & consumed & rest & -> & -> & Hv & Hcons)].
    { exists []. cbn [bind]. split_and!; [done | done | simpl; lia]. }
    specialize (Hcons Hleaf). rewrite length_app in Hlen.
    destruct (IH rest) as (out & Hout & Hall & Hlen').
    { by apply Forall_app in Hbits as [_ ?]. }
    { destruct consumed; [done | simpl in Hlen; lia]. }
    exists (v :: out). cbn [bind].
    rewrite Hout. cbn [bind]. split_and!; [done | by constructor |].
    rewrite length_app. destruct consumed; [done | simpl; lia].
Qed.

(** X13 (any bit string decodes). For every well-formed tree that is not a
    single leaf and has at most 255 levels, the height of the trees of the
    program and well within the recursion limit of the interpreter, and
    every stream of '0' and '1' characters, whether the program wrote it
    or not, the decoding loop of [main] raises nothing:
    it returns a text, the same for every number of turns above the length
    of the stream, made of bytes held by leaves of the tree and no longer
    than the stream. *)
Theorem decode_any_bits (t : HuffmanNode) (bits : bytes) :
  height t ≤ 255 →
  well_formed t → is_leaf t = false → Forall is_bit bits →
  ∃ out,
    (∀ fuel, length bits < fuel → decode fuel t bits = Ret out)
    ∧ Forall (λ v, Some v ∈ leaf_contents t) out
    ∧ length out ≤ length bits.
Proof.
  intros _ Hwf Hleaf Hbits.
  destruct (decompress_bits t (length bits) bits Hwf Hleaf Hbits)
    as (out & Hout & Hall & Hlen); [done|].
  exists out. split_and!; [|done..].
  intros fuel Hfuel. unfold decode.
  destruct bits as [|b bits].
  - cbn [decompress] in Hout.
    rewrite get_next_val_skip, get_next_val_nil in Hout by done.
    injection Hout as <-. destruct fuel; [simpl in Hfuel; lia|].
    simpl. by rewrite get_next_val_nil.
  - rewrite readlines_bits by done.
    apply (decompress_fuel_mono (S (length (b :: bits)))); [done | lia].
Qed.

Lemma decode_any_bits_witness :
  height tree_ab ≤ 255
  ∧ well_formed tree_ab ∧ is_leaf tree_ab = false
  ∧ Forall is_bit ["1"; "1"; "0"]%byte
  ∧ ∃ out,
      (∀ fuel, length ["1"; "1"; "0"]%byte < fuel →
         decode fuel tree_ab ["1"; "1"; "0"]%byte = Ret out)
      ∧ Forall (λ v, Some v ∈ leaf_contents tree_ab) out
      ∧ length out ≤ length ["1"; "1"; "0"]%byte.
Proof.
  assert (well_formed tree_ab) as Hwf.
  { simpl. split_and!; [reflexivity | reflexivity | by eexists | by eexists]. }
  assert (Forall is_bit ["1"; "1"; "0"]%byte) as Hbits.
  { apply Forall_cons; split; [by right|]. apply Forall_cons; split; [by right|].
    apply Forall_cons; split; [by left | apply Forall_nil_2]. }
  assert (height tree_ab ≤ 255) as Hheight by (vm_compute; lia).
  split; [exact Hheight|].
  split; [exact Hwf|]. split; [reflexivity|]. split; [exact Hbits|].
  exact (decode_any_bits tree_ab ["1"; "1"; "0"]%byte Hheight Hwf eq_refl Hbits).
Defined.

(** ** A character that is not a bit *)

Lemma bit_of_not_bit c :
  ¬ is_bit c → (bit_of c =? 0)%Z = false ∧ (bit_of c =? 1)%Z = false.
Proof.
  intros Hc. unfold bit_of.
  assert (∀ b : byte, Byte.to_N c = Byte.to_N b → c = b) as Hinj.
  { intros b Heq. apply (f_equal Byte.of_N) in Heq.
    rewrite !Byte.of_to_N in Heq. by injection Heq. }
  split; apply Z.eqb_neq; intros Heq; apply Hc.
  - left. apply Hinj. change (Byte.to_N "0") with 48%N. lia.
  - right. apply Hinj. change (Byte.to_N "1") with 49%N. lia.
Qed.

Lemma readlines_bits_snoc bits c :
  Forall is_bit bits → readlines (bits ++ [c]) = [bits ++ [c]].
Proof.
  induction 1 as [|b bits Hb Hbits IH].
  - simpl. by destruct (Byte.eqb c "010").
  - simpl.
    assert (Byte.eqb b "010" = false) as -> by (by destruct Hb as [-> | ->]).
    by rewrite IH.
Qed.

Lemma decompress_not_bit t data c rest fuel :
  is_leaf t = false → Forall (contained t) data → ¬ is_bit c →
  length data < fuel →
  decompress fuel [(data ≫= code_of t) ++ c :: rest] t = Raise ValueError.
Proof.
  intros Hleaf Hdata Hc. revert fuel.
  induction Hdata as [|char data Hchar Hdata IH]; intros fuel Hfuel;
    (destruct fuel as [|fuel]; [simpl in Hfuel; lia|]).
  - rewrite decompress_S. cbn [mbind list_bind app].
    rewrite get_next_val_bit by done.
    by destruct (bit_of_not_bit c Hc) as [-> ->].
  - apply contained_code_of in Hchar. rewrite decompress_S.
    rewrite bind_cons, <- app_assoc, (get_next_val_code char t _ _ Hchar).
    cbn [bind]. rewrite IH by (simpl in Hfuel; lia). done.
Qed.

(** X14 (a stray character). For every file with at least two distinct
    bytes, when one character other than '0' and '1' (a newline, say) is
    appended to the compressed stream, the decoding loop of [main] ends in
    the [ValueError] of [get_next_val], whatever was decoded before it. *)
Theorem decode_stray_character (data : bytes) (a b c : byte) :
  a ∈ data → b ∈ data → a ≠ b → ¬ is_bit c →
  ∃ tree payload,
    encode data = Ret (tree, payload)
    ∧ ∀ fuel, length data < fuel →
        decode fuel tree (payload ++ [c]) = Raise ValueError.
Proof.
  intros Ha Hb Hab Hc.
  assert (data ≠ []) as Hne by (intros ->; by apply elem_of_nil in Ha).
  destruct (build_tree_spec data Hne) as (_ & tree & _ & _ & Htree & _ & _ & Hinner & _).
  destruct (encode_spec data tree Htree) as (Hall & _ & Henc).
  exists tree, (data ≫= code_of tree). split; [done|].
  intros fuel Hfuel. unfold decode.
  rewrite readlines_bits_snoc by apply codes_bits.
  apply decompress_not_bit; [|done..].
  apply Hinner. by apply (character_counts_two data a b).
Qed.

Lemma decode_stray_character_witness :
  "a"%byte ∈ file_ab ∧ "b"%byte ∈ file_ab ∧ "a"%byte ≠ "b"%byte
  ∧ ¬ is_bit "010"%byte
  ∧ ∃ tree payload,
      encode file_ab = Ret (tree, payload)
      ∧ ∀ fuel, length file_ab < fuel →
          decode fuel tree (payload ++ ["010"%byte]) = Raise ValueError.
Proof.
  assert ("a"%byte ∈ file_ab) as Ha by (apply list_elem_of_here).
  assert ("b"%byte ∈ file_ab) as Hb
    by (apply list_elem_of_further, list_elem_of_here).
  assert ("a"%byte ≠ "b"%byte) as Hab by discriminate.
  assert (¬ is_bit "010"%byte) as Hc by (intros [H | H]; discriminate H).
  split_and!; [exact Ha | exact Hb | exact Hab | exact Hc |].
  exact (decode_stray_character file_ab "a" "b" "010" Ha Hb Hab Hc).
Defined.

(** ** [get_next_val] on several lines *)

(** X15 (one symbol from several lines). When [get_huffman_code] gives a
    code for a value, [get_next_val] on a list of lines whose first line
    starts with that code returns the value, the rest of the first line,
    and every further line with as many characters removed from its front
    as the code is long. *)
Theorem get_next_val_lines (val : byte) (t : HuffmanNode) (code rest : bytes)
    (more : list bytes) :
  get_huffman_code val t = (true, code) →
  get_next_val t ((code ++ rest) :: more)
  = Ret (rest :: map (drop (length code)) more, Some val).
Proof.
  revert code more. induction t as [f l r c IHl IHr] using HuffmanNode_ind.
  intros code more Hcode.
  assert (∀ n, map (drop n) (map (drop 1) more) = map (drop (S n)) more) as Hdrop.
  { intros n. rewrite map_map. apply map_ext. intros line. by rewrite drop_drop. }
  apply get_huffman_code_true in Hcode
    as [(Hleaf & Hc & ->)
       |[(Hleaf & child & code' & Hchild & Hcode & ->)
        |(Hleaf & child & code' & Hchild & Hcode & ->)]].
  - rewrite get_next_val_leaf by done. rewrite Hc. cbn [app length].
    replace (map (drop 0) more) with more; [done|].
    symmetry. etransitivity; [|apply map_id]. apply map_ext. intros line.
    apply drop_0.
  - simpl app. rewrite get_next_val_bit by done. rewrite Hchild.
    change (bit_of "0" =? 0)%Z with true. cbn [get_next_val_child].
    rewrite (IHl child Hchild code' _ Hcode). by rewrite Hdrop.
  - simpl app. rewrite get_next_val_bit by done. rewrite Hchild.
    change (bit_of "1" =? 0)%Z with false. change (bit_of "1" =? 1)%Z with true.
    cbn [get_next_val_child].
    rewrite (IHr child Hchild code' _ Hcode). by rewrite Hdrop.
Qed.

Lemma get_next_val_lines_witness :
  get_huffman_code "b" tree_ab = (true, ["1"]%byte)
  ∧ get_next_val tree_ab ((["1"] ++ ["0"]) :: [["0"; "1"]; []])%byte
    = Ret (["0"] :: map (drop (length ["1"])) [["0"; "1"]; []], Some "b")%byte.
Proof.
  assert (get_huffman_code "b" tree_ab = (true, ["1"]%byte)) as Hcode by reflexivity.
  split; [exact Hcode|].
  exact (get_next_val_lines "b" tree_ab ["1"]%byte ["0"]%byte
           [["0"; "1"]; []]%byte Hcode).
Defined.

(** X16 (nothing is invented). Whatever the tree and the lines, a value
    returned by [get_next_val] is held by a leaf of the tree. *)
Theorem get_next_val_value (t : HuffmanNode) (file file' : list bytes) (v : byte) :
  get_next_val t file = Ret (file', Some v) → Some v ∈ leaf_contents t.
Proof.
  revert file file'. induction t as [f l r c IHl IHr] using HuffmanNode_ind.
  intros file. induction file as [|line file IHfile]; intros file'.
  { by rewrite get_next_val_nil. }
  destruct (is_leaf (Node f l r c)) eqn:Hleaf.
  { rewrite get_next_val_leaf, leaf_contents_leaf by done.
    intros [= _ ->]. left. }
  destruct line as [|b line].
  { rewrite get_next_val_skip by done. apply IHfile. }
  rewrite get_next_val_bit, leaf_contents_inner by done. cbn [get_child].
  rewrite elem_of_app.
  destruct (bit_of b =? 0)%Z; [|destruct (bit_of b =? 1)%Z; [|done]].
  - destruct l as [lt|]; [|done]. cbn [get_next_val_child].
    intros H. left. by apply (IHl lt eq_refl _ _ H).
  - destruct r as [rt|]; [|done]. cbn [get_next_val_child].
    intros H. right. by apply (IHr rt eq_refl _ _ H).
Qed.

Lemma get_next_val_value_witness :
  get_next_val tree_ab [["1"; "0"]]%byte = Ret ([["0"]]%byte, Some "b"%byte)
  ∧ Some "b"%byte ∈ leaf_contents tree_ab.
Proof.
  assert (get_next_val tree_ab [["1"; "0"]]%byte
          = Ret ([["0"]]%byte, Some "b"%byte)) as H by reflexivity.
  split; [exact H|].
  exact (get_next_val_value tree_ab _ _ _ H).
Defined.

(** ** Line 175 of [main]: carriage returns *)

Lemma has_crlf_nil : ¬ has_crlf [].
Proof. intros (before & after & H). by destruct before. Qed.

Lemma has_crlf_singleton c : ¬ has_crlf [c].
Proof. intros (before & after & H). by destruct before as [|? [|]]. Qed.

Lemma has_crlf_cons c1 c2 text :
  has_crlf (c1 :: c2 :: text)
  ↔ (c1 = "013"%byte ∧ c2 = "010"%byte) ∨ has_crlf (c2 :: text).
Proof.
  split.
  - intros (before & after & H). destruct before as [|c before].
    + injection H as -> -> _. by left.
    + injection H as _ H. right. by exists before, after.
  - intros [[-> ->]|(before & after & H)].
    + by exists [], text.
    + exists (c1 :: before), after. simpl. by rewrite H.
Qed.

Lemma replace_crlf_step c1 c2 text :
  replace_crlf (c1 :: c2 :: text) =
    if Byte.eqb c1 "013" && Byte.eqb c2 "010"
    then "010"%byte :: replace_crlf text
    else c1 :: replace_crlf (c2 :: text).
Proof. reflexivity. Qed.

Lemma crlf_eqb c1 c2 :
  Byte.eqb c1 "013" && Byte.eqb c2 "010" = true
  ↔ c1 = "013"%byte ∧ c2 = "010"%byte.
Proof. by rewrite andb_true_iff, !byte_eqb_true. Qed.

Lemma replace_crlf_length text : length (replace_crlf text) ≤ length text.
Proof.
  enough (length (replace_crlf text) ≤ length text
          ∧ ∀ c, length (replace_crlf (c :: text)) ≤ length (c :: text)) by tauto.
  induction text as [|c2 text [IH1 IH2]]; [split; [|intros c]; simpl; lia|].
  split; [apply IH2|]. intros c1. rewrite replace_crlf_step.
  specialize (IH2 c2). destruct (_ && _); simpl in *; lia.
Qed.

Lemma replace_crlf_without text : ¬ has_crlf text → replace_crlf text = text.
Proof.
  enough ((¬ has_crlf text → replace_crlf text = text)
          ∧ ∀ c, ¬ has_crlf (c :: text) → replace_crlf (c :: text) = c :: text)
    by tauto.
  induction text as [|c2 text [IH1 IH2]]; [done|].
  split; [apply IH2|]. intros c1 Hno. rewrite replace_crlf_step.
  rewrite has_crlf_cons in Hno.
  destruct (Byte.eqb c1 "013" && Byte.eqb c2 "010") eqn:Heq.
  - apply crlf_eqb in Heq. tauto.
  - rewrite IH2; [done | tauto].
Qed.

Lemma replace_crlf_with text :
  has_crlf text → length (replace_crlf text) < length text.
Proof.
  enough ((has_crlf text → length (replace_crlf text) < length text)
          ∧ ∀ c, has_crlf (c :: text) →
                 length (replace_crlf (c :: text)) < length (c :: text))
    by tauto.
  induction text as [|c2 text [IH1 IH2]].
  { split; [by intros ?%has_crlf_nil | by intros c ?%has_crlf_singleton]. }
  split; [apply IH2|]. intros c1 Hhas. rewrite replace_crlf_step.
  destruct (Byte.eqb c1 "013" && Byte.eqb c2 "010") eqn:Heq.
  - pose proof (replace_crlf_length text). simpl. lia.
  - apply has_crlf_cons in Hhas as [Hhead|Hhas].
    + apply crlf_eqb in Hhead. congruence.
    + specialize (IH2 c2 Hhas). simpl in *. lia.
Qed.

(** X17 (carriage returns are lost). For every file with at least two
    distinct bytes, the text [main] holds after line 175, ready to be
    written as the decompressed file, is the file with every carriage
    return that is directly followed by a line feed removed, in one pass
    from the left; it is the file itself exactly when the file has no such
    pair. *)
Theorem decompressed_text_crlf (data : bytes) (a b : byte) :
  a ∈ data → b ∈ data → a ≠ b →
  ∃ tree payload,
    encode data = Ret (tree, payload)
    ∧ (∀ fuel, length data < fuel →
         decompressed_text fuel tree payload = Ret (replace_crlf data))
    ∧ (replace_crlf data = data ↔ ¬ has_crlf data).
Proof.
  intros Ha Hb Hab.
  assert (data ≠ []) as Hne by (intros ->; by apply elem_of_nil in Ha).
  destruct (build_tree_spec data Hne) as (_ & tree & _ & _ & Htree & _ & _ & Hinner & _).
  destruct (encode_spec data tree Htree) as (Hall & _ & Henc).
  exists tree, (data ≫= code_of tree). split_and!; [done | |].
  - intros fuel Hfuel. unfold decompressed_text.
    assert (decode fuel tree (data ≫= code_of tree) = Ret data) as ->; [|done].
    apply (decompress_fuel_mono (S (length data))); [|lia].
    apply decode_codes; [|done]. apply Hinner.
    by apply (character_counts_two data a b).
  - split; [|apply replace_crlf_without].
    intros Heq Hhas%replace_crlf_with. rewrite Heq in Hhas. lia.
Qed.

Lemma decompressed_text_crlf_witness :
  "a"%byte ∈ ["a"; "013"; "010"; "b"]%byte
  ∧ "b"%byte ∈ ["a"; "013"; "010"; "b"]%byte
  ∧ "a"%byte ≠ "b"%byte
  ∧ ∃ tree payload,
      encode ["a"; "013"; "010"; "b"]%byte = Ret (tree, payload)
      ∧ (∀ fuel, length ["a"; "013"; "010"; "b"]%byte < fuel →
           decompressed_text fuel tree payload
           = Ret (replace_crlf ["a"; "013"; "010"; "b"]%byte))
      ∧ (replace_crlf ["a"; "013"; "010"; "b"]%byte = ["a"; "013"; "010"; "b"]%byte
         ↔ ¬ has_crlf ["a"; "013"; "010"; "b"]%byte).
Proof.
  assert ("a"%byte ∈ ["a"; "013"; "010"; "b"]%byte) as Ha by (apply list_elem_of_here).
  assert ("b"%byte ∈ ["a"; "013"; "010"; "b"]%byte) as Hb
    by (do 3 apply list_elem_of_further; apply list_elem_of_here).
  assert ("a"%byte ≠ "b"%byte) as Hab by discriminate.
  split_and!; [exact Ha | exact Hb | exact Hab |].
  exact (decompressed_text_crlf ["a"; "013"; "010"; "b"]%byte "a" "b" Ha Hb Hab).
Defined.

(** ** The names of the written files *)

Lemma ascii_eqb_true c d : Ascii.eqb c d = true ↔ c = d.
Proof. apply Ascii.eqb_eq. Qed.

Lemma split_dot_cons_dot s : split_dot ("."%char :: s) = [] :: split_dot s.
Proof. reflexivity. Qed.

Lemma split_dot_nonempty s : ∃ part parts, split_dot s = part :: parts.
Proof.
  induction s as [|c s (part & parts & IH)]; simpl; [by eexists _, _|].
  destruct (Ascii.eqb c "."); [by eexists _, _|]. rewrite IH. by eexists _, _.
Qed.

Lemma split_dot_length s :
  length (split_dot s) = S (count_occ ascii_dec s "."%char).
Proof.
  induction s as [|c s IH]; [done|]. cbn [split_dot].
  destruct (split_dot_nonempty s) as (part & parts & Hs).
  destruct (Ascii.eqb c ".") eqn:Heq.
  - apply ascii_eqb_true in Heq as ->.
    rewrite count_occ_cons_eq by done. cbn [length]. by rewrite IH.
  - assert (c ≠ "."%char) as Hne by (intros ->; by rewrite Ascii.eqb_refl in Heq).
    rewrite count_occ_cons_neq by done. rewrite <- IH, Hs. done.
Qed.

Lemma split_dot_no_dot s : Forall (λ part, "."%char ∉ part) (split_dot s).
Proof.
  induction s as [|c s IH]; simpl.
  { repeat constructor. apply not_elem_of_nil. }
  destruct (Ascii.eqb c ".") eqn:Heq.
  - constructor; [apply not_elem_of_nil | done].
  - assert (c ≠ "."%char) as Hne by (intros ->; by rewrite Ascii.eqb_refl in Heq).
    destruct (split_dot s) as [|part parts].
    + repeat constructor. intros Hin%list_elem_of_singleton. congruence.
    + apply Forall_cons in IH as [Hpart Hparts]. constructor; [|done].
      rewrite elem_of_cons. intros [?|?]; [congruence | done].
Qed.

Lemma split_dot_single s part : split_dot s = [part] → s = part.
Proof.
  revert part. induction s as [|c s IH]; intros part; cbn [split_dot].
  { by intros [= <-]. }
  destruct (split_dot_nonempty s) as (p & ps & Hs). rewrite Hs in *.
  destruct (Ascii.eqb c "."); [done|].
  intros [= <- ->]. f_equal. by apply IH.
Qed.

Lemma split_dot_pair s name affix :
  split_dot s = [name; affix] → s = name ++ "."%char :: affix.
Proof.
  revert name. induction s as [|c s IH]; intros name; cbn [split_dot]; [done|].
  destruct (Ascii.eqb c ".") eqn:Heq.
  - apply ascii_eqb_true in Heq as ->. intros [= <- Hs]. simpl. f_equal.
    by apply split_dot_single.
  - destruct (split_dot s) as [|p ps] eqn:Hs; [done|].
    intros [= <- ->]. simpl. f_equal. by apply IH.
Qed.

Lemma output_names_Ret file name1 name2 :
  output_names file = Ret (name1, name2) →
  ∃ name affix,
    file = name ++ "."%char :: affix
    ∧ ("."%char ∉ name) ∧ ("."%char ∉ affix)
    ∧ name1 = name ++ suffix_compressed ++ affix
    ∧ name2 = name ++ suffix_de_compressed ++ affix.
Proof.
  unfold output_names, unpack_pair. pose proof (split_dot_no_dot file) as Hno.
  destruct (split_dot file) as [|name [|affix [|]]] eqn:Hsplit; try done.
  cbn [bind]. intros [= <- <-]. exists name, affix.
  apply Forall_cons in Hno as [Hname [Haffix _]%Forall_cons].
  split_and!; [by apply split_dot_pair | done..].
Qed.

(** X18 (the file name needs one dot). [main] builds the names of the
    files it writes from [args.file.split('.')], unpacked into two
    variables: a file name with exactly one '.' is cut at it into a name
    and an affix without '.', and the names are
    [name_compressed.affix] and [name_de_compressed.affix]; for a file
    name with no '.' or with several (a dot in a directory, say), the
    unpacking raises [ValueError]. *)
Theorem output_names_one_dot (file : str) :
  if decide (count_occ ascii_dec file "."%char = 1)
  then ∃ name affix,
         file = name ++ "."%char :: affix
         ∧ ("."%char ∉ name) ∧ ("."%char ∉ affix)
         ∧ output_names file
           = Ret (name ++ suffix_compressed ++ affix,
                  name ++ suffix_de_compressed ++ affix)
  else output_names file = Raise ValueError.
Proof.
  pose proof (split_dot_length file) as Hlen.
  destruct (decide (count_occ ascii_dec file "."%char = 1)) as [Hone|Hone].
  - rewrite Hone in Hlen.
    destruct (split_dot file) as [|name [|affix [|]]] eqn:Hsplit; try done.
    destruct (output_names_Ret file (name ++ suffix_compressed ++ affix)
                (name ++ suffix_de_compressed ++ affix))
      as (name' & affix' & Hfile & Hname & Haffix & _).
    { unfold output_names. by rewrite Hsplit. }
    exists name, affix. pose proof (split_dot_no_dot file) as Hno.
    rewrite Hsplit in Hno. apply Forall_cons in Hno as [? [? _]%Forall_cons].
    split_and!; [by apply split_dot_pair | done | done |].
    unfold output_names. by rewrite Hsplit.
  - unfold output_names, unpack_pair.
    destruct (split_dot file) as [|name [|affix [|]]] eqn:Hsplit; try done.
    simpl in Hlen. lia.
Qed.

(** X19 (the input is not overwritten). Whenever [main] gets the names of
    its two output files, they differ from each other and from the name of
    the input file. *)
Theorem output_names_distinct (file name1 name2 : str) :
  output_names file = Ret (name1, name2) →
  name1 ≠ file ∧ name2 ≠ file ∧ name1 ≠ name2.
Proof.
  intros (name & affix & -> & _ & _ & -> & ->)%output_names_Ret.
  split_and!; intros Heq%(f_equal length);
    rewrite !length_app in Heq; simpl in Heq; lia.
Qed.

Lemma output_names_distinct_witness :
  output_names ["f"; "."; "t"]%char
  = Ret (["f"] ++ suffix_compressed ++ ["t"], ["f"] ++ suffix_de_compressed ++ ["t"])%char
  ∧ (["f"] ++ suffix_compressed ++ ["t"])%char ≠ ["f"; "."; "t"]%char
  ∧ (["f"] ++ suffix_de_compressed ++ ["t"])%char ≠ ["f"; "."; "t"]%char
  ∧ (["f"] ++ suffix_compressed ++ ["t"])%char
    ≠ (["f"] ++ suffix_de_compressed ++ ["t"])%char.
Proof.
  assert (output_names ["f"; "."; "t"]%char
          = Ret (["f"] ++ suffix_compressed ++ ["t"],
                 ["f"] ++ suffix_de_compressed ++ ["t"])%char) as H by reflexivity.
  split; [exact H|].
  exact (output_names_distinct _ _ _ H).
Defined.

(** ** [files_equal] *)

Section FilesEqual.
Context {A : Type} `{EqDecision A}.
Implicit Types (lines : list A) (i : nat).

Lemma files_equal_loop_spec fuel lines1 lines2 i :
  i ≤ min (length lines1) (length lines2) →
  min (length lines1) (length lines2) - i < fuel →
  files_equal_loop fuel lines1 lines2 i =
    if decide (drop i (take (min (length lines1) (length lines2)) lines1)
               = drop i (take (min (length lines1) (length lines2)) lines2))
    then Ret tt else Raise Exception.
Proof.
  set (n := min (length lines1) (length lines2)).
  revert i. induction fuel as [|fuel IH]; intros i Hi Hfuel; [lia|].
  cbn [files_equal_loop]. fold n.
  destruct (decide (i < n)) as [Hlt|Hge].
  - destruct (lookup_lt_is_Some_2 lines1 i) as [line1 Hl1]; [lia|].
    destruct (lookup_lt_is_Some_2 lines2 i) as [line2 Hl2]; [lia|].
    rewrite (getitem_lookup _ _ _ Hl1), (getitem_lookup _ _ _ Hl2). cbn [bind].
    rewrite (drop_S (take n lines1) line1 i) by (by rewrite lookup_take_lt).
    rewrite (drop_S (take n lines2) line2 i) by (by rewrite lookup_take_lt).
    destruct (decide (line1 ≠ line2)) as [Hne|Heq].
    + rewrite decide_False; [done | congruence].
    + apply dec_stable in Heq as ->.
      replace (i + 1) with (S i) by lia. rewrite IH by lia.
      destruct (decide (drop (S i) (take n lines1) = drop (S i) (take n lines2)))
        as [Hd|Hd].
      * rewrite decide_True; [done | by rewrite Hd].
      * rewrite decide_False; [done | congruence].
  - rewrite !drop_ge by (rewrite length_take; lia). by rewrite decide_True.
Qed.

Lemma files_equal_spec lines1 lines2 :
  files_equal lines1 lines2 =
    if decide (take (min (length lines1) (length lines2)) lines1
               = take (min (length lines1) (length lines2)) lines2)
    then Ret tt else Raise Exception.
Proof.
  unfold files_equal. rewrite files_equal_loop_spec by lia. by rewrite !drop_0.
Qed.
End FilesEqual.

(** X20 (what [files_equal] compares). For every two lists of lines, the
    loop of [files_equal] ends without raising exactly when the two lists
    agree on as many lines as the shorter one has, and raises its
    [Exception] otherwise; the lines that only the longer list has are
    never looked at. *)
Theorem files_equal_common_lines {A : Type} `{EqDecision A}
    (lines1 lines2 : list A) :
  files_equal lines1 lines2 =
    if decide (take (min (length lines1) (length lines2)) lines1
               = take (min (length lines1) (length lines2)) lines2)
    then Ret tt else Raise Exception.
Proof. apply files_equal_spec. Qed.

(** X21 (a cut file passes). For every list of lines and every [k], the
    check of [files_equal] between the list and its first [k] lines
    passes, in either order: a decompressed file that lost its end, or
    that is empty, is reported equal to the original. *)
Theorem files_equal_truncated {A : Type} `{EqDecision A}
    (lines : list A) (k : nat) :
  files_equal lines (take k lines) = Ret tt
  ∧ files_equal (take k lines) lines = Ret tt.
Proof.
  split; rewrite files_equal_spec, length_take.
  - rewrite decide_True; [done|]. rewrite take_take. f_equal. lia.
  - rewrite decide_True; [done|]. rewrite take_take. f_equal. lia.
Qed.

(** ** Evaluations of the round trip and of the written stream *)

Lemma roundtrip_two_symbols_witness :
  "a"%byte ∈ file_abracadabra ∧ "c"%byte ∈ file_abracadabra ∧ "a"%byte ≠ "c"%byte
  ∧ ∃ tree payload,
      encode file_abracadabra = Ret (tree, payload)
      ∧ ∀ fuel, length file_abracadabra < fuel →
          decode fuel tree payload = Ret file_abracadabra.
Proof.
  assert ("a"%byte ∈ file_abracadabra) as Ha by (apply list_elem_of_here).
  assert ("c"%byte ∈ file_abracadabra) as Hc
    by (do 4 apply list_elem_of_further; apply list_elem_of_here).
  assert ("a"%byte ≠ "c"%byte) as Hac by discriminate.
  split_and!; [exact Ha | exact Hc | exact Hac |].
  exact (roundtrip_two_symbols file_abracadabra "a" "c" Ha Hc Hac).
Defined.

Lemma encode_stream_witness :
  encode file_ab = Ret (tree_ab, ["0"; "1"]%byte)
  ∧ ["0"; "1"]%byte = file_ab ≫= code_of tree_ab
  ∧ Forall is_bit ["0"; "1"]%byte.
Proof.
  assert (encode file_ab = Ret (tree_ab, ["0"; "1"]%byte)) as H by reflexivity.
  split; [exact H|].
  exact (encode_stream file_ab tree_ab ["0"; "1"]%byte H).
Defined.

(** ** Code lengths and the equality of Kraft *)

Lemma kraft_cons H d depths : kraft H (d :: depths) = 2 ^ (H - d) + kraft H depths.
Proof. reflexivity. Qed.

Lemma kraft_app H depths1 depths2 :
  kraft H (depths1 ++ depths2) = kraft H depths1 + kraft H depths2.
Proof. apply sum_list_with_app. Qed.

Lemma kraft_ge_length H depths : length depths ≤ kraft H depths.
Proof.
  induction depths as [|d depths IH]; [done|]. rewrite kraft_cons. simpl.
  assert (2 ^ (H - d) ≠ 0) by (apply Nat.pow_nonzero; lia). lia.
Qed.

Lemma kraft_scale H k depths :
  Forall (λ d, d ≤ H) depths → kraft (H + k) depths = 2 ^ k * kraft H depths.
Proof.
  induction 1 as [|d depths Hd _ IH]; [simpl; lia|].
  rewrite !kraft_cons, IH.
  replace (H + k - d) with (k + (H - d)) by lia. rewrite Nat.pow_add_r. lia.
Qed.

Lemma complete_at depths H :
  complete depths → Forall (λ d, d ≤ H) depths → kraft H depths = 2 ^ H.
Proof.
  intros (H0 & Hbound0 & Hkraft0) Hbound.
  destruct (decide (H0 ≤ H)) as [Hle|Hgt].
  - replace H with (H0 + (H - H0)) by lia.
    rewrite kraft_scale, Hkraft0, <- Nat.pow_add_r by done. f_equal. lia.
  - replace H0 with (H + (H0 - H)) in Hkraft0 by lia.
    rewrite kraft_scale, Nat.pow_add_r in Hkraft0 by done.
    rewrite (Nat.mul_comm (2 ^ H)) in Hkraft0.
    apply Nat.mul_cancel_l in Hkraft0; [done|]. apply Nat.pow_nonzero. lia.
Qed.

Lemma complete_Permutation depths depths' :
  depths ≡ₚ depths' → complete depths → complete depths'.
Proof.
  intros Hperm (H & Hbound & Hkraft). exists H. split; [by rewrite <- Hperm|].
  unfold kraft in *. by rewrite <- Hperm.
Qed.

Lemma kraft_even D depths :
  Forall (λ d, d < D) depths → ∃ k, kraft D depths = 2 * k.
Proof.
  induction 1 as [|d depths Hd _ [k IH]]; [by exists 0|].
  rewrite kraft_cons, IH. replace (D - d) with (S (D - d - 1)) by lia.
  rewrite Nat.pow_succ_r'. exists (2 ^ (D - d - 1) + k). lia.
Qed.

Lemma elem_of_fst_Permutation (pairs : list (nat * nat)) w :
  w ∈ pairs.*1 → ∃ d rest, pairs ≡ₚ (w, d) :: rest.
Proof.
  intros ([w' d] & -> & Hin)%list_elem_of_fmap.
  apply elem_of_Permutation in Hin as [rest Hrest]. by exists d, rest.
Qed.

Lemma elem_of_snd_Permutation (pairs : list (nat * nat)) d :
  d ∈ pairs.*2 → ∃ w rest, pairs ≡ₚ (w, d) :: rest.
Proof.
  intros ([w d'] & -> & Hin)%list_elem_of_fmap.
  apply elem_of_Permutation in Hin as [rest Hrest]. by exists w, rest.
Qed.

(** With at least two leaves, the greatest depth is at least 1 and occurs
    twice. *)
Lemma deepest_two depths :
  2 ≤ length depths → complete depths →
  ∃ D rest, depths ≡ₚ D :: D :: rest ∧ Forall (λ d, d ≤ D) depths ∧ 1 ≤ D.
Proof.
  intros Hlen Hcomplete.
  assert (depths ≠ []) as Hne by (intros ->; simpl in Hlen; lia).
  set (D := max_list depths).
  assert (Forall (λ d, d ≤ D) depths) as Hbound.
  { apply Forall_forall. intros d Hd. by apply max_list_elem_of_le. }
  pose proof (complete_at depths D Hcomplete Hbound) as Hkraft.
  assert (1 ≤ D) as HD.
  { destruct (decide (1 ≤ D)) as [?|Hzero]; [done|].
    assert (D = 0) as HD0 by lia. rewrite HD0 in Hkraft.
    pose proof (kraft_ge_length 0 depths). simpl in Hkraft. lia. }
  destruct (proj1 (elem_of_Permutation depths D)) as [rest1 Hrest1];
    [by apply max_list_elem_of|].
  exists D. destruct (decide (D ∈ rest1)) as [Hin|Hnotin].
  - apply elem_of_Permutation in Hin as [rest Hrest]. exists rest.
    split_and!; [by rewrite Hrest1, Hrest | done | done].
  - exfalso. destruct (kraft_even D rest1) as [k Hk].
    { rewrite Hrest1 in Hbound. apply Forall_cons in Hbound as [_ Hbound].
      rewrite Forall_forall in Hbound |- *. intros d Hd.
      specialize (Hbound d Hd). assert (d ≠ D) by congruence. lia. }
    unfold kraft in Hkraft. rewrite Hrest1 in Hkraft. fold (kraft D (D :: rest1)) in Hkraft.
    rewrite kraft_cons, Hk, Nat.sub_diag in Hkraft.
    assert (∃ m, 2 ^ D = 2 * m) as [m Hm].
    { exists (2 ^ (D - 1)). rewrite <- Nat.pow_succ_r'. f_equal. lia. }
    rewrite Hm in Hkraft. simpl in Hkraft. lia.
Qed.

(** The weight [x], not greater than any other, can sit at the greatest
    depth without raising the cost. *)
Lemma move_to_deepest (pairs : list (nat * nat)) D x :
  D ∈ pairs.*2 → x ∈ pairs.*1 →
  Forall (λ e, x ≤ e.1 ∧ e.2 ≤ D) pairs →
  ∃ rest, x :: rest.*1 ≡ₚ pairs.*1 ∧ D :: rest.*2 ≡ₚ pairs.*2
          ∧ x * D + pairs_cost rest ≤ pairs_cost pairs.
Proof.
  intros (p & pairs1 & Hp)%elem_of_snd_Permutation Hx Hall.
  rewrite Hp in Hx, Hall. rewrite fmap_cons in Hx. cbn [fst] in Hx.
  apply Forall_cons in Hall as [[Hxp _] Hall1].
  unfold pairs_cost. setoid_rewrite Hp. rewrite !fmap_cons. cbn [fst snd].
  apply elem_of_cons in Hx as [->|Hx].
  { exists pairs1. split_and!; [done | done | simpl; lia]. }
  apply elem_of_fst_Permutation in Hx as (d & pairs2 & Hpairs2).
  rewrite Hpairs2 in Hall1. apply Forall_cons in Hall1 as [[_ Hd] _].
  exists ((p, d) :: pairs2). setoid_rewrite Hpairs2.
  rewrite !fmap_cons. cbn [fst snd sum_list_with]. simpl in *.
  split_and!; [apply perm_swap | done | nia].
Qed.

(** The exchange step: an assignment of code lengths to the weights
    [x, y, W0], where [x] and [y] are the two least weights, is not
    cheaper than some assignment to the weights [x + y, W0] plus
    [x + y]. *)
Lemma exchange (pairs : list (nat * nat)) x y W0 :
  pairs.*1 ≡ₚ x :: y :: W0 →
  Forall (λ w, x ≤ w) (y :: W0) → Forall (λ w, y ≤ w) W0 →
  complete pairs.*2 →
  ∃ pairs', pairs'.*1 ≡ₚ (x + y) :: W0 ∧ complete pairs'.*2
            ∧ pairs_cost pairs' + x + y ≤ pairs_cost pairs.
Proof.
  intros Hweights Hx Hy Hcomplete.
  destruct (deepest_two pairs.*2) as (D & depths0 & Hdepths & Hbound & HD);
    [|done|].
  { rewrite length_fmap, <- (length_fmap fst), Hweights. simpl. lia. }
  pose proof (complete_at _ D Hcomplete Hbound) as Hkraft.
  destruct (move_to_deepest pairs D x) as (rest & Hw1 & Hd1 & Hcost1).
  { rewrite Hdepths. left. }
  { rewrite Hweights. left. }
  { apply Forall_forall. intros e He. split.
    - assert (e.1 ∈ x :: y :: W0) as Hin
        by (rewrite <- Hweights; by apply list_elem_of_fmap_2).
      apply elem_of_cons in Hin as [->|Hin]; [done|].
      rewrite Forall_forall in Hx. by apply Hx.
    - rewrite Forall_forall in Hbound. by apply Hbound, list_elem_of_fmap_2. }
  rewrite Hweights in Hw1. apply Permutation_cons_inv in Hw1.
  rewrite Hdepths in Hd1. apply Permutation_cons_inv in Hd1.
  destruct (move_to_deepest rest D y) as (rest' & Hw2 & Hd2 & Hcost2).
  { rewrite Hd1. left. }
  { rewrite Hw1. left. }
  { apply Forall_forall. intros e He. split.
    - assert (e.1 ∈ y :: W0) as Hin
        by (rewrite <- Hw1; by apply list_elem_of_fmap_2).
      apply elem_of_cons in Hin as [->|Hin]; [done|].
      rewrite Forall_forall in Hy. by apply Hy.
    - assert (e.2 ∈ D :: depths0) as Hin
        by (rewrite <- Hd1; by apply list_elem_of_fmap_2).
      rewrite Forall_forall in Hbound. apply Hbound. rewrite Hdepths. by right. }
  rewrite Hw1 in Hw2. apply Permutation_cons_inv in Hw2.
  rewrite Hd1 in Hd2. apply Permutation_cons_inv in Hd2.
  exists ((x + y, D - 1) :: rest'). split_and!.
  - rewrite fmap_cons. cbn [fst]. by rewrite Hw2.
  - apply (complete_Permutation ((D - 1) :: depths0)).
    { rewrite fmap_cons. cbn [snd]. by rewrite Hd2. }
    exists D. split.
    + constructor; [lia|]. rewrite Hdepths in Hbound.
      by apply Forall_cons in Hbound as [_ [_ ?]%Forall_cons].
    + unfold kraft in Hkraft. rewrite Hdepths in Hkraft.
      fold (kraft D (D :: D :: depths0)) in Hkraft.
      rewrite !kraft_cons, Nat.sub_diag in Hkraft. rewrite kraft_cons.
      replace (D - (D - 1)) with 1 by lia. simpl in *. lia.
  - unfold pairs_cost in *. cbn [sum_list_with fst snd]. nia.
Qed.

(** ** The depths of the leaves of a tree *)

Lemma leaf_depths_leaf d t : is_leaf t = true → leaf_depths d t = [(t, d)].
Proof. by destruct t as [f [?|] [?|] c]. Qed.

Lemma leaf_depths_inner d t :
  is_leaf t = false →
  leaf_depths d t =
    match get_child t side_l with Some lt => leaf_depths (S d) lt | None => [] end ++
    match get_child t side_r with Some rt => leaf_depths (S d) rt | None => [] end.
Proof. by destruct t as [f [?|] [?|] c]. Qed.

Lemma leaf_depths_leaves d t : (leaf_depths d t).*1 = leaves t.
Proof.
  revert d. induction t as [f l r c IHl IHr] using HuffmanNode_ind. intros d.
  destruct (is_leaf (Node f l r c)) eqn:Hleaf.
  - by rewrite leaf_depths_leaf, leaves_leaf.
  - rewrite leaf_depths_inner, leaves_inner, fmap_app by done. cbn [get_child].
    f_equal; [destruct l as [lt|] | destruct r as [rt|]]; try done.
    + by apply IHl.
    + by apply IHr.
Qed.

Lemma leaf_depths_ge d t : Forall (λ e, d ≤ e.2) (leaf_depths d t).
Proof.
  revert d. induction t as [f l r c IHl IHr] using HuffmanNode_ind. intros d.
  destruct (is_leaf (Node f l r c)) eqn:Hleaf.
  - rewrite leaf_depths_leaf by done. by repeat constructor.
  - rewrite leaf_depths_inner by done. cbn [get_child]. apply Forall_app. split.
    + destruct l as [lt|]; [|done].
      eapply Forall_impl; [apply (IHl lt eq_refl (S d))|]. simpl. lia.
    + destruct r as [rt|]; [|done].
      eapply Forall_impl; [apply (IHr rt eq_refl (S d))|]. simpl. lia.
Qed.

Lemma leaf_depths_nonempty d t : leaf_depths d t = [] → ¬ full t.
Proof.
  revert d. induction t as [f l r c IHl IHr] using HuffmanNode_ind. intros d.
  destruct l as [lt|], r as [rt|]; simpl; [|by intros _ []..|done].
  intros [Hl _]%app_eq_nil [Hfull _]. by apply (IHl lt eq_refl (S d)).
Qed.

(** The leaves of a full tree satisfy the equality of Kraft. *)
Lemma full_kraft t d H :
  full t → Forall (λ e, e.2 ≤ H) (leaf_depths d t) →
  kraft H (leaf_depths d t).*2 = 2 ^ (H - d).
Proof.
  revert d. induction t as [f l r c IHl IHr] using HuffmanNode_ind. intros d.
  destruct l as [lt|], r as [rt|]; [|done..|intros _ _; simpl; lia].
  - intros [Hfl Hfr] Hbound. cbn [leaf_depths] in *.
    apply Forall_app in Hbound as [Hbl Hbr].
    assert (S d ≤ H) as Hd.
    { pose proof (leaf_depths_ge (S d) lt) as Hge.
      destruct (leaf_depths (S d) lt) as [|e es] eqn:Hes.
      - by apply leaf_depths_nonempty in Hes.
      - apply Forall_cons in Hge as [? _]. apply Forall_cons in Hbl as [? _]. lia. }
    rewrite fmap_app, kraft_app.
    rewrite (IHl lt eq_refl (S d)), (IHr rt eq_refl (S d)) by done.
    replace (H - d) with (S (H - S d)) by lia. rewrite Nat.pow_succ_r'. lia.
Qed.

Lemma full_complete t : full t → complete (leaf_depths 0 t).*2.
Proof.
  intros Hfull. exists (max_list (leaf_depths 0 t).*2).
  assert (Forall (λ d, d ≤ max_list (leaf_depths 0 t).*2) (leaf_depths 0 t).*2)
    as Hbound.
  { apply Forall_forall. intros d Hd. by apply max_list_elem_of_le. }
  split; [done|]. rewrite full_kraft; [f_equal; lia | done |].
  by apply Forall_fmap in Hbound.
Qed.

Lemma well_formed_full t : well_formed t → full t.
Proof.
  induction t as [f l r c IHl IHr] using HuffmanNode_ind.
  destruct l as [lt|], r as [rt|]; simpl; try done.
  intros (_ & _ & Hl & Hr). split; [by apply IHl | by apply IHr].
Qed.

(** The depth of a leaf is the length of the code of its content, when no
    two leaves hold the same content. *)
Lemma leaf_depths_code t d0 leaf d char :
  NoDup (leaf_contents t) → (leaf, d) ∈ leaf_depths d0 t →
  _content leaf = Some char →
  length (code_of t char) + d0 = d.
Proof.
  revert d0. induction t as [f l r c IHl IHr] using HuffmanNode_ind.
  intros d0 Hnodup Hin Hchar.
  destruct (is_leaf (Node f l r c)) eqn:Hleaf.
  - rewrite leaf_depths_leaf in Hin by done.
    apply list_elem_of_singleton in Hin as [= -> ->].
    unfold code_of. by rewrite get_huffman_code_leaf.
  - rewrite leaf_depths_inner in Hin by done.
    rewrite leaf_contents_inner in Hnodup by done.
    unfold code_of. rewrite get_huffman_code_inner by done.
    cbn [get_child] in *. cbn zeta.
    apply NoDup_app in Hnodup as (Hndl & Hdisj & Hndr).
    assert (∀ child k, (leaf, d) ∈ leaf_depths k child → Some char ∈ leaf_contents child)
      as Hcontent.
    { intros child k Hk. rewrite leaf_contents_leaves, <- (leaf_depths_leaves k).
      rewrite <- Hchar, <- list_fmap_compose.
      by apply (list_elem_of_fmap_2 (_content ∘ fst) _ (leaf, d)). }
    apply elem_of_app in Hin as [Hin|Hin].
    + destruct l as [lt|]; [|by apply elem_of_nil in Hin].
      pose proof (IHl lt eq_refl (S d0) Hndl Hin Hchar) as Hlen.
      pose proof (get_huffman_code_found char lt (Hcontent lt _ Hin)) as Hfound.
      unfold code_of in Hlen. cbn [code_in_child].
      destruct (get_huffman_code char lt) as [[|] code]; [|done].
      simpl in *. lia.
    + destruct r as [rt|]; [|by apply elem_of_nil in Hin].
      pose proof (IHr rt eq_refl (S d0) Hndr Hin Hchar) as Hlen.
      pose proof (Hcontent rt _ Hin) as Hinr.
      pose proof (get_huffman_code_found char rt Hinr) as Hfound.
      assert ((code_in_child char l "0").1 = false) as Hleft.
      { destruct l as [lt|]; [|done]. cbn [code_in_child].
        destruct (get_huffman_code char lt) as [[|] code] eqn:Hcode; [|done].
        apply get_huffman_code_true_leaf in Hcode. by destruct (Hdisj _ Hcode). }
      rewrite Hleft. unfold code_of in Hlen. cbn [code_in_child].
      destruct (get_huffman_code char rt) as [[|] code]; [|done].
      simpl in *. lia.
Qed.


Lemma sum_list_with_fmap {A B} (f : B → nat) (g : A → B) (l : list A) :
  sum_list_with f (g <$> l) = sum_list_with (f ∘ g) l.
Proof. induction l as [|x l IH]; csimpl; [done | by rewrite IH]. Qed.

Lemma sum_list_with_Forall_ext {A} (f g : A → nat) (l : list A) :
  Forall (λ x, f x = g x) l → sum_list_with f l = sum_list_with g l.
Proof. induction 1 as [|x l Hx _ IH]; simpl; [done | by rewrite Hx, IH]. Qed.

Lemma leaf_depths_code_length_Forall t :
  NoDup (leaf_contents t) → Forall is_Some (leaf_contents t) →
  Forall (λ e, e.2 = code_length t (_content e.1)) (leaf_depths 0 t).
Proof.
  intros Hnodup Hsome. apply Forall_forall. intros [leaf d] Hin. cbn [fst snd].
  assert (_content leaf ∈ leaf_contents t) as Hcontent.
  { rewrite leaf_contents_leaves, <- (leaf_depths_leaves 0), <- list_fmap_compose.
    by apply (list_elem_of_fmap_2 (_content ∘ fst) _ (leaf, d)). }
  rewrite Forall_forall in Hsome. destruct (Hsome _ Hcontent) as [char Hchar].
  rewrite Hchar. cbn [code_length].
  pose proof (leaf_depths_code t 0 leaf d char Hnodup Hin Hchar). lia.
Qed.

Lemma leaf_depths_code_length t :
  NoDup (leaf_contents t) → Forall is_Some (leaf_contents t) →
  (leaf_depths 0 t).*2 = code_length t <$> leaf_contents t.
Proof.
  intros Hnodup Hsome.
  rewrite leaf_contents_leaves, <- (leaf_depths_leaves 0), <- !list_fmap_compose.
  apply Forall_fmap_ext_1.
  eapply Forall_impl; [by apply leaf_depths_code_length_Forall|]. by intros [leaf d].
Qed.

Lemma tree_cost_code_length t :
  NoDup (leaf_contents t) → Forall is_Some (leaf_contents t) →
  tree_cost t = sum_list_with (λ leaf, _freq leaf * code_length t (_content leaf)) (leaves t).
Proof.
  intros Hnodup Hsome. unfold tree_cost.
  rewrite <- (leaf_depths_leaves 0), sum_list_with_fmap.
  apply sum_list_with_Forall_ext.
  eapply Forall_impl; [by apply leaf_depths_code_length_Forall|].
  intros [leaf d]. simpl. by intros ->.
Qed.

(** ** The cost of a merged node *)

Lemma leaf_depths_shift d t :
  sum_list_with (λ e, _freq e.1 * e.2) (leaf_depths (S d) t)
  = sum_list_with (λ e, _freq e.1 * e.2) (leaf_depths d t)
    + sum_list_with _freq (leaves t).
Proof.
  revert d. induction t as [f l r c IHl IHr] using HuffmanNode_ind. intros d.
  destruct (is_leaf (Node f l r c)) eqn:Hleaf.
  - rewrite !leaf_depths_leaf, leaves_leaf by done. simpl. lia.
  - rewrite !leaf_depths_inner, leaves_inner, !sum_list_with_app by done.
    cbn [get_child].
    assert (∀ child,
      (∀ t, child = Some t → ∀ d,
         sum_list_with (λ e, _freq e.1 * e.2) (leaf_depths (S d) t)
         = sum_list_with (λ e, _freq e.1 * e.2) (leaf_depths d t)
           + sum_list_with _freq (leaves t)) →
      sum_list_with (λ e, _freq e.1 * e.2)
        match child with Some t => leaf_depths (S (S d)) t | None => [] end
      = sum_list_with (λ e, _freq e.1 * e.2)
          match child with Some t => leaf_depths (S d) t | None => [] end
        + sum_list_with _freq match child with Some t => leaves t | None => [] end)
      as Hchild.
    { intros [t|] IH; [by apply IH | done]. }
    rewrite (Hchild l IHl), (Hchild r IHr). lia.
Qed.

Lemma well_formed_freq t : well_formed t → sum_list_with _freq (leaves t) = _freq t.
Proof.
  induction t as [f l r c IHl IHr] using HuffmanNode_ind.
  destruct l as [lt|], r as [rt|]; simpl; [|done..|intros _; lia].
  intros (_ & -> & Hl & Hr). rewrite sum_list_with_app.
  by rewrite (IHl lt eq_refl Hl), (IHr rt eq_refl Hr).
Qed.

Lemma tree_cost_merge_node node1 node2 :
  well_formed node1 → well_formed node2 →
  tree_cost (merge_node node1 node2)
  = tree_cost node1 + tree_cost node2 + _freq node1 + _freq node2.
Proof.
  intros Hwf1 Hwf2. unfold tree_cost, merge_node. cbn [leaf_depths].
  rewrite sum_list_with_app, !leaf_depths_shift.
  rewrite (well_formed_freq node1 Hwf1), (well_formed_freq node2 Hwf2). lia.
Qed.

(** ** The loop of [gen_huffman_tree] builds a tree of the least cost *)

Lemma gen_huffman_tree_loop_cost fuel heap root pairs :
  is_heap __lt__ heap → Forall well_formed heap →
  gen_huffman_tree_loop fuel heap = Ret [root] →
  pairs.*1 ≡ₚ _freq <$> heap → complete pairs.*2 →
  tree_cost root ≤ sum_list_with tree_cost heap + pairs_cost pairs.
Proof.
  revert heap pairs. induction fuel as [|fuel IH]; intros heap pairs Hheap Hwf; [done|].
  destruct (decide (2 ≤ length heap)) as [Hlen|Hlen].
  - rewrite gen_huffman_tree_loop_step by done.
    destruct (heappop_Permutation __lt__ heap) as (node1 & heap1 & Hpop1 & Hperm1).
    { intros ->. simpl in Hlen. lia. }
    destruct (heappop_is_heap __lt__ __lt___asym __lt___le_trans _ _ _ Hheap Hpop1)
      as [Hheap1 Hmin1].
    destruct (heappop_Permutation __lt__ heap1) as (node2 & heap2 & Hpop2 & Hperm2).
    { intros ->. rewrite <- Hperm1 in Hlen. simpl in Hlen. lia. }
    destruct (heappop_is_heap __lt__ __lt___asym __lt___le_trans _ _ _ Hheap1 Hpop2)
      as [Hheap2 Hmin2].
    destruct (heappush_Permutation __lt__ heap2 (merge_node node1 node2))
      as (heap3 & Hpush & Hperm3).
    assert (is_heap __lt__ heap3) as Hheap3.
    { eapply (heappush_is_heap __lt__ __lt___asym __lt___le_trans);
        [exact Hheap2 | exact Hpush]. }
    unfold merge_step. rewrite Hpop1. cbn [bind]. rewrite Hpop2. cbn [bind].
    rewrite Hpush. cbn [bind]. intros Hloop Hweights Hcomplete.
    assert (heap ≡ₚ node1 :: node2 :: heap2) as Hperm by (by rewrite <- Hperm1, <- Hperm2).
    rewrite Hperm in Hwf. apply Forall_cons in Hwf as [Hwf1 [Hwf2 Hwfrest]%Forall_cons].
    destruct (exchange pairs (_freq node1) (_freq node2) (_freq <$> heap2))
      as (pairs' & Hweights' & Hcomplete' & Hcost); [| | |done|].
    { by rewrite Hweights, Hperm. }
    { apply Forall_forall. intros w Hw. rewrite <- fmap_cons in Hw.
      apply list_elem_of_fmap in Hw as (node & -> & Hnode).
      apply __lt___false, Hmin1. rewrite <- Hperm1, <- Hperm2. by right. }
    { apply Forall_forall. intros w (node & -> & Hnode)%list_elem_of_fmap.
      apply __lt___false, Hmin2. rewrite <- Hperm2. by right. }
    assert (tree_cost root ≤ sum_list_with tree_cost heap3 + pairs_cost pairs') as Hle.
    { apply IH; [done | | done | | done].
      - rewrite Hperm3. constructor; [|done]. by cbn.
      - by rewrite Hweights', Hperm3. }
    rewrite Hperm3 in Hle. rewrite Hperm. cbn [sum_list_with] in *.
    rewrite tree_cost_merge_node in Hle by done. lia.
  - cbn [gen_huffman_tree_loop]. rewrite decide_False by done.
    intros [= ->] _ _. simpl. lia.
Qed.

Lemma tree_cost_leaf_of_count counts :
  sum_list_with tree_cost (leaf_of_count <$> counts) = 0.
Proof.
  induction counts as [|[c n] counts IH]; csimpl; [done|].
  rewrite IH. unfold tree_cost. simpl. lia.
Qed.

Lemma leaf_of_count_freqs counts : _freq <$> (leaf_of_count <$> counts) = counts.*2.
Proof. induction counts as [|[c n] counts IH]; csimpl; [done | by rewrite IH]. Qed.

(** The tree of a file costs no more than any assignment of code lengths
    to the counts of its table that satisfies the equality of Kraft. *)
Lemma build_tree_least_cost data tree pairs :
  build_tree data = Ret tree →
  pairs.*1 ≡ₚ (character_counts (readlines data)).*2 → complete pairs.*2 →
  tree_cost tree ≤ pairs_cost pairs.
Proof.
  intros Htree Hweights Hcomplete.
  assert (data ≠ []) as Hne by (intros ->; by rewrite build_tree_nil in Htree).
  destruct (counts_heap_spec (character_counts (readlines data)))
    as (heap & Hheap & Hperm & Hord).
  assert (heap ≠ []) as Hne'.
  { intros ->. apply Permutation_length in Hperm. rewrite length_fmap in Hperm.
    apply (character_counts_nonempty data Hne). by apply nil_length_inv. }
  destruct (gen_huffman_tree_loop_spec (S (length heap)) heap)
    as (root & Hloop & _); [done | lia |].
  unfold build_tree, get_quantitative_heap, gen_huffman_tree in Htree.
  rewrite Hheap in Htree. cbn [bind] in Htree. rewrite Hloop in Htree.
  injection Htree as <-.
  assert (tree_cost root ≤ sum_list_with tree_cost heap + pairs_cost pairs) as Hcost.
  { apply (gen_huffman_tree_loop_cost (S (length heap))); [done | | done | | done].
    - rewrite Hperm. apply leaf_of_count_well_formed.
    - by rewrite Hperm, leaf_of_count_freqs. }
  by rewrite Hperm, tree_cost_leaf_of_count in Hcost.
Qed.

Lemma codes_length t data :
  length (data ≫= code_of t) = sum_list_with (λ c, length (code_of t c)) data.
Proof.
  induction data as [|c data IH]; [done|].
  by rewrite bind_cons, length_app, IH.
Qed.

(** The cost of the tree of a file is the length of its compressed
    stream. *)
Lemma build_tree_cost_stream data tree :
  build_tree data = Ret tree → tree_cost tree = length (data ≫= code_of tree).
Proof.
  intros Htree.
  assert (data ≠ []) as Hne by (intros ->; by rewrite build_tree_nil in Htree).
  destruct (build_tree_structure data Hne) as (tree' & Htree' & _ & Hleaves & Hnodup & _).
  assert (tree' = tree) as -> by congruence.
  rewrite tree_cost_code_length; [|done|].
  - rewrite Hleaves, sum_list_with_fmap, codes_length.
    rewrite <- character_counts_weighted_sum. unfold weighted_sum.
    apply sum_list_with_Forall_ext, Forall_forall. by intros [c n] _.
  - rewrite leaf_contents_leaves, Hleaves, leaf_of_count_content.
    apply Forall_fmap, Forall_forall. intros c _. by eexists.
Qed.

(** The code lengths a full tree over the bytes of a table gives them,
    paired with their counts. *)
Lemma full_tree_pairs t counts :
  full t → NoDup counts.*1 → leaf_contents t ≡ₚ Some <$> counts.*1 →
  ∃ pairs, pairs.*1 = counts.*2 ∧ complete pairs.*2
           ∧ pairs_cost pairs = weighted_sum (λ s, length (code_of t s)) counts.
Proof.
  intros Hfull Hnodup Hperm.
  exists ((λ e, (e.2, length (code_of t e.1))) <$> counts). split_and!.
  - by rewrite <- list_fmap_compose.
  - apply (complete_Permutation (leaf_depths 0 t).*2); [|by apply full_complete].
    rewrite leaf_depths_code_length.
    + rewrite Hperm, <- !list_fmap_compose. done.
    + rewrite Hperm. by apply (NoDup_fmap_2 Some).
    + rewrite Hperm. apply Forall_fmap, Forall_forall. intros c _. by eexists.
  - unfold pairs_cost, weighted_sum. by rewrite sum_list_with_fmap.
Qed.

(** X24 (the code is optimal). For every file, the stream compressed with
    the tree built from the file is no longer than the stream compressed
    with any other full binary tree whose leaves hold the distinct bytes of
    the file, each once: among these prefix codes the code of the program
    gives the fewest bits. *)
Theorem huffman_code_optimal (data : bytes) (tree other : HuffmanNode) :
  build_tree data = Ret tree →
  full other →
  leaf_contents other ≡ₚ Some <$> (character_counts (readlines data)).*1 →
  ∃ payload payload',
    compress_file (readlines data) tree = Ret payload
    ∧ compress_file (readlines data) other = Ret payload'
    ∧ length payload ≤ length payload'.
Proof.
  intros Htree Hfull Hperm.
  destruct (encode_spec data tree Htree) as (_ & Hcomp & _).
  exists (data ≫= code_of tree), (data ≫= code_of other). split_and!; [done | |].
  - rewrite compress_file_spec; rewrite readlines_join; [done|].
    apply Forall_forall. intros char Hchar. apply contained_leaf_contents.
    rewrite Hperm. by apply list_elem_of_fmap_2, character_counts_elem_of.
  - destruct (full_tree_pairs other (character_counts (readlines data)))
      as (pairs & Hweights & Hcomplete & Hcost);
      [done | apply character_counts_NoDup | done |].
    rewrite <- (build_tree_cost_stream data tree Htree), codes_length.
    rewrite <- character_counts_weighted_sum, <- Hcost.
    apply (build_tree_least_cost data); [done | by rewrite Hweights | done].
Qed.

Lemma huffman_code_optimal_witness :
  build_tree file_abracadabra = Ret tree_abracadabra
  ∧ full tree_abracadabra_balanced
  ∧ leaf_contents tree_abracadabra_balanced
    ≡ₚ Some <$> (character_counts (readlines file_abracadabra)).*1
  ∧ ∃ payload payload',
      compress_file (readlines file_abracadabra) tree_abracadabra = Ret payload
      ∧ compress_file (readlines file_abracadabra) tree_abracadabra_balanced
        = Ret payload'
      ∧ length payload ≤ length payload'.
Proof.
  assert (build_tree file_abracadabra = Ret tree_abracadabra) as Htree
    by (vm_compute; reflexivity).
  assert (full tree_abracadabra_balanced) as Hfull by (simpl; tauto).
  assert (leaf_contents tree_abracadabra_balanced
          ≡ₚ Some <$> (character_counts (readlines file_abracadabra)).*1) as Hperm
    by (vm_compute; reflexivity).
  split_and!; [exact Htree | exact Hfull | exact Hperm |].
  exact (huffman_code_optimal file_abracadabra tree_abracadabra
           tree_abracadabra_balanced Htree Hfull Hperm).
Defined.

(** ** The compressed stream against the eight bits of a byte *)

Lemma kraft_S m depths : kraft (S m) (S <$> depths) = kraft m depths.
Proof.
  induction depths as [|d depths IH]; [done|].
  by rewrite fmap_cons, !kraft_cons, IH.
Qed.

(** Up to [2 ^ m] code lengths that satisfy the equality of Kraft and do
    not exceed [m]. *)
Lemma bounded_depths m k :
  1 ≤ k → k ≤ 2 ^ m →
  ∃ depths, length depths = k ∧ Forall (λ d, d ≤ m) depths
            ∧ kraft m depths = 2 ^ m.
Proof.
  revert k. induction m as [|m IH]; intros k Hk1 Hk2.
  { simpl in Hk2. exists [0]. split_and!; [simpl; lia | by repeat constructor | done]. }
  destruct (decide (k = 1)) as [->|Hne].
  { exists [0]. split_and!; [done | repeat constructor; lia |].
    rewrite kraft_cons. simpl. lia. }
  rewrite Nat.pow_succ_r' in Hk2.
  destruct (IH (Nat.min (k - 1) (2 ^ m))) as (depths1 & Hlen1 & Hbound1 & Hkraft1); [lia..|].
  destruct (IH (k - Nat.min (k - 1) (2 ^ m))) as (depths2 & Hlen2 & Hbound2 & Hkraft2);
    [lia..|].
  exists (S <$> depths1 ++ depths2). split_and!.
  - rewrite length_fmap, length_app. lia.
  - apply Forall_fmap, Forall_app. split.
    + eapply Forall_impl; [exact Hbound1|]. simpl. lia.
    + eapply Forall_impl; [exact Hbound2|]. simpl. lia.
  - rewrite kraft_S, kraft_app, Hkraft1, Hkraft2, Nat.pow_succ_r'. lia.
Qed.

Lemma NoDup_bytes_length (l : list byte) : NoDup l → length l ≤ 256.
Proof.
  intros Hnodup.
  assert (NoDup (Byte.to_nat <$> l)) as Hnat.
  { apply NoDup_fmap_2_strong; [|done]. intros x y _ _ Heq.
    pose proof (Byte.of_to_nat x) as Hx. rewrite Heq, Byte.of_to_nat in Hx.
    congruence. }
  assert (length (Byte.to_nat <$> l) ≤ length (seq 0 256)) as Hle.
  { apply submseteq_length, NoDup_submseteq; [done|].
    intros n (b & -> & _)%list_elem_of_fmap. apply elem_of_seq.
    pose proof (Byte.to_nat_bounded b). lia. }
  by rewrite length_fmap, length_seq in Hle.
Qed.

Lemma pairs_cost_zip_bound m weights depths :
  Forall (λ d, d ≤ m) depths →
  pairs_cost (zip weights depths) ≤ m * sum_list weights.
Proof.
  intros Hbound. revert weights.
  induction Hbound as [|d depths Hd _ IH]; intros [|w weights];
    unfold pairs_cost in *; simpl; [lia..|].
  specialize (IH weights). nia.
Qed.

Lemma sum_list_snd (counts : list (byte * nat)) :
  sum_list counts.*2 = sum_list_with snd counts.
Proof. induction counts as [|[c n] counts IH]; csimpl; [done | by rewrite IH]. Qed.

Lemma readlines_lengths data : sum_list (length <$> readlines data) = length data.
Proof. by rewrite <- length_join, readlines_join. Qed.

(** X25 (the two sizes [main] prints). For every file, the number printed
    as the size of the compressed file, one per character of the stream,
    is at most the number printed as the size of the file, eight per byte
    of its lines. *)
Theorem compressed_bits_at_most_file_bits (data : bytes) (tree : HuffmanNode) :
  build_tree data = Ret tree →
  ∃ file_cmprssd,
    compress_file (readlines data) tree = Ret file_cmprssd
    ∧ length file_cmprssd ≤ sum_list (length <$> readlines data) * 8.
Proof.
  intros Htree. destruct (encode_spec data tree Htree) as (_ & Hcomp & _).
  exists (data ≫= code_of tree). split; [done|].
  assert (data ≠ []) as Hne by (intros ->; by rewrite build_tree_nil in Htree).
  rewrite readlines_lengths, <- (build_tree_cost_stream data tree Htree).
  pose proof (character_counts_nonempty data Hne) as Hcounts.
  pose proof (NoDup_bytes_length _ (character_counts_NoDup data)) as Hkeys.
  rewrite length_fmap in Hkeys.
  destruct (bounded_depths 8 (length (character_counts (readlines data))))
    as (depths & Hlen & Hbound & Hkraft).
  { destruct (character_counts (readlines data)); simpl; [done | lia]. }
  { done. }
  etransitivity;
    [apply (build_tree_least_cost data tree
              (zip (character_counts (readlines data)).*2 depths) Htree)|].
  - rewrite fst_zip; [done|]. rewrite length_fmap. lia.
  - rewrite snd_zip; [by exists 8|]. rewrite length_fmap. lia.
  - etransitivity; [by apply (pairs_cost_zip_bound 8)|].
    rewrite sum_list_snd, character_counts_total. lia.
Qed.

Lemma compressed_bits_at_most_file_bits_witness :
  build_tree file_abracadabra = Ret tree_abracadabra
  ∧ ∃ file_cmprssd,
      compress_file (readlines file_abracadabra) tree_abracadabra = Ret file_cmprssd
      ∧ length file_cmprssd ≤ sum_list (length <$> readlines file_abracadabra) * 8.
Proof.
  assert (build_tree file_abracadabra = Ret tree_abracadabra) as Htree
    by (vm_compute; reflexivity).
  split; [exact Htree|].
  exact (compressed_bits_at_most_file_bits file_abracadabra tree_abracadabra Htree).
Defined.

(** ** The height of the trees of the program *)

Lemma full_height t : full t → height t < length (leaves t).
Proof.
  induction t as [f l r c IHl IHr] using HuffmanNode_ind.
  destruct l as [lt|], r as [rt|]; simpl; [|done..|lia].
  intros [Hl Hr]. rewrite length_app.
  specialize (IHl lt eq_refl Hl). specialize (IHr rt eq_refl Hr). lia.
Qed.

(** The tree of a file has at most 255 levels, one less than there are
    bytes. *)
Lemma build_tree_height data tree : build_tree data = Ret tree → height tree ≤ 255.
Proof.
  intros Htree.
  assert (data ≠ []) as Hne by (intros ->; by rewrite build_tree_nil in Htree).
  destruct (build_tree_structure data Hne) as (tree' & Htree' & Hwf & Hleaves & _).
  assert (tree' = tree) as -> by congruence.
  pose proof (full_height tree (well_formed_full tree Hwf)) as Hheight.
  pose proof (NoDup_bytes_length _ (character_counts_NoDup data)) as Hkeys.
  rewrite Hleaves, !length_fmap in *. lia.
Qed.
